(** * Control automation graph engine: controller and action instance tree

    A shallow embedding of
    - [companion/lib/Controls/Controller.ts] (class [ControlsController]) and
    - the class [FragmentActionInstance]
      ([Controls/Fragments/FragmentActionInstance.ts]),
    together with the statements of the engine's documented properties. *)

From stdpp Require Import base option list strings gmap pretty.
From Stdlib Require Import ZArith Lia Sorted Permutation.

Local Open Scope string_scope.
Local Open Scope list_scope.
Local Open Scope Z_scope.

(** ** Plain data *)

(** Option values of an action are arbitrary JSON scalars. *)
Inductive JsonValue :=
  | JNull
  | JBool (b : bool)
  | JNum (z : Z)
  | JStr (s : string).

#[local] Unset Elimination Schemes.

(** [ActionInstance] of [shared/Model/ActionModel]: the stored (JSON) form
    of an action.  [children] is optional, and so is the value stored
    under each group id (the constructor skips falsy values).  Missing
    [options] are the empty object, as the constructor makes them. *)
Inductive ActionInstance := mkActionInstance {
  ai_id : string;
  ai_instance : string;
  ai_action : string;
  ai_options : gmap string JsonValue;
  ai_disabled : bool;
  ai_headline : option string;
  ai_upgradeIndex : option Z;
  ai_children : option (list (string * option (list ActionInstance)))
}.

(** [Omit<ActionInstance, 'children'>], the type of [#data].  The record
    follows the declared type: the [children] key that [cloneDeep(data)]
    leaves in the object at run time is not a field of it. *)
Record ActionData := mkActionData {
  id : string;
  instance : string;
  action : string;
  options : gmap string JsonValue;
  disabled : bool;
  headline : option string;
  upgradeIndex : option Z
}.

(** The part of an [ActionDefinition] that the tree reads. *)
Record ActionDefinition := mkActionDefinition {
  supportsChildActionGroups : list string
}.

(** [FragmentActionInstance]: [#data] and the [#children] map.  A JS [Map]
    iterates in insertion order, so it is an association list whose keys
    are kept distinct by [JsMap.set].  A [FragmentActionList] is the ordered
    list of the instances it owns; its owner descriptor
    ([parentActionId], [childGroup]) is fixed by its place in the tree. *)
Inductive FragmentActionInstance := mkFragment {
  data : ActionData;
  children : list (string * list FragmentActionInstance)
}.

#[local] Set Elimination Schemes.

Abbreviation FragmentActionList := (list FragmentActionInstance).

(** ** JS [Map] with insertion order *)

Module JsMap.
Section JsMap.
Context {V : Type}.

Fixpoint get (m : list (string * V)) (k : string) : option V :=
  match m with
  | [] => None
  | (k', v) :: m' => if decide (k' = k) then Some v else get m' k
  end.

(** [Map.prototype.set]: an existing key keeps its position. *)
Fixpoint set (m : list (string * V)) (k : string) (v : V) : list (string * V) :=
  match m with
  | [] => [(k, v)]
  | (k', v') :: m' =>
      if decide (k' = k) then (k, v) :: m' else (k', v') :: set m' k v
  end.

(** [Map.prototype.delete] *)
Fixpoint delete (m : list (string * V)) (k : string) : list (string * V) :=
  match m with
  | [] => []
  | (k', v') :: m' =>
      if decide (k' = k) then m' else (k', v') :: delete m' k
  end.
End JsMap.
End JsMap.

(** Results of operations that may throw. *)
Inductive Result (A : Type) :=
  | Ok (a : A)
  | Throw (msg : string).
Arguments Ok {A} a.
Arguments Throw {A} msg.

(** One call on a connection's RPC surface. *)
Inductive RpcCall :=
  | ActionUpdate (connection : string) (inst : ActionInstance) (controlId : string)
  | ActionDelete (connection : string) (inst : ActionInstance)
  | ActionLearnValues (connection : string) (inst : ActionInstance) (controlId : string).

(** ** External collaborators *)

(** [InstanceDefinitions]: the definition registry. *)
Class InstanceDefinitions := {
  getActionDefinition : string → string → option ActionDefinition
}.

(** [ModuleHost.getChild(connectionId, true)]: whether a running
    connection exists for the id. *)
Class ModuleHost := {
  getChild : string → bool
}.

(** [nanoid()]: the n-th identifier drawn since start-up. *)
Class IdSource := {
  nanoid : nat → string
}.

(** [FragmentActionList.canAcceptAction]: the list's own acceptance test,
    whose code is not part of the tree class. *)
Class ActionListPolicy := {
  canAcceptAction : list FragmentActionInstance → FragmentActionInstance → bool
}.

(** ** [FragmentActionInstance] *)

Section FragmentActionInstance.
Context `{InstanceDefinitions, ModuleHost, IdSource, ActionListPolicy}.

Definition connectionId (t : FragmentActionInstance) : string :=
  instance (data t).

Definition getDefinition (t : FragmentActionInstance) : option ActionDefinition :=
  getActionDefinition (instance (data t)) (action (data t)).

(** The group object handed out by [#getOrCreateActionGroup] is the one
    stored in [#children]; a caller that mutates it writes it back with
    [setChildGroup]. *)
Definition setChildGroup (t : FragmentActionInstance) (groupId : string)
    (actions : FragmentActionList) : FragmentActionInstance :=
  mkFragment (data t) (JsMap.set (children t) groupId actions).

Definition getOrCreateActionGroup (t : FragmentActionInstance) (groupId : string)
    : Result (FragmentActionInstance * FragmentActionList) :=
  match JsMap.get (children t) groupId with
  | Some existing => Ok (t, existing)
  | None =>
      match (if decide (connectionId t = "internal") then getDefinition t else None) with
      | None => Throw "Action cannot accept children."
      | Some definition =>
          if decide (groupId ∈ supportsChildActionGroups definition)
          then Ok (setChildGroup t groupId [], [])
          else Throw "Action cannot accept children in this group."
      end
  end.

Definition dataOf (isCloned : bool) (d : ActionInstance) (n : nat) : ActionData :=
  mkActionData (if isCloned then nanoid n else ai_id d) (ai_instance d)
    (ai_action d) (ai_options d) (ai_disabled d) (ai_headline d)
    (ai_upgradeIndex d).

(** The constructor.  [n] counts the ids drawn from [nanoid] so far; the
    new count is returned with the instance.  The inner [loadStorage] is
    Modelled from the spec: [FragmentActionList.loadStorage(actions,
    skipSubscribe = true, isCloned)] replaces the list's content by one
    new instance per stored action, in order, passing [isCloned] on.  An
    error of [#getOrCreateActionGroup] is logged and the group skipped. *)
Fixpoint construct (isCloned : bool) (d : ActionInstance) (n : nat) {struct d}
    : FragmentActionInstance * nat :=
  match d with
  | mkActionInstance _ inst _ _ _ _ _ ch =>
      let self := mkFragment (dataOf isCloned d n) [] in
      let n := if isCloned then S n else n in
      match ch with
      | None => (self, n)
      | Some entries =>
          if decide (inst = "internal") then
            (fix loadGroups (entries : list (string * option (list ActionInstance)))
                 (self : FragmentActionInstance) (n : nat) {struct entries} :=
               match entries with
               | [] => (self, n)
               | (groupId, None) :: rest => loadGroups rest self n
               | (groupId, Some actions) :: rest =>
                   match getOrCreateActionGroup self groupId with
                   | Throw _ => loadGroups rest self n
                   | Ok (self', _) =>
                       let '(loaded, n') :=
                         (fix loadStorage (actions : list ActionInstance) (n : nat)
                              {struct actions} :=
                            match actions with
                            | [] => ([], n)
                            | a :: actions' =>
                                let '(f, n1) := construct isCloned a n in
                                let '(fs, n2) := loadStorage actions' n1 in
                                (f :: fs, n2)
                            end) actions n in
                       loadGroups rest (setChildGroup self' groupId loaded) n'
                   end
               end) entries self n
          else (self, n)
      end
  end.

(** Modelled from the spec: [FragmentActionList.loadStorage(actions,
    skipSubscribe = true, isCloned)], the function that [construct] has
    inline: one new instance per stored action, in order. *)
Fixpoint loadStorage (isCloned : bool) (actions : list ActionInstance) (n : nat)
    : FragmentActionList * nat :=
  match actions with
  | [] => ([], n)
  | a :: actions' =>
      let '(f, n1) := construct isCloned a n in
      let '(fs, n2) := loadStorage isCloned actions' n1 in
      (f :: fs, n2)
  end.

(** The constructor's loop over [Object.entries(data.children)], as a
    function of its own. *)
Fixpoint loadGroups (isCloned : bool)
    (entries : list (string * option (list ActionInstance)))
    (self : FragmentActionInstance) (n : nat) : FragmentActionInstance * nat :=
  match entries with
  | [] => (self, n)
  | (groupId, None) :: rest => loadGroups isCloned rest self n
  | (groupId, Some actions) :: rest =>
      match getOrCreateActionGroup self groupId with
      | Throw _ => loadGroups isCloned rest self n
      | Ok (self', _) =>
          let '(loaded, n') := loadStorage isCloned actions n in
          loadGroups isCloned rest (setChildGroup self' groupId loaded) n'
      end
  end.

(** [asActionInstance]: the data and, for an internal action, the stored
    form of its child groups.  For an action that is not internal the
    result has no children: the [children] key that the spread of [#data]
    still carries at run time, a leftover of the data the instance was
    built from, is not represented (see [ActionData]). *)
Fixpoint asActionInstance (t : FragmentActionInstance) : ActionInstance :=
  match t with
  | mkFragment d ch =>
      mkActionInstance (id d) (instance d) (action d) (options d) (disabled d)
        (headline d) (upgradeIndex d)
        (if decide (instance d = "internal")
         then Some (map (λ g, (g.1, Some (map asActionInstance g.2))) ch)
         else None)
  end.

(** [cleanup]: the delete notification of the node, then those of the
    child groups.  [FragmentActionList.cleanup] is Modelled from the
    spec: it cleans up every instance of the list, in order. *)
Fixpoint cleanup (t : FragmentActionInstance) : list RpcCall :=
  match t with
  | mkFragment d ch =>
      (if getChild (instance d)
       then [ActionDelete (instance d) (asActionInstance t)] else [])
      ++ concat (map (λ g, concat (map cleanup g.2)) ch)
  end.

(** JS truthiness of the optional [onlyConnectionId]. *)
Definition truthy (s : option string) : bool :=
  match s with
  | None => false
  | Some s => bool_decide (s ≠ EmptyString)
  end.

(** [subscribe].  [FragmentActionList.subscribe] is Modelled from the
    spec: it subscribes every instance of the list, in order, with the
    same arguments. *)
Fixpoint subscribe (controlId : string) (recursive : bool)
    (onlyConnectionId : option string) (t : FragmentActionInstance)
    : list RpcCall :=
  match t with
  | mkFragment d ch =>
      if disabled d then []
      else
        (if negb (truthy onlyConnectionId)
            || bool_decide (Some (instance d) = onlyConnectionId)
         then
           if decide (instance d = "internal") then []
           else if getChild (instance d)
                then [ActionUpdate (instance d) (asActionInstance t) controlId]
                else []
         else [])
        ++ (if recursive
            then concat (map (λ g, concat (map (subscribe controlId recursive
                                                  onlyConnectionId) g.2)) ch)
            else [])
  end.

Definition withData (t : FragmentActionInstance) (d : ActionData) : FragmentActionInstance :=
  mkFragment d (children t).

(** [setEnabled] *)
Definition setEnabled (controlId : string) (enabled : bool)
    (t : FragmentActionInstance) : FragmentActionInstance * list RpcCall :=
  let d := data t in
  let t' := withData t (mkActionData (id d) (instance d) (action d) (options d)
                          (negb enabled) (headline d) (upgradeIndex d)) in
  if negb (disabled (data t'))
  then (t', subscribe controlId true None t')
  else (t', cleanup t').

(** [setHeadline] *)
Definition setHeadline (newHeadline : string) (t : FragmentActionInstance)
    : FragmentActionInstance :=
  let d := data t in
  withData t (mkActionData (id d) (instance d) (action d) (options d)
                (disabled d) (Some newHeadline) (upgradeIndex d)).

(** [setInstance]: unsubscribe from the old connection, change the
    connection, subscribe to the new one. *)
Definition setInstance (controlId : string) (instanceId : string)
    (t : FragmentActionInstance) : FragmentActionInstance * list RpcCall :=
  let unsubscribed := cleanup t in
  let d := data t in
  let t' := withData t (mkActionData (id d) instanceId (action d) (options d)
                          (disabled d) (headline d) (upgradeIndex d)) in
  (t', unsubscribed ++ subscribe controlId true (Some instanceId) t').

(** [setOptions] *)
Definition setOptions (controlId : string) (newOptions : gmap string JsonValue)
    (t : FragmentActionInstance) : FragmentActionInstance * list RpcCall :=
  let d := data t in
  let t' := withData t (mkActionData (id d) (instance d) (action d) newOptions
                          (disabled d) (headline d) (upgradeIndex d)) in
  (t', subscribe controlId false None t').

(** The assignment [object[key] = value] on a plain object, the map
    being its own properties.  For every key but [__proto__] it stores an
    own property.  For [__proto__] it does so only when the object has
    an own property of that name already (stored data can have one);
    otherwise the assignment goes to the accessor of [Object.prototype],
    which ignores a value that is neither an object nor [null] and, for
    [null], removes the prototype of the object.  An object without
    prototype is not represented here: the result is [None] there. *)
Definition assignProperty (object : gmap string JsonValue) (key : string)
    (value : JsonValue) : option (gmap string JsonValue) :=
  if decide (key = "__proto__") then
    match object !! key with
    | Some _ => Some (<[key := value]> object)
    | None =>
        match value with
        | JNull => None
        | _ => Some object
        end
    end
  else Some (<[key := value]> object).

(** [setOption]: the assignment [this.#data.options[key] = value], then
    the module is informed.  [None] when the assignment leaves the
    options without prototype. *)
Definition setOption (controlId : string) (key : string) (value : JsonValue)
    (t : FragmentActionInstance) : option (FragmentActionInstance * list RpcCall) :=
  match assignProperty (options (data t)) key value with
  | Some newOptions => Some (setOptions controlId newOptions t)
  | None => None
  end.

(** [learnOptions], in its two halves: the learn RPC that is sent when the
    connection is running (without one the result is false at once), and
    what is done with the connection's answer. *)
Definition learnOptions_request (controlId : string) (t : FragmentActionInstance)
    : option RpcCall :=
  if getChild (connectionId t)
  then Some (ActionLearnValues (connectionId t) (asActionInstance t) controlId)
  else None.

Definition learnOptions_answer (controlId : string)
    (newOptions : option (gmap string JsonValue)) (t : FragmentActionInstance)
    : FragmentActionInstance * list RpcCall * bool :=
  match newOptions with
  | Some o => (setOptions controlId o t, true)
  | None => (t, [], false)
  end.

(** Modelled from the spec: [FragmentActionList.addAction(action)] builds
    a new instance from the stored form (keeping its id) and appends it
    to the ordered list. *)
Definition addAction (actions : FragmentActionList) (action : ActionInstance)
    (n : nat) : FragmentActionList * FragmentActionInstance :=
  let '(newAction, _) := construct false action n in
  (actions ++ [newAction], newAction).

(** Modelled from the spec: [FragmentActionList.pushAction(action, index)]
    inserts an existing instance at the index, clamped to the list. *)
Definition pushAction (actions : FragmentActionList)
    (action : FragmentActionInstance) (index : Z) : FragmentActionList :=
  let i := Z.to_nat (Z.min (Z.max 0 index) (Z.of_nat (length actions))) in
  take i actions ++ action :: drop i actions.

(** [addChild] *)
Definition addChild (groupId : string) (action : ActionInstance) (n : nat)
    (t : FragmentActionInstance)
    : Result (FragmentActionInstance * FragmentActionInstance) :=
  if decide (connectionId t ≠ "internal")
  then Throw "Only internal actions can have children"
  else
    match getOrCreateActionGroup t groupId with
    | Throw msg => Throw msg
    | Ok (t', actionGroup) =>
        let '(actionGroup', newAction) := addAction actionGroup action n in
        Ok (setChildGroup t' groupId actionGroup', newAction)
    end.

(** [pushChild] *)
Definition pushChild (action : FragmentActionInstance) (groupId : string)
    (index : Z) (t : FragmentActionInstance) : Result FragmentActionInstance :=
  match getOrCreateActionGroup t groupId with
  | Throw msg => Throw msg
  | Ok (t', actionGroup) =>
      Ok (setChildGroup t' groupId (pushAction actionGroup action index))
  end.

(** [canAcceptChild] *)
Definition canAcceptChild (groupId : string) (action : FragmentActionInstance)
    (t : FragmentActionInstance) : Result (FragmentActionInstance * bool) :=
  match getOrCreateActionGroup t groupId with
  | Throw msg => Throw msg
  | Ok (t', actionGroup) => Ok (t', canAcceptAction actionGroup action)
  end.

(** [getAllChildren]: the instances below a node, in pre-order (each list
    gives its instances, each followed by the instances below it). *)
Fixpoint getAllChildren (t : FragmentActionInstance) : list FragmentActionInstance :=
  match t with
  | mkFragment _ ch =>
      concat (map (λ g, concat (map (λ c, c :: getAllChildren c) g.2)) ch)
  end.

(** Modelled from the spec: [FragmentActionList.getAllActions] lists the
    instances of a list in pre-order. *)
Definition getAllActions (actions : FragmentActionList) : list FragmentActionInstance :=
  concat (map (λ c, c :: getAllChildren c) actions).
End FragmentActionInstance.

(** ** Controls, locations and their collaborators *)

(** [ControlLocation] of [shared/Model/Common]. *)
Record ControlLocation := mkLocation {
  pageNumber : Z;
  column : Z;
  row : Z
}.

#[global] Instance ControlLocation_eq_dec : EqDecision ControlLocation.
Proof. solve_decision. Defined.

#[global] Instance ControlLocation_countable : Countable ControlLocation.
Proof.
  apply (inj_countable' (λ l, (pageNumber l, column l, row l))
           (λ p, mkLocation p.1.1 p.1.2 p.2)).
  by intros [].
Defined.

(** The control classes ([ControlButtonNormal], [ControlButtonPageNumber],
    [ControlButtonPageUp], [ControlButtonPageDown], [ControlTrigger]). *)
Inductive ControlType := button | pagenum | pageup | pagedown | trigger.

#[global] Instance ControlType_eq_dec : EqDecision ControlType.
Proof. solve_decision. Defined.

Definition typeName (ty : ControlType) : string :=
  match ty with
  | button => "button"
  | pagenum => "pagenum"
  | pageup => "pageup"
  | pagedown => "pagedown"
  | trigger => "trigger"
  end.

(** The stored form of a control ([SomeButtonModel | TriggerModel]): its
    type tag, the [sortOrder] option and the stored instance trees. *)
Record SomeControlModel := mkControlModel {
  m_type : string;
  m_sortOrder : Z;
  m_actions : list ActionInstance;
  m_feedbacks : list ActionInstance
}.

(** Modelled from the spec: a live control has an id, a variant, its
    options (of which the controller reads [sortOrder]) and owns an action
    instance tree and a feedback tree that is structurally identical to
    the action analog. *)
Record Control := mkControl {
  controlId : string;
  controlType : ControlType;
  sortOrder : Z;
  actions : FragmentActionList;
  feedbacks : FragmentActionList
}.

(** Capability flags are fixed per variant. *)
Class ControlCapabilities := {
  supportsActionsOf : ControlType → bool;
  supportsFeedbacksOf : ControlType → bool;
  supportsOptionsOf : ControlType → bool
}.

Inductive ControlIdKind := bank | triggerId.

(** [shared/ControlId]: the id scheme. *)
Class ControlIdScheme := {
  CreateBankControlId : string → string;
  CreateTriggerControlId : string → string;
  ParseControlId : string → option ControlIdKind
}.

(** The page collaborator's validity test. *)
Class PageValidity := {
  isPageValid : Z → bool
}.

(** What the controller does to its collaborators, in order. *)
Inductive Effect :=
  | InvalidateButton (location : ControlLocation)
  | UpdateButtonState (location : ControlLocation)
  | TriggerLocationHasChanged (controlId : string)
  | TriggerRedraw (controlId : string)
  | Rpc (call : RpcCall)
  | EmitToRoom (room event id : string)
  | ActionLearn (controlId stepId setId id : string)
  | FeedbackLearn (controlId id : string)
  | LogError (msg : string)
  | LogWarn (msg : string).

(** The controller: [#controls], [#activeLearnRequests], the learn
    promises that have not settled yet, the page collaborator's bindings,
    the persisted [controls] table, the number of ids drawn from [nanoid]
    and the trace of effects on the collaborators. *)
Record ControlsController := mkController {
  controls : list (string * Control);
  activeLearnRequests : gset string;
  pendingLearns : list string;
  pages : gmap ControlLocation string;
  dbControls : gmap string SomeControlModel;
  nanoidCount : nat;
  effects : list Effect
}.

Definition ActiveLearnRoom : string := "learn:active".

(** The double quote character, as a string. *)
Definition quote : string := String (Ascii.ascii_of_nat 34) EmptyString.

(** How a call of [control.actionLearn] / [feedbacks.feedbackLearn] ends
    synchronously, and how its promise settles. *)
Inductive LearnCall := ReturnsPromise | ThrowsSync (e : string).
Inductive LearnOutcome := Fulfilled (changed : bool) | Rejected (e : string).

Inductive ControlCategory := CategoryButton | CategoryTrigger | CategoryAll.

#[global] Instance ControlCategory_eq_dec : EqDecision ControlCategory.
Proof. solve_decision. Defined.

(** Stable sort by an integer key, for
    [Array.prototype.sort((a, b) => key(a) - key(b))]. *)
Section Sort.
Context {A : Type} (key : A → Z).

Fixpoint insertSorted (x : A) (l : list A) : list A :=
  match l with
  | [] => [x]
  | y :: l' => if decide (key x ≤ key y) then x :: l else y :: insertSorted x l'
  end.

Definition sort (l : list A) : list A := foldr insertSorted [] l.
End Sort.

Section ControlsController.
Context `{InstanceDefinitions, ModuleHost, IdSource, ActionListPolicy,
          ControlCapabilities, ControlIdScheme, PageValidity}.

Definition supportsActions (c : Control) : bool := supportsActionsOf (controlType c).
Definition supportsFeedbacks (c : Control) : bool := supportsFeedbacksOf (controlType c).
Definition supportsOptions (c : Control) : bool := supportsOptionsOf (controlType c).

(** JS truthiness of an optional string. *)
Definition truthyId (o : option string) : option string :=
  match o with
  | Some s => if decide (s = EmptyString) then None else Some s
  | None => None
  end.

(** Modelled from the spec: the addressing collaborator maps a location
    to the control id bound there, [getControlIdAt(location)], and back. *)
Definition getControlIdAt (p : gmap ControlLocation string) (location : ControlLocation)
    : option string := p !! location.

(** Modelled from the spec: [setControlIdAt(location, id | null)] binds
    the location to the id, or clears it. *)
Definition setControlIdAt (p : gmap ControlLocation string) (location : ControlLocation)
    (controlId : option string) : gmap ControlLocation string :=
  match controlId with
  | Some c => <[location := c]> p
  | None => delete location p
  end.

(** Modelled from the spec: [getLocationOfControlId(id)] is a location
    bound to the id, if there is one (at most one, the bindings being a
    partial bijection). *)
Definition getLocationOfControlId (p : gmap ControlLocation string) (controlId : string)
    : option ControlLocation :=
  fst <$> head (filter (λ b : ControlLocation * string, b.2 = controlId) (map_to_list p)).

(** [getControl] *)
Definition getControl (s : ControlsController) (controlId : string) : option Control :=
  if decide (controlId = EmptyString) then None else JsMap.get (controls s) controlId.

(** [getAllTriggers]: the registry entries whose control is a
    [ControlTrigger], in the registry's order.  An entry stands for the
    reference to its control object. *)
Definition getAllTriggers (s : ControlsController) : list (string * Control) :=
  filter (λ e : string * Control, controlType e.2 = trigger) (controls s).

Definition withEffects (s : ControlsController) (es : list Effect) : ControlsController :=
  mkController (controls s) (activeLearnRequests s) (pendingLearns s) (pages s)
    (dbControls s) (nanoidCount s) (effects s ++ es).

Definition withControls (s : ControlsController) (cs : list (string * Control))
    : ControlsController :=
  mkController cs (activeLearnRequests s) (pendingLearns s) (pages s)
    (dbControls s) (nanoidCount s) (effects s).

Definition withPages (s : ControlsController) (p : gmap ControlLocation string)
    : ControlsController :=
  mkController (controls s) (activeLearnRequests s) (pendingLearns s) p
    (dbControls s) (nanoidCount s) (effects s).

(** Modelled from the spec: [control.toJSON(true)] is the stored form of
    the control, with the stored form of every instance of its trees. *)
Definition toJSON (c : Control) : SomeControlModel :=
  mkControlModel (typeName (controlType c)) (sortOrder c)
    (map asActionInstance (actions c)) (map asActionInstance (feedbacks c)).

(** Modelled from the spec: [control.destroy()] destroys the control's
    trees, which issues their cleanup notifications. *)
Definition destroy (c : Control) : list Effect :=
  Rpc <$> (concat (map cleanup (actions c)) ++ concat (map cleanup (feedbacks c))).

(** Modelled from the spec: the constructor of a control class.  Without
    stored data the control is empty; with stored data it loads the
    stored trees, and for an import ([isImport]) it loads them as a deep
    clone, with a fresh id for every instance node. *)
Definition newControl (ty : ControlType) (controlId : string)
    (storage : option SomeControlModel) (isImport : bool) (n : nat) : Control * nat :=
  match storage with
  | None => (mkControl controlId ty 0 [] [], n)
  | Some m =>
      let '(acts, n1) := loadStorage isImport (m_actions m) n in
      let '(fbs, n2) := loadStorage isImport (m_feedbacks m) n1 in
      (mkControl controlId ty (m_sortOrder m) acts fbs, n2)
  end.

(** [#createClassForControl]: [controlObj] is the stored control, or the
    name of the type of a new control.  An unknown type gives [null]
    (and a warning, which the callers' traces record). *)
Definition createClassForControl (controlId : string) (category : ControlCategory)
    (controlObj : SomeControlModel + string) (isImport : bool) (n : nat)
    : option Control * nat :=
  let controlType := match controlObj with inl m => m_type m | inr ty => ty end in
  let controlObj2 := match controlObj with inl m => Some m | inr _ => None end in
  let isType (name : string) : bool :=
    bool_decide (m_type <$> controlObj2 = Some name)
    || (bool_decide (controlType = name) && negb (bool_decide (is_Some controlObj2))) in
  let create (ty : ControlType) : option (option Control * nat) :=
    let '(c, n') := newControl ty controlId controlObj2 isImport n in
    Some (Some c, n') in
  let asButton : option (option Control * nat) :=
    if bool_decide (category = CategoryAll) || bool_decide (category = CategoryButton) then
      if isType "button" then create button
      else if isType "pagenum" then create pagenum
      else if isType "pageup" then create pageup
      else if isType "pagedown" then create pagedown
      else None
    else None in
  let asTrigger : option (option Control * nat) :=
    if bool_decide (category = CategoryAll) || bool_decide (category = CategoryTrigger) then
      if isType "trigger" then create trigger else None
    else None in
  match asButton with
  | Some r => r
  | None =>
      match asTrigger with
      | Some r => r
      | None => (None, n)
      end
  end.

(** [deleteControl] *)
Definition deleteControl (controlId : string) (s : ControlsController)
    : ControlsController :=
  let s1 :=
    match getControl s controlId with
    | Some control =>
        mkController (JsMap.delete (controls s) controlId) (activeLearnRequests s)
          (pendingLearns s) (pages s) (delete controlId (dbControls s))
          (nanoidCount s) (effects s ++ destroy control)
    | None => s
    end in
  match getLocationOfControlId (pages s1) controlId with
  | Some location =>
      withEffects (withPages s1 (setControlIdAt (pages s1) location None))
        [UpdateButtonState location; InvalidateButton location]
  | None => s1
  end.

(** The comparison of two locations that opens the copy, move and swap
    handlers. *)
Definition sameLocation (a b : ControlLocation) : bool :=
  bool_decide (pageNumber a = pageNumber b)
  && bool_decide (column a = column b)
  && bool_decide (row a = row b).

(** Deletes the control bound at a location, if there is one. *)
Definition deleteControlAt (location : ControlLocation) (s : ControlsController)
    : ControlsController :=
  match truthyId (getControlIdAt (pages s) location) with
  | Some toControlId => deleteControl toControlId s
  | None => s
  end.

(** The [controls:copy] handler. *)
Definition controls_copy (fromLocation toLocation : ControlLocation)
    (s : ControlsController) : bool * ControlsController :=
  if sameLocation fromLocation toLocation then (false, s)
  else if negb (isPageValid (pageNumber toLocation)) then (false, s)
  else
    match truthyId (getControlIdAt (pages s) fromLocation) with
    | None => (false, s)
    | Some fromControlId =>
        match getControl s fromControlId with
        | None => (false, s)
        | Some fromControl =>
            let controlJson := toJSON fromControl in
            let s1 := deleteControlAt toLocation s in
            let newControlId := CreateBankControlId (nanoid (nanoidCount s1)) in
            match createClassForControl newControlId CategoryButton (inl controlJson)
                    true (S (nanoidCount s1)) with
            | (Some newControl, n') =>
                (true,
                 mkController (JsMap.set (controls s1) newControlId newControl)
                   (activeLearnRequests s1) (pendingLearns s1)
                   (setControlIdAt (pages s1) toLocation (Some newControlId))
                   (dbControls s1) n'
                   (effects s1 ++ [TriggerRedraw newControlId]))
            | (None, n') =>
                (false,
                 mkController (controls s1) (activeLearnRequests s1) (pendingLearns s1)
                   (pages s1) (dbControls s1) n'
                   (effects s1 ++ [LogWarn "Cannot create control of unknown type"]))
            end
        end
    end.

(** The [controls:move] handler. *)
Definition controls_move (fromLocation toLocation : ControlLocation)
    (s : ControlsController) : bool * ControlsController :=
  if sameLocation fromLocation toLocation then (false, s)
  else if negb (isPageValid (pageNumber toLocation)) then (false, s)
  else
    match truthyId (getControlIdAt (pages s) fromLocation) with
    | None => (false, s)
    | Some fromControlId =>
        let s1 := deleteControlAt toLocation s in
        let p1 := setControlIdAt (pages s1) fromLocation None in
        let p2 := setControlIdAt p1 toLocation (Some fromControlId) in
        let s2 := withPages s1 p2 in
        let s3 :=
          match getControl s2 fromControlId with
          | Some control => withEffects s2 [TriggerLocationHasChanged fromControlId]
          | None => s2
          end in
        (false, withEffects s3 [InvalidateButton fromLocation; InvalidateButton toLocation])
    end.

(** The [controls:swap] handler. *)
Definition controls_swap (fromLocation toLocation : ControlLocation)
    (s : ControlsController) : bool * ControlsController :=
  if sameLocation fromLocation toLocation then (false, s)
  else if negb (isPageValid (pageNumber toLocation))
          || negb (isPageValid (pageNumber fromLocation)) then (false, s)
  else
    let fromControlId := getControlIdAt (pages s) fromLocation in
    let toControlId := getControlIdAt (pages s) toLocation in
    let p1 := setControlIdAt (pages s) toLocation None in
    let p2 := setControlIdAt p1 fromLocation toControlId in
    let p3 := setControlIdAt p2 toLocation fromControlId in
    let s1 := withPages s p3 in
    let notify (o : option string) (s : ControlsController) :=
      match truthyId o with
      | Some cid =>
          match getControl s cid with
          | Some control => withEffects s [TriggerLocationHasChanged cid]
          | None => s
          end
      | None => s
      end in
    let s2 := notify toControlId (notify fromControlId s1) in
    (true, withEffects s2 [InvalidateButton fromLocation; InvalidateButton toLocation]).

(** [createButtonControl] *)
Definition createButtonControl (location : ControlLocation) (newType : string)
    (s : ControlsController) : option string * ControlsController :=
  if negb (isPageValid (pageNumber location)) then (None, s)
  else
    let controlId := CreateBankControlId (nanoid (nanoidCount s)) in
    match createClassForControl controlId CategoryButton (inr newType) false
            (S (nanoidCount s)) with
    | (None, n') =>
        (None,
         mkController (controls s) (activeLearnRequests s) (pendingLearns s) (pages s)
           (dbControls s) n'
           (effects s ++ [LogWarn "Cannot create control of unknown type"]))
    | (Some newControl, n') =>
        (Some controlId,
         mkController (JsMap.set (controls s) controlId newControl)
           (activeLearnRequests s) (pendingLearns s)
           (setControlIdAt (pages s) location (Some controlId))
           (dbControls s) n'
           (effects s ++ [UpdateButtonState location; InvalidateButton location]))
    end.

(** The message of a capability error. *)
Definition doesNotSupport (controlId capability : string) : string :=
  ("Control " ++ quote ++ controlId ++ quote ++ " does not support " ++ capability)%string.

(** [#setIsLearning] *)
Definition setIsLearning (id : string) (isActive : bool) (s : ControlsController)
    : ControlsController :=
  if isActive then
    mkController (controls s) ({[id]} ∪ activeLearnRequests s) (pendingLearns s)
      (pages s) (dbControls s) (nanoidCount s)
      (effects s ++ [EmitToRoom ActiveLearnRoom "learn:add" id])
  else
    mkController (controls s) (activeLearnRequests s ∖ {[id]}) (pendingLearns s)
      (pages s) (dbControls s) (nanoidCount s)
      (effects s ++ [EmitToRoom ActiveLearnRoom "learn:remove" id]).

Definition withPending (s : ControlsController) (p : list string) : ControlsController :=
  mkController (controls s) (activeLearnRequests s) p (pages s) (dbControls s)
    (nanoidCount s) (effects s).

(** The [controls:action:learn] handler, up to the point where it
    returns.  [call] says how the call of [control.actionLearn] ends:
    with a promise, whose settlement is [learnSettled], or by throwing. *)
Definition controls_action_learn (controlId stepId setId id : string)
    (call : LearnCall) (s : ControlsController) : Result bool * ControlsController :=
  match getControl s controlId with
  | None => (Ok false, s)
  | Some control =>
      if supportsActions control then
        if decide (id ∈ activeLearnRequests s) then (Throw "Learn is already running", s)
        else
          let s1 := setIsLearning id true s in
          let s2 := withEffects s1 [ActionLearn controlId stepId setId id] in
          match call with
          | ReturnsPromise => (Ok true, withPending s2 (pendingLearns s2 ++ [id]))
          | ThrowsSync e => (Throw e, setIsLearning id false s2)
          end
      else (Throw (doesNotSupport controlId "actions"), s)
  end.

(** The [controls:feedback:learn] handler. *)
Definition controls_feedback_learn (controlId id : string)
    (call : LearnCall) (s : ControlsController) : Result bool * ControlsController :=
  match getControl s controlId with
  | None => (Ok false, s)
  | Some control =>
      if supportsFeedbacks control then
        if decide (id ∈ activeLearnRequests s) then (Throw "Learn is already running", s)
        else
          let s1 := setIsLearning id true s in
          let s2 := withEffects s1 [FeedbackLearn controlId id] in
          match call with
          | ReturnsPromise => (Ok true, withPending s2 (pendingLearns s2 ++ [id]))
          | ThrowsSync e => (Throw e, setIsLearning id false s2)
          end
      else (Throw (doesNotSupport controlId "feedbacks"), s)
  end.

Fixpoint removeFirst (id : string) (l : list string) : list string :=
  match l with
  | [] => []
  | x :: l' => if decide (x = id) then l' else x :: removeFirst id l'
  end.

(** The continuation [.catch(log).then(() => #setIsLearning(id, false))]
    of a learn promise: it runs when the promise of a pending learn
    settles, whatever the outcome; a promise settles once. *)
Definition learnSettled (id : string) (outcome : LearnOutcome)
    (s : ControlsController) : option ControlsController :=
  if decide (id ∈ pendingLearns s) then
    let s1 := withPending s (removeFirst id (pendingLearns s)) in
    let s2 :=
      match outcome with
      | Rejected e => withEffects s1 [LogError ("Learn failed: " ++ e)%string]
      | Fulfilled _ => s1
      end in
    Some (setIsLearning id false s2)
  else None.

(** [#validateTriggerControlId] *)
Definition validateTriggerControlId (controlId : string) : bool :=
  match ParseControlId controlId with
  | Some triggerId => true
  | _ => false
  end.

(** Modelled from the spec: [control.optionsSetField('sortOrder', value,
    true)] stores the value in the control's options. *)
Definition optionsSetField_sortOrder (value : Z) (c : Control) : Control :=
  mkControl (controlId c) (controlType c) value (actions c) (feedbacks c).

(** The first loop of [triggers:set-order]: the ids provided, with their
    indices. *)
Fixpoint setOrderOfListed (triggerIds : list string) (index : Z)
    (s : ControlsController) : ControlsController :=
  match triggerIds with
  | [] => s
  | id :: rest =>
      let s' :=
        match getControl s id with
        | Some control =>
            if supportsOptions control
            then withControls s
                   (JsMap.set (controls s) id (optionsSetField_sortOrder index control))
            else s
        | None => s
        end in
      setOrderOfListed rest (index + 1) s'
  end.

(** The second loop: the controls that were not specified.  An entry of
    [triggerControls] refers to the control object stored under its
    key, which the loop updates in place. *)
Fixpoint setOrderOfOthers (updatedTriggerIds : list string)
    (triggerControls : list (string * Control)) (nextIndex : Z)
    (s : ControlsController) : ControlsController :=
  match triggerControls with
  | [] => s
  | (key, control) :: rest =>
      if negb (bool_decide (controlId control ∈ updatedTriggerIds))
         && supportsOptions control
      then setOrderOfOthers updatedTriggerIds rest (nextIndex + 1)
             (withControls s
                (JsMap.set (controls s) key (optionsSetField_sortOrder nextIndex control)))
      else setOrderOfOthers updatedTriggerIds rest nextIndex s
  end.

(** The [triggers:set-order] handler, for an array of ids. *)
Definition triggers_set_order (triggerIds : list string) (s : ControlsController)
    : bool * ControlsController :=
  let triggerIds := filter (λ id, validateTriggerControlId id = true) triggerIds in
  let s1 := setOrderOfListed triggerIds 0 s in
  let triggerControls := sort (λ e : string * Control, sortOrder e.2) (getAllTriggers s1) in
  (true, setOrderOfOthers triggerIds triggerControls (Z.of_nat (length triggerIds)) s1).
End ControlsController.

(** ** More of [FragmentActionInstance] *)

(** Loops over an array, as the classes write them. *)
Section Loops.
Context {A B C : Type}.

(** [for (x of l) { const r = f(x); if (r) return r }; return undefined] *)
Fixpoint firstResult (f : A → option B) (l : list A) : option B :=
  match l with
  | [] => None
  | x :: l' =>
      match f x with
      | Some r => Some r
      | None => firstResult f l'
      end
  end.

(** [for (x of l) { ps.push(...f(x)) }], where [f] also changes [x] in
    place and makes calls of its own. *)
Fixpoint eachCollect (f : A → A * list B * list C) (l : list A)
    : list A * list B * list C :=
  match l with
  | [] => ([], [], [])
  | x :: l' =>
      let '(x', ps, bg) := f x in
      let '(xs, psRest, bgRest) := eachCollect f l' in
      (x' :: xs, ps ++ psRest, bg ++ bgRest)
  end.

(** [for (x of l) { if (f(x)) changed = true }], where [f] also changes
    [x] in place. *)
Fixpoint eachChanged (f : A → A * bool) (l : list A) : list A * bool :=
  match l with
  | [] => ([], false)
  | x :: l' =>
      let '(x', changed) := f x in
      let '(xs, changedRest) := eachChanged f l' in
      (x' :: xs, changed || changedRest)
  end.
(** [l = l.filter(keep)] with [changed = true] when an entry goes, then
    [for (x of l) { if (f(x)) changed = true }]. *)
Fixpoint pruneEach (keep : A → bool) (f : A → A * bool) (l : list A) : list A * bool :=
  match l with
  | [] => ([], false)
  | x :: l' =>
      let '(xs, changedRest) := pruneEach keep f l' in
      if keep x then
        let '(x', changed) := f x in (x' :: xs, changed || changedRest)
      else (xs, true)
  end.
End Loops.


(** [InternalController.actionUpgrade]: the new kind and options of an
    internal action that needs an upgrade. *)
Class InternalController := {
  actionUpgrade : ActionInstance → string → option (string * gmap string JsonValue)
}.

Section FragmentActionInstanceMore.
Context `{InstanceDefinitions, ModuleHost, IdSource, ActionListPolicy, InternalController}.

(** [replaceProps]: the new kind and options are stored, [upgradeIndex] is
    deleted, and the module is informed unless asked not to. *)
Definition replaceProps (controlId : string) (newAction : string)
    (newOptions : gmap string JsonValue) (skipNotifyModule : bool)
    (t : FragmentActionInstance) : FragmentActionInstance * list RpcCall :=
  let d := data t in
  let t' := withData t (mkActionData (id d) (instance d) newAction newOptions
                          (disabled d) (headline d) None) in
  (t', if skipNotifyModule then [] else subscribe controlId false None t').

(** The part of [postProcessImport] that concerns the node itself: the
    node after it, the calls whose promises are collected in [ps], and the
    calls made without keeping their promise. *)
Definition postProcessImportSelf (controlId : string) (t : FragmentActionInstance)
    : FragmentActionInstance * list RpcCall * list RpcCall :=
  if decide (instance (data t) = "internal") then
    match actionUpgrade (asActionInstance t) controlId with
    | Some newProps =>
        let '(t', calls) := replaceProps controlId newProps.1 newProps.2 false t in
        (t', [], calls)
    | None => (t, [], [])
    end
  else
    if getChild (connectionId t)
    then (t, [ActionUpdate (connectionId t) (asActionInstance t) controlId], [])
    else (t, [], []).

(** [postProcessImport].  [FragmentActionList.postProcessImport] is
    Modelled from the spec: it post-processes every instance of the list,
    in order, and returns their promises. *)
Fixpoint postProcessImport (controlId : string) (t : FragmentActionInstance) {struct t}
    : FragmentActionInstance * list RpcCall * list RpcCall :=
  match t with
  | mkFragment _ ch =>
      let '(self, ps, background) := postProcessImportSelf controlId t in
      let '(ch', psBelow, backgroundBelow) :=
        eachCollect (λ g : string * list FragmentActionInstance,
                       let '(l', ps1, bg1) := eachCollect (postProcessImport controlId) g.2 in
                       ((g.1, l'), ps1, bg1)) ch in
      (mkFragment (data self) ch', ps ++ psBelow, background ++ backgroundBelow)
  end.

(** [findChildById].  [FragmentActionList.findById] is Modelled from the
    spec: a pre-order search, each instance of the list before the
    instances below it. *)
Fixpoint findChildById (i : string) (t : FragmentActionInstance) {struct t}
    : option FragmentActionInstance :=
  match t with
  | mkFragment _ ch =>
      firstResult (λ g : string * list FragmentActionInstance,
                     firstResult (λ c, if decide (id (data c) = i) then Some c
                                       else findChildById i c) g.2) ch
  end.

(** [verifyChildConnectionIds]: whether anything below the node was
    pruned, and the node after it.  [FragmentActionList.verifyConnectionIds]
    is Modelled from the spec: it prunes the instances of the list whose
    connection is not known, then verifies what is below the others. *)
Fixpoint verifyChildConnectionIds (knownConnectionIds : gset string)
    (t : FragmentActionInstance) {struct t} : FragmentActionInstance * bool :=
  match t with
  | mkFragment d ch =>
      let '(ch', changed) :=
        eachChanged (λ g : string * list FragmentActionInstance,
                       let '(l', changed1) :=
                         pruneEach (λ c, bool_decide (connectionId c ∈ knownConnectionIds))
                           (verifyChildConnectionIds knownConnectionIds) g.2 in
                       ((g.1, l'), changed1)) ch in
      (mkFragment d ch', changed)
  end.
End FragmentActionInstanceMore.

(** ** More of [ControlsController] *)

(** [NewFeedbackValue] *)
Record NewFeedbackValue := mkFeedbackValue {
  fv_id : string;
  fv_controlId : string;
  fv_value : JsonValue
}.

Section ControlsControllerMore.
Context `{InstanceDefinitions, ModuleHost, IdSource, ActionListPolicy,
          ControlCapabilities, ControlIdScheme, PageValidity}.

(** [#validateBankControlId] *)
Definition validateBankControlId (controlId : string) : bool :=
  match ParseControlId controlId with
  | Some bank => true
  | _ => false
  end.

(** Modelled from the spec: [control.commitChange()] stores the stored
    form of the control in the persisted table, under the control's id. *)
Definition commitChange (c : Control) (db : gmap string SomeControlModel)
    : gmap string SomeControlModel :=
  <[controlId c := toJSON c]> db.

(** The [controls:reset] handler. *)
Definition controls_reset (location : ControlLocation) (type : option string)
    (s : ControlsController) : ControlsController :=
  let s1 :=
    match truthyId (getControlIdAt (pages s) location) with
    | Some controlId => deleteControl controlId s
    | None => s
    end in
  match truthyId type with
  | Some ty => (createButtonControl location ty s1).2
  | None => s1
  end.

(** [importControl] *)
Definition importControl (location : ControlLocation) (definition : SomeControlModel)
    (forceControlId : option string) (s : ControlsController)
    : bool * ControlsController :=
  let rejected :=
    match truthyId forceControlId with
    | Some forced => negb (validateBankControlId forced)
    | None => false
    end in
  if rejected then (false, s)
  else
    let s1 :=
      match truthyId (getControlIdAt (pages s) location) with
      | Some oldControlId => deleteControl oldControlId s
      | None => s
      end in
    let '(newControlId, n1) :=
      match truthyId forceControlId with
      | Some forced => (forced, nanoidCount s1)
      | None => (CreateBankControlId (nanoid (nanoidCount s1)), S (nanoidCount s1))
      end in
    match createClassForControl newControlId CategoryButton (inl definition) true n1 with
    | (Some newControl, n') =>
        (true,
         mkController (JsMap.set (controls s1) newControlId newControl)
           (activeLearnRequests s1) (pendingLearns s1)
           (setControlIdAt (pages s1) location (Some newControlId))
           (commitChange newControl (dbControls s1)) n'
           (effects s1 ++ [TriggerRedraw newControlId]))
    | (None, n') =>
        (false,
         mkController (controls s1) (activeLearnRequests s1) (pendingLearns s1)
           (pages s1) (dbControls s1) n'
           (effects s1 ++ [LogWarn "Cannot create control of unknown type"]))
    end.

(** [importTrigger] *)
Definition importTrigger (controlId : string) (definition : SomeControlModel)
    (s : ControlsController) : Result bool * ControlsController :=
  if negb (validateTriggerControlId controlId) then (Ok false, s)
  else if bool_decide (is_Some (JsMap.get (controls s) controlId))
  then (Throw ("Trigger " ++ controlId ++ " already exists")%string, s)
  else
    match createClassForControl controlId CategoryTrigger (inl definition) true
            (nanoidCount s) with
    | (Some newControl, n') =>
        (Ok true,
         mkController (JsMap.set (controls s) controlId newControl)
           (activeLearnRequests s) (pendingLearns s) (pages s)
           (commitChange newControl (dbControls s)) n' (effects s))
    | (None, n') =>
        (Ok false,
         mkController (controls s) (activeLearnRequests s) (pendingLearns s) (pages s)
           (dbControls s) n'
           (effects s ++ [LogWarn "Cannot create control of unknown type"]))
    end.

(** [init], on the entries of the persisted [controls] table. *)
Fixpoint init (config : list (string * option SomeControlModel))
    (s : ControlsController) : ControlsController :=
  match config with
  | [] => s
  | (controlId, controlObj) :: rest =>
      let s' :=
        match controlObj with
        | Some obj =>
            if decide (m_type obj = EmptyString) then s
            else
              match createClassForControl controlId CategoryAll (inl obj) false
                      (nanoidCount s) with
              | (Some inst, n') =>
                  mkController (JsMap.set (controls s) controlId inst)
                    (activeLearnRequests s) (pendingLearns s) (pages s)
                    (dbControls s) n' (effects s)
              | (None, n') =>
                  mkController (controls s) (activeLearnRequests s) (pendingLearns s)
                    (pages s) (dbControls s) n'
                    (effects s ++ [LogWarn "Cannot create control of unknown type"])
              end
        | None => s
        end in
      init rest s'
  end.

(** The [triggers:create] handler. *)
Definition triggers_create (s : ControlsController) : string * ControlsController :=
  let controlId := CreateTriggerControlId (nanoid (nanoidCount s)) in
  let '(newControl, n') := newControl trigger controlId None false (S (nanoidCount s)) in
  let controls1 := JsMap.set (controls s) controlId newControl in
  let allTriggers := getAllTriggers (withControls s controls1) in
  let maxRank := foldr Z.max 0 (map (λ e : string * Control, sortOrder e.2) allTriggers) in
  let newControl' := optionsSetField_sortOrder maxRank newControl in
  (controlId,
   mkController (JsMap.set controls1 controlId newControl')
     (activeLearnRequests s) (pendingLearns s) (pages s)
     (commitChange newControl' (dbControls s)) n' (effects s)).

(** The [triggers:delete] handler. *)
Definition triggers_delete (controlId : string) (s : ControlsController)
    : bool * ControlsController :=
  if negb (validateTriggerControlId controlId) then (false, s)
  else
    match getControl s controlId with
    | Some control =>
        (true,
         mkController (JsMap.delete (controls s) controlId) (activeLearnRequests s)
           (pendingLearns s) (pages s) (delete controlId (dbControls s))
           (nanoidCount s) (effects s ++ destroy control))
    | None => (false, s)
    end.

(** The [triggers:clone] handler; the answer is the new id, or false. *)
Definition triggers_clone (controlId : string) (s : ControlsController)
    : option string * ControlsController :=
  if negb (validateTriggerControlId controlId) then (None, s)
  else
    let newControlId := CreateTriggerControlId (nanoid (nanoidCount s)) in
    let n1 := S (nanoidCount s) in
    match getControl s controlId with
    | Some fromControl =>
        match createClassForControl newControlId CategoryTrigger
                (inl (toJSON fromControl)) true n1 with
        | (Some newControl, n') =>
            (Some newControlId,
             mkController (JsMap.set (controls s) newControlId newControl)
               (activeLearnRequests s) (pendingLearns s) (pages s)
               (dbControls s) n' (effects s))
        | (None, n') =>
            (None,
             mkController (controls s) (activeLearnRequests s) (pendingLearns s)
               (pages s) (dbControls s) n'
               (effects s ++ [LogWarn "Cannot create control of unknown type"]))
        end
    | None =>
        (None,
         mkController (controls s) (activeLearnRequests s) (pendingLearns s)
           (pages s) (dbControls s) n1 (effects s))
    end.

(** The property names that a plain object inherits from
    [Object.prototype]: reading one of them on an object that has no own
    property of the name gives a function (or, for [__proto__], the
    prototype), which is truthy. *)
Definition inheritedNames : list string :=
  ["__proto__"; "constructor"; "hasOwnProperty"; "isPrototypeOf";
   "propertyIsEnumerable"; "toLocaleString"; "toString"; "valueOf";
   "__defineGetter__"; "__defineSetter__"; "__lookupGetter__"; "__lookupSetter__"].

(** The number written by a string of decimal digits. *)
Fixpoint digitsValue (s : string) (acc : N) : option N :=
  match s with
  | EmptyString => Some acc
  | String c rest =>
      let code := Ascii.N_of_ascii c in
      if ((48 <=? code) && (code <=? 57))%N
      then digitsValue rest (acc * 10 + (code - 48))%N
      else None
  end.

(** Whether a property key is an array index: the canonical decimal
    writing (no leading zero) of an integer below [2^32 - 1]. *)
Definition arrayIndex (key : string) : option N :=
  match key with
  | EmptyString => None
  | String c rest =>
      if (Ascii.N_of_ascii c =? 48)%N && negb (bool_decide (rest = EmptyString))
      then None
      else
        match digitsValue key 0 with
        | Some n => if (n <? 4294967295)%N then Some n else None
        | None => None
        end
  end.

(** [Object.entries] of a plain object whose own properties are the
    list, in the order in which they were created: the array indices
    first, in ascending order, then the other keys in creation order. *)
Definition objectEntries {V : Type} (object : list (string * V)) : list (string * V) :=
  sort (λ e : string * V, Z.of_N (default 0%N (arrayIndex e.1)))
    (filter (λ e : string * V, is_Some (arrayIndex e.1)) object)
  ++ filter (λ e : string * V, arrayIndex e.1 = None) object.

(** The body of the first loop of [updateFeedbackValues], on the own
    properties of [values] in creation order, each holding the own
    properties of the object of one control id.  For a control id that is
    an inherited name the test [!values[controlId]] reads the inherited
    value and the assignment writes to a built-in object; like an object
    left without prototype this is not represented, and the result is
    [None].  [Object.prototype] is taken to be as the language defines
    it. *)
Definition collectFeedbackValue (values : list (string * gmap string JsonValue))
    (item : NewFeedbackValue) : option (list (string * gmap string JsonValue)) :=
  if bool_decide (fv_controlId item ∈ inheritedNames) then None
  else
    let values1 :=
      match JsMap.get values (fv_controlId item) with
      | Some _ => values
      | None => JsMap.set values (fv_controlId item) ∅
      end in
    let forControl := default ∅ (JsMap.get values1 (fv_controlId item)) in
    match assignProperty forControl (fv_id item) (fv_value item) with
    | Some forControl' => Some (JsMap.set values1 (fv_controlId item) forControl')
    | None => None
    end.

(** The first loop of [updateFeedbackValues]. *)
Fixpoint groupFeedbackValues (result : list NewFeedbackValue)
    (values : list (string * gmap string JsonValue))
    : option (list (string * gmap string JsonValue)) :=
  match result with
  | [] => Some values
  | item :: rest =>
      match collectFeedbackValue values item with
      | Some values' => groupFeedbackValues rest values'
      | None => None
      end
  end.

(** [updateFeedbackValues]: the calls
    [control.feedbacks.updateFeedbackValues(connectionId, newValues)] that
    it makes, in order, each with the id of the control it is made on. *)
Definition updateFeedbackValues (connectionId : string) (result : list NewFeedbackValue)
    (s : ControlsController)
    : option (list (string * (string * gmap string JsonValue))) :=
  match result with
  | [] => Some []
  | _ =>
      match groupFeedbackValues result [] with
      | Some values =>
          Some (omap (λ e : string * gmap string JsonValue,
                        match getControl s e.1 with
                        | Some control =>
                            if supportsFeedbacks control
                            then Some (e.1, (connectionId, e.2))
                            else None
                        | None => None
                        end)
                  (objectEntries values))
      | None => None
      end
  end.
End ControlsControllerMore.

(** ** Notions used in the statements *)

Section TreeNotions.
Context `{InstanceDefinitions, ModuleHost, IdSource, ActionListPolicy}.

(** The definition that owns the node declares the child group. *)
Definition declaresGroup (d : ActionData) (groupId : string) : Prop :=
  ∃ definition,
    getActionDefinition (instance d) (action d) = Some definition
    ∧ groupId ∈ supportsChildActionGroups definition.

(** The data-model invariant of an instance tree, at every depth: the
    keys of the children map are distinct (it is a [Map]) and declared
    by the owning definition, and only an internal action has any. *)
#[local] Unset Elimination Schemes.
Inductive wellFormed : FragmentActionInstance → Prop :=
  | wellFormed_node d ch :
      NoDup ch.*1 →
      (instance d ≠ "internal" → ch = []) →
      (∀ groupId, groupId ∈ ch.*1 → declaresGroup d groupId) →
      Forall (λ g, Forall wellFormed g.2) ch →
      wellFormed (mkFragment d ch).
#[local] Set Elimination Schemes.

(** The instances an instance can become: built by the constructor, then
    changed by [addChild], [pushChild] and [canAcceptChild], on the
    instance itself or on an instance below it (whose new state takes
    its place in the list that owns it). *)
Inductive reachable : FragmentActionInstance → Prop :=
  | reachable_construct isCloned d n :
      reachable (construct isCloned d n).1
  | reachable_addChild t groupId action n t' newAction :
      reachable t →
      addChild groupId action n t = Ok (t', newAction) →
      reachable t'
  | reachable_pushChild t action groupId index t' :
      reachable t → reachable action →
      pushChild action groupId index t = Ok t' →
      reachable t'
  | reachable_canAcceptChild t action groupId t' answer :
      reachable t →
      canAcceptChild groupId action t = Ok (t', answer) →
      reachable t'
  | reachable_below t groupId actions i child' :
      reachable t →
      JsMap.get (children t) groupId = Some actions →
      (i < length actions)%nat →
      reachable child' →
      reachable (setChildGroup t groupId (<[i := child']> actions)).

(** The ids of a tree, in pre-order, and its number of nodes. *)
Fixpoint allIds (t : FragmentActionInstance) : list string :=
  match t with
  | mkFragment d ch => id d :: concat (map (λ g, concat (map allIds g.2)) ch)
  end.

Fixpoint size (t : FragmentActionInstance) : nat :=
  match t with
  | mkFragment _ ch => S (list_sum (map (λ g, list_sum (map size g.2)) ch))
  end.

(** A tree with every id blanked: what is left is its shape and, node by
    node, the connection, the kind, the option values and the flags. *)
Fixpoint withoutIds (t : FragmentActionInstance) : FragmentActionInstance :=
  match t with
  | mkFragment d ch =>
      mkFragment
        (mkActionData EmptyString (instance d) (action d) (options d) (disabled d)
           (headline d) (upgradeIndex d))
        (map (λ g, (g.1, map withoutIds g.2)) ch)
  end.

(** The ids below a node, and sizes, ids and shapes of child groups. *)
Definition belowIds (t : FragmentActionInstance) : list string :=
  concat (map (λ g, concat (map allIds g.2)) (children t)).

Definition groupsSize (ch : list (string * FragmentActionList)) : nat :=
  list_sum (map (λ g, list_sum (map size g.2)) ch).

Definition groupsIds (ch : list (string * FragmentActionList)) : list string :=
  concat (map (λ g, concat (map allIds g.2)) ch).

Definition groupsWithoutIds (ch : list (string * FragmentActionList))
    : list (string * FragmentActionList) :=
  map (λ g, (g.1, map withoutIds g.2)) ch.

(** What the clone of a live tree is: the same tree but for the ids,
    which are the next draws of [nanoid], in pre-order. *)
Definition clonedAt (t : FragmentActionInstance) (n : nat) : Prop :=
  let r := construct true (asActionInstance t) n in
  withoutIds r.1 = withoutIds t
  ∧ allIds r.1 = nanoid <$> seq n (size t)
  ∧ r.2 = (n + size t)%nat.

Definition isUpdate (call : RpcCall) : bool :=
  match call with ActionUpdate _ _ _ => true | _ => false end.

Definition isDelete (call : RpcCall) : bool :=
  match call with ActionDelete _ _ => true | _ => false end.

(** The connection a call is sent to. *)
Definition target (call : RpcCall) : string :=
  match call with
  | ActionUpdate c _ _ | ActionDelete c _ | ActionLearnValues c _ _ => c
  end.

(** The create/update calls for the node with the given id that go to
    the given connection. *)
Definition updatesFor (connection nodeId : string) (trace : list RpcCall) : list RpcCall :=
  List.filter (λ call,
                 match call with
                 | ActionUpdate c inst _ =>
                     bool_decide (c = connection) && bool_decide (ai_id inst = nodeId)
                 | _ => false
                 end) trace.
End TreeNotions.

Section ControllerNotions.
Context `{InstanceDefinitions, ModuleHost, IdSource, ActionListPolicy,
          ControlCapabilities, ControlIdScheme, PageValidity}.

(** What a learn handler does with the request for [id], once the control
    is resolved and has the capability.  [invoked] is the call of the
    control's learn operation, inside which the external learn RPC is
    issued.  If the id is in the active set the handler throws and the
    state stays as it is.  Otherwise the id is added (and broadcast), the
    learn operation is invoked once, and the id is removed (and
    broadcast) once: when the promise settles, whatever the outcome (and
    the continuation cannot run a second time), or at once if the
    invocation throws. *)
Definition learnStarts
    (handler : LearnCall → ControlsController → Result bool * ControlsController)
    (invoked : Effect) (id : string) (s : ControlsController) : Prop :=
  (id ∈ activeLearnRequests s →
     ∀ call, handler call s = (Throw "Learn is already running", s))
  ∧ (id ∉ activeLearnRequests s →
     let started := (handler ReturnsPromise s).2 in
     (handler ReturnsPromise s).1 = Ok true
     ∧ activeLearnRequests started = {[id]} ∪ activeLearnRequests s
     ∧ pendingLearns started = pendingLearns s ++ [id]
     ∧ effects started
       = effects s ++ [EmitToRoom ActiveLearnRoom "learn:add" id; invoked]
     ∧ (∀ outcome,
          ∃ settled,
            learnSettled id outcome started = Some settled
            ∧ activeLearnRequests settled = activeLearnRequests s
            ∧ pendingLearns settled = removeFirst id (pendingLearns s ++ [id])
            ∧ effects settled
              = effects started
                ++ match outcome with
                   | Rejected e => [LogError ("Learn failed: " ++ e)%string]
                   | Fulfilled _ => []
                   end
                ++ [EmitToRoom ActiveLearnRoom "learn:remove" id]
            ∧ (id ∉ pendingLearns s →
               ∀ again, learnSettled id again settled = None))
     ∧ (∀ e,
          let thrown := handler (ThrowsSync e) s in
          thrown.1 = Throw e
          ∧ activeLearnRequests thrown.2 = activeLearnRequests s
          ∧ pendingLearns thrown.2 = pendingLearns s
          ∧ effects thrown.2
            = effects s ++ [EmitToRoom ActiveLearnRoom "learn:add" id; invoked;
                            EmitToRoom ActiveLearnRoom "learn:remove" id])).

(** The registry is a [Map] from each control's id to the control. *)
Definition registryOk (s : ControlsController) : Prop :=
  NoDup (controls s).*1 ∧ Forall (λ e, controlId e.2 = e.1) (controls s).

(** The triggers that a reorder request does not list. *)
Definition unspecifiedTriggers (triggerIds : list string) (s : ControlsController)
    : list (string * Control) :=
  filter (λ e : string * Control,
            controlType e.2 = trigger ∧ supportsOptions e.2 = true ∧ e.1 ∉ triggerIds)
    (controls s).

(** The [sortOrder] stored for a control id. *)
Definition sortOrderOf (s : ControlsController) (controlId : string) : option Z :=
  sortOrder <$> JsMap.get (controls s) controlId.

(** One entry of the registry before and after the first loop. *)
Definition renumbered (triggerIds : list string) (e e1 : string * Control) : Prop :=
  e1.1 = e.1
  ∧ (e1 = e ∨ (e.1 ∈ triggerIds ∧ ∃ v, e1.2 = optionsSetField_sortOrder v e.2)).

(** The test of the second loop. *)
Definition isOther (triggerIds : list string) (e : string * Control) : Prop :=
  negb (bool_decide (controlId e.2 ∈ triggerIds)) && supportsOptions e.2 = true.

#[global] Instance isOther_dec triggerIds e : Decision (isOther triggerIds e).
Proof. unfold isOther. apply _. Defined.

(** The ids of all instances of a control's trees. *)
Definition treeIds (c : Control) : list string :=
  concat (map allIds (actions c)) ++ concat (map allIds (feedbacks c)).
End ControllerNotions.

(** ** A concrete environment, for examples *)

Module Example.
(** [logic_if] takes two child groups, [wait] none; an action of an
    external connection has a definition without child groups. *)
Definition definitions : InstanceDefinitions := {|
  getActionDefinition c kind :=
    if decide (c = "internal") then
      if decide (kind = "logic_if") then Some (mkActionDefinition ["condition"; "actions"])
      else if decide (kind = "wait") then Some (mkActionDefinition [])
      else None
    else Some (mkActionDefinition [])
|}.

Definition host : ModuleHost := {|
  getChild c := bool_decide (c = "conn1") || bool_decide (c = "conn2")
|}.

Definition ids : IdSource := {|
  nanoid n := ("n" ++ pretty n)%string
|}.

Definition policy : ActionListPolicy := {|
  canAcceptAction _ _ := true
|}.

Definition capabilities : ControlCapabilities := {|
  supportsActionsOf ty := bool_decide (ty = button) || bool_decide (ty = trigger);
  supportsFeedbacksOf ty := bool_decide (ty = button) || bool_decide (ty = trigger);
  supportsOptionsOf ty := bool_decide (ty = button) || bool_decide (ty = trigger)
|}.

Definition idScheme : ControlIdScheme := {|
  CreateBankControlId i := ("bank:" ++ i)%string;
  CreateTriggerControlId i := ("trigger:" ++ i)%string;
  ParseControlId c :=
    if String.prefix "bank:" c then Some bank
    else if String.prefix "trigger:" c then Some triggerId
    else None
|}.

Definition pageValidity : PageValidity := {|
  isPageValid p := bool_decide (1 ≤ p ≤ 99)
|}.

Definition leaf (i connection kind : string) : ActionInstance :=
  mkActionInstance i connection kind ∅ false None None None.

(** An internal conditional with two children in one of its groups. *)
Definition conditional : ActionInstance :=
  mkActionInstance "a1" "internal" "logic_if" {[ "mode" := JStr "all" ]} false None None
    (Some [("actions", Some [leaf "a2" "conn1" "play"; leaf "a3" "internal" "wait"])]).

#[local] Existing Instances definitions host ids policy capabilities idScheme pageValidity.

(** The conditional as a live tree, and the same tree after its
    connection was set to an external one. *)
Definition tree : FragmentActionInstance := (construct false conditional 0).1.

Definition rebound : FragmentActionInstance := (setInstance "bank:src" "conn1" tree).1.

(** An enabled and a disabled action of the connection [conn1]. *)
Definition enabledLeaf : FragmentActionInstance :=
  (construct false (leaf "a8" "conn1" "play") 0).1.

Definition disabledLeaf : FragmentActionInstance :=
  (construct false (mkActionInstance "a9" "conn1" "play" ∅ true None None None) 0).1.

Definition here : ControlLocation := mkLocation 1 0 0.
Definition there : ControlLocation := mkLocation 1 1 0.

Definition source : Control := mkControl "bank:src" button 0 [tree] [].

Definition triggerWith (i : string) (order : Z) : Control :=
  mkControl i trigger order [] [].

(** A button bound at [here] and three triggers. *)
Definition state : ControlsController :=
  mkController
    [("bank:src", source);
     ("trigger:t1", triggerWith "trigger:t1" 0);
     ("trigger:t2", triggerWith "trigger:t2" 1);
     ("trigger:t3", triggerWith "trigger:t3" 2)]
    ∅ [] {[ here := "bank:src" ]} ∅ 0 [].

(** The same state while a learn request for [a2] is in flight. *)
Definition learning : ControlsController :=
  (controls_action_learn "bank:src" "0" "down" "a2" ReturnsPromise state).2.

(** A location bound to an id that the registry does not have. *)
Definition dangling : ControlsController :=
  mkController [] ∅ [] {[ here := "bank:gone" ]} ∅ 0 [].

(** A button whose action is the conditional after its connection was
    set to [conn1] ([controls:action:set-connection]): an action of a
    module connection that still has its two children. *)
Definition reboundSource : Control := mkControl "bank:src" button 0 [rebound] [].

Definition reboundState : ControlsController :=
  mkController [("bank:src", reboundSource)] ∅ [] {[ here := "bank:src" ]} ∅ 0 [].
End Example.

(** ** Further notions *)

Section MoreNotions.
Context `{InstanceDefinitions, ModuleHost, IdSource, ActionListPolicy,
          ControlCapabilities, ControlIdScheme, PageValidity}.

(** The ids are draws of [nanoid] numbered from [lo] to below [hi]. *)
Definition drawnBetween (lo hi : nat) (ids : list string) : Prop :=
  Forall (λ i, ∃ k, (lo ≤ k < hi)%nat ∧ i = nanoid k) ids.

(** Every id in the groups is such a draw. *)
Definition groupsDrawn (lo hi : nat) (ch : list (string * FragmentActionList)) : Prop :=
  Forall (λ g, Forall (λ c, drawnBetween lo hi (allIds c)) g.2) ch.

(** The node and the nodes below it whose connection is running. *)
Definition runningNodes (t : FragmentActionInstance) : list FragmentActionInstance :=
  filter (λ c, getChild (connectionId c) = true) (t :: getAllChildren t).

(** Whether [postProcessImport] informs a module of the node: its
    connection is a module, and is running. *)
Definition notifiedOnImport (c : FragmentActionInstance) : bool :=
  negb (bool_decide (connectionId c = "internal")) && getChild (connectionId c).
End MoreNotions.

Section ImportNotions.
Context `{InternalController}.

(** The data of a node after an import: an internal action for which
    [actionUpgrade] has new properties gets the new kind and options and
    loses its [upgradeIndex]; any other node keeps its data. *)
Definition upgraded (controlId : string) (t : FragmentActionInstance) : ActionData :=
  let d := data t in
  if decide (instance d = "internal") then
    match actionUpgrade (asActionInstance t) controlId with
    | Some newProps =>
        mkActionData (id d) (instance d) newProps.1 newProps.2 (disabled d) (headline d)
          None
    | None => d
    end
  else d.

(** The tree with every node so upgraded, each from its own stored form
    before the import. *)
Fixpoint imported (controlId : string) (t : FragmentActionInstance)
    : FragmentActionInstance :=
  match t with
  | mkFragment _ ch =>
      mkFragment (upgraded controlId t)
        (map (λ g, (g.1, map (imported controlId) g.2)) ch)
  end.
End ImportNotions.

(** What pruning by connection gives for a tree: statements shared by the
    facts about [verifyChildConnectionIds]. *)
Abbreviation allKnown known l :=
  (Forall (λ c : FragmentActionInstance, connectionId c ∈ known) l).

Abbreviation verified known t :=
  (let r := verifyChildConnectionIds known t in
   data r.1 = data t
   ∧ allKnown known (getAllChildren r.1)
   ∧ (r.2 = false ↔ allKnown known (getAllChildren t))
   ∧ (r.2 = false → r.1 = t)
   ∧ allIds r.1 `sublist_of` allIds t).

(** The feedback values that the model of [updateFeedbackValues] does
    not represent: an item whose control id is an inherited name, or
    whose feedback id is [__proto__] with the value [null]; and objects
    of values none of which has an own property [__proto__]. *)
Abbreviation unrepresented item :=
  (fv_controlId item ∈ inheritedNames
   ∨ (fv_id item = "__proto__" ∧ fv_value item = JNull)).

Abbreviation withoutProto values :=
  (Forall (λ e : string * gmap string JsonValue, e.2 !! "__proto__" = None) values).

(** ** Further examples *)

Module MoreExample.
Import Example.
#[local] Existing Instances definitions host ids policy capabilities idScheme pageValidity.

(** The upgrade of the internal [wait] action gives it a [time] option. *)
Definition internal : InternalController := {|
  actionUpgrade a _ :=
    if decide (ai_action a = "wait") then Some ("wait", {[ "time" := JStr "0" ]})
    else None
|}.

(** An internal conditional that has no child group yet. *)
Definition childless : FragmentActionInstance :=
  (construct false (mkActionInstance "b1" "internal" "logic_if" ∅ false None None None) 0).1.

(** The connections that are known once [conn1] is gone. *)
Definition known : gset string := {[ "internal" ]}.

(** A trigger whose actions are the conditional with its two children
    and whose feedbacks are one leaf, alone in the registry. *)
Definition richTrigger : Control :=
  mkControl "trigger:t5" trigger 3 [tree] [enabledLeaf].

Definition triggerState : ControlsController :=
  mkController [("trigger:t5", richTrigger)] ∅ [] ∅ ∅ 0 [].

(** A stored button, and a stored trigger. *)
Definition storedButton : SomeControlModel := toJSON source.

Definition storedTrigger : SomeControlModel := mkControlModel "trigger" 5 [] [].

(** New values for two feedbacks of the button, one of them twice, and
    for a feedback of a control that is not registered. *)
Definition newValues : list NewFeedbackValue :=
  [mkFeedbackValue "f1" "bank:src" (JStr "a");
   mkFeedbackValue "f1" "bank:src" (JStr "b");
   mkFeedbackValue "f2" "bank:gone" (JStr "c")].
End MoreExample.

(** ** Facts about the [Map] model *)

Section JsMapFacts.
Context {V : Type}.
Implicit Types (m : list (string * V)) (k : string) (v : V).

Lemma JsMap_get_None m k : JsMap.get m k = None ↔ k ∉ m.*1.
Proof.
  induction m as [|[k' v'] m IH]; simpl.
  - split; [intros _; apply not_elem_of_nil | done].
  - rewrite not_elem_of_cons. destruct (decide (k' = k)) as [->|Hne].
    + split; [done | intros [? _]; done].
    + rewrite IH. split; [intros ?; split; [congruence | done] | intros [_ ?]; done].
Qed.

Lemma JsMap_get_Some m k v : JsMap.get m k = Some v → (k, v) ∈ m.
Proof.
  induction m as [|[k' v'] m IH]; simpl; [done|].
  destruct (decide (k' = k)) as [->|Hne].
  - intros [= ->]. apply list_elem_of_here.
  - intros Hg. apply list_elem_of_further. auto.
Qed.

Lemma JsMap_get_Some_key m k v : JsMap.get m k = Some v → k ∈ m.*1.
Proof.
  intros Hg. apply JsMap_get_Some in Hg.
  apply list_elem_of_fmap. by exists (k, v).
Qed.

Lemma JsMap_set_new m k v : k ∉ m.*1 → JsMap.set m k v = m ++ [(k, v)].
Proof.
  induction m as [|[k' v'] m IH]; simpl; [done|].
  rewrite not_elem_of_cons. intros [Hne Hnot].
  destruct (decide (k' = k)); [congruence|]. by rewrite IH.
Qed.

Lemma JsMap_set_keys m k v : k ∈ m.*1 → (JsMap.set m k v).*1 = m.*1.
Proof.
  induction m as [|[k' v'] m IH]; simpl.
  - intros Hin. by apply elem_of_nil in Hin.
  - destruct (decide (k' = k)) as [->|Hne]; [done|].
    intros [?|Hin]%elem_of_cons; [congruence|]. csimpl. by rewrite IH.
Qed.

Lemma JsMap_set_elem m k v e : e ∈ JsMap.set m k v → e = (k, v) ∨ e ∈ m.
Proof.
  induction m as [|[k' v'] m IH]; simpl.
  - intros ->%list_elem_of_singleton. by left.
  - destruct (decide (k' = k)) as [->|Hne].
    + intros [->|Hin]%elem_of_cons; [by left | right; by apply list_elem_of_further].
    + intros [->|Hin]%elem_of_cons.
      * right. apply list_elem_of_here.
      * destruct (IH Hin) as [->|?]; [by left | right; by apply list_elem_of_further].
Qed.

Lemma JsMap_get_set_eq m k v : JsMap.get (JsMap.set m k v) k = Some v.
Proof.
  induction m as [|[k' v'] m IH]; simpl.
  - by rewrite decide_True.
  - destruct (decide (k' = k)) as [->|Hne]; simpl.
    + by rewrite decide_True.
    + by rewrite decide_False.
Qed.

Lemma JsMap_get_set_ne m k k' v : k ≠ k' → JsMap.get (JsMap.set m k v) k' = JsMap.get m k'.
Proof.
  intros Hne. induction m as [|[k0 v0] m IH]; simpl.
  - by rewrite decide_False.
  - destruct (decide (k0 = k)) as [->|Hne0]; simpl.
    + by rewrite !decide_False.
    + by rewrite IH.
Qed.

Lemma JsMap_set_keys_NoDup m k v : NoDup m.*1 → NoDup (JsMap.set m k v).*1.
Proof.
  intros Hnd. destruct (decide (k ∈ m.*1)) as [Hin|Hnot].
  - by rewrite JsMap_set_keys.
  - rewrite JsMap_set_new by done. rewrite fmap_app. simpl.
    apply NoDup_app. split_and!; [done | | apply NoDup_singleton].
    intros x Hx ->%list_elem_of_singleton. done.
Qed.

Lemma JsMap_set_key_elem m k v k' : k' ∈ (JsMap.set m k v).*1 → k' = k ∨ k' ∈ m.*1.
Proof.
  intros [e [-> He]]%list_elem_of_fmap.
  apply JsMap_set_elem in He as [->|He]; [by left|].
  right. apply list_elem_of_fmap. by exists e.
Qed.

Lemma JsMap_delete_get_ne m k k' : k ≠ k' → JsMap.get (JsMap.delete m k) k' = JsMap.get m k'.
Proof.
  intros Hne. induction m as [|[k0 v0] m IH]; simpl; [done|].
  destruct (decide (k0 = k)) as [->|Hne0]; simpl.
  - by rewrite decide_False.
  - by rewrite IH.
Qed.
Lemma JsMap_delete_keys m k : (JsMap.delete m k).*1 `sublist_of` m.*1.
Proof.
  induction m as [|[k' v'] m IH]; simpl; [done|].
  destruct (decide (k' = k)); csimpl; [by apply sublist_cons | by apply sublist_skip].
Qed.

Lemma JsMap_delete_get_eq m k : NoDup m.*1 → JsMap.get (JsMap.delete m k) k = None.
Proof.
  induction m as [|[k' v'] m IH]; simpl; [done|].
  intros [Hnot Hnd]%NoDup_cons. destruct (decide (k' = k)) as [->|Hne]; simpl.
  - by apply JsMap_get_None.
  - rewrite decide_False by done. by apply IH.
Qed.

Lemma JsMap_delete_absent m k : JsMap.get m k = None → JsMap.delete m k = m.
Proof.
  induction m as [|[k' v'] m IH]; simpl; [done|].
  destruct (decide (k' = k)); [done|]. intros Hg. by rewrite IH.
Qed.

Lemma JsMap_set_keeps m k v e : e ∈ m → e.1 ≠ k → e ∈ JsMap.set m k v.
Proof.
  induction m as [|[k' v'] m IH]; simpl; [by intros ?%elem_of_nil|].
  intros [->|Hin]%elem_of_cons Hne.
  - simpl in Hne. rewrite decide_False by done. apply list_elem_of_here.
  - destruct (decide (k' = k)); apply list_elem_of_further; auto.
Qed.
Lemma JsMap_get_elem m k v : NoDup m.*1 → (k, v) ∈ m → JsMap.get m k = Some v.
Proof.
  induction m as [|[k' v'] m IH]; simpl; [by intros _ ?%elem_of_nil|].
  intros [Hnot Hnd]%NoDup_cons [[= -> ->]|Hin]%elem_of_cons.
  - by rewrite decide_True.
  - destruct (decide (k' = k)) as [->|Hne]; [|by apply IH].
    destruct Hnot. apply list_elem_of_fmap. by exists (k, v).
Qed.
End JsMapFacts.

(** ** Induction over the nested trees *)

Lemma FragmentActionInstance_ind (P : FragmentActionInstance → Prop) :
  (∀ d ch, Forall (λ g, Forall P g.2) ch → P (mkFragment d ch)) →
  ∀ t, P t.
Proof.
  intros Hnode. fix IH 1. intros [d ch]. apply Hnode.
  induction ch as [|[g l] ch IHch]; constructor; [|exact IHch].
  simpl. induction l as [|c l IHl]; constructor; [apply IH | exact IHl].
Qed.

Lemma ActionInstance_ind (P : ActionInstance → Prop) :
  (∀ i inst act opts dis hl ui ch,
     (∀ entries, ch = Some entries →
        Forall (λ e, ∀ l, e.2 = Some l → Forall P l) entries) →
     P (mkActionInstance i inst act opts dis hl ui ch)) →
  ∀ d, P d.
Proof.
  intros Hnode. fix IH 1. intros [i inst act opts dis hl ui ch]. apply Hnode.
  assert (Hall : match ch with
                 | Some entries =>
                     Forall (λ e, match e.2 with Some l => Forall P l | None => True end)
                       entries
                 | None => True
                 end).
  { destruct ch as [entries|]; [|exact I].
    induction entries as [|[g o] entries IHe]; constructor; [|exact IHe].
    simpl. destruct o as [l|]; [|exact I].
    induction l as [|c l IHl]; constructor; [apply IH | exact IHl]. }
  intros entries ->. eapply Forall_impl; [exact Hall|].
  intros [g o] Ho l. simpl in *. intros ->. exact Ho.
Qed.

(** ** The instance tree: construction and the child-group guard *)

Section TreeFacts.
Context `{InstanceDefinitions, ModuleHost, IdSource, ActionListPolicy}.

Lemma construct_eq isCloned d n :
  construct isCloned d n =
    let self := mkFragment (dataOf isCloned d n) [] in
    let n' := if isCloned then S n else n in
    match ai_children d with
    | None => (self, n')
    | Some entries =>
        if decide (ai_instance d = "internal")
        then loadGroups isCloned entries self n' else (self, n')
    end.
Proof.
  destruct d as [i inst act opts dis hl ui [entries|]]; simpl; [|done].
  destruct (decide (inst = "internal")); [|done].
  generalize (mkFragment (dataOf isCloned (mkActionInstance i inst act opts dis hl ui
                                             (Some entries)) n) []).
  generalize (if isCloned then S n else n).
  induction entries as [|[g [acts|]] rest IH]; intros m self; simpl; [done| |apply IH].
  destruct (getOrCreateActionGroup self g) as [[self' l]|msg]; [|apply IH].
  match goal with
  | |- context [ (fix loadStorage (a : list ActionInstance) (k : nat) {struct a} := _) acts m ] =>
      set (inner := (fix loadStorage (a : list ActionInstance) (k : nat) {struct a} := _))
  end.
  assert (Hinner : ∀ l k, inner l k = loadStorage isCloned l k).
  { induction l0 as [|a l0 IHl]; intros k; simpl; [done|].
    destruct (construct isCloned a k) as [f n1]. by rewrite IHl. }
  rewrite Hinner. destruct (loadStorage isCloned acts m) as [loaded n']. apply IH.
Qed.

Lemma wellFormed_inv d ch :
  wellFormed (mkFragment d ch) →
  NoDup ch.*1
  ∧ (instance d ≠ "internal" → ch = [])
  ∧ (∀ groupId, groupId ∈ ch.*1 → declaresGroup d groupId)
  ∧ Forall (λ g, Forall wellFormed g.2) ch.
Proof. by inversion 1. Qed.

Lemma wellFormed_leaf d : wellFormed (mkFragment d []).
Proof.
  constructor; [apply NoDup_nil_2 | done | | constructor].
  intros g Hg. by apply elem_of_nil in Hg.
Qed.

Lemma wellFormed_group t groupId actions :
  wellFormed t → JsMap.get (children t) groupId = Some actions →
  Forall wellFormed actions.
Proof.
  destruct t as [d ch]. intros (_ & _ & _ & Hall)%wellFormed_inv Hget.
  apply JsMap_get_Some in Hget. rewrite Forall_forall in Hall.
  apply (Hall _ Hget).
Qed.

Lemma setChildGroup_wellFormed t groupId actions :
  wellFormed t → groupId ∈ (children t).*1 → Forall wellFormed actions →
  wellFormed (setChildGroup t groupId actions).
Proof.
  destruct t as [d ch]. intros (Hnd & Hint & Hdecl & Hall)%wellFormed_inv Hin Hacts.
  unfold setChildGroup. simpl in *. constructor.
  - by apply JsMap_set_keys_NoDup.
  - intros Hne. rewrite (Hint Hne) in Hin. by apply elem_of_nil in Hin.
  - intros g Hg. rewrite JsMap_set_keys in Hg by done. auto.
  - apply Forall_forall. intros e [->|He]%JsMap_set_elem; [done|].
    rewrite Forall_forall in Hall. auto.
Qed.

(** What a successful [#getOrCreateActionGroup] has done. *)
Lemma getOrCreateActionGroup_Ok t groupId t' group :
  getOrCreateActionGroup t groupId = Ok (t', group) →
  (JsMap.get (children t) groupId = Some group ∧ t' = t)
  ∨ (JsMap.get (children t) groupId = None
     ∧ connectionId t = "internal"
     ∧ declaresGroup (data t) groupId
     ∧ t' = setChildGroup t groupId [] ∧ group = []).
Proof.
  unfold getOrCreateActionGroup.
  destruct (JsMap.get (children t) groupId) as [existing|] eqn:Hget.
  - intros [= <- <-]. by left.
  - destruct (decide (connectionId t = "internal")) as [Hint|]; [|done].
    unfold getDefinition.
    destruct (getActionDefinition _ _) as [definition|] eqn:Hdef; [|done].
    destruct (decide (groupId ∈ supportsChildActionGroups definition)); [|done].
    intros [= <- <-]. right. split_and!; try done. by exists definition.
Qed.

Lemma getOrCreateActionGroup_wellFormed t groupId t' group :
  wellFormed t →
  getOrCreateActionGroup t groupId = Ok (t', group) →
  wellFormed t' ∧ groupId ∈ (children t').*1 ∧ Forall wellFormed group.
Proof.
  intros Hwf [[Hget ->]|(Hget & Hint & Hdecl & -> & ->)]%getOrCreateActionGroup_Ok.
  - split_and!; [done | by eapply JsMap_get_Some_key | by eapply wellFormed_group].
  - destruct t as [d ch].
    apply wellFormed_inv in Hwf as (Hnd & Hni & Hd & Hall).
    apply JsMap_get_None in Hget. simpl in *.
    unfold setChildGroup. simpl. rewrite JsMap_set_new by done.
    split_and!; [|rewrite fmap_app; set_solver|constructor].
    constructor.
    + rewrite fmap_app. apply NoDup_app. split_and!; [done| |apply NoDup_singleton].
      intros x Hx ->%list_elem_of_singleton. done.
    + intros Hne. by destruct Hne.
    + intros g. rewrite fmap_app.
      intros [Hg| ->%list_elem_of_singleton]%elem_of_app; auto.
    + apply Forall_app. split; [done|]. by repeat constructor.
Qed.

Lemma loadStorage_wellFormed isCloned actions n :
  Forall (λ a, ∀ n, wellFormed (construct isCloned a n).1) actions →
  Forall wellFormed (loadStorage isCloned actions n).1.
Proof.
  intros Hall. revert n.
  induction Hall as [|a actions Ha _ IH]; intros n; simpl; [constructor|].
  specialize (Ha n). destruct (construct isCloned a n) as [f n1].
  specialize (IH n1). destruct (loadStorage isCloned actions n1) as [fs n2].
  by constructor.
Qed.

Lemma loadGroups_wellFormed isCloned entries self n :
  Forall (λ e, ∀ l, e.2 = Some l →
               Forall (λ a, ∀ n, wellFormed (construct isCloned a n).1) l) entries →
  wellFormed self →
  wellFormed (loadGroups isCloned entries self n).1.
Proof.
  intros Hall. revert self n.
  induction Hall as [|[g [acts|]] rest He _ IH]; intros self n Hwf; simpl; [done| |by apply IH].
  destruct (getOrCreateActionGroup self g) as [[self' l]|msg] eqn:Hgc; [|by apply IH].
  apply getOrCreateActionGroup_wellFormed in Hgc as (Hwf' & Hin & _); [|done].
  pose proof (loadStorage_wellFormed isCloned acts n (He _ eq_refl)) as Hl.
  destruct (loadStorage isCloned acts n) as [loaded n'].
  apply IH. by apply setChildGroup_wellFormed.
Qed.

Lemma construct_wellFormed isCloned d n : wellFormed (construct isCloned d n).1.
Proof.
  revert n. induction d as [i inst act opts dis hl ui ch IH] using ActionInstance_ind.
  intros n. rewrite construct_eq. simpl.
  destruct ch as [entries|]; [|apply wellFormed_leaf].
  destruct (decide (inst = "internal")); [|apply wellFormed_leaf].
  apply loadGroups_wellFormed; [by apply IH | apply wellFormed_leaf].
Qed.

Lemma addChild_wellFormed groupId action n t t' newAction :
  wellFormed t → addChild groupId action n t = Ok (t', newAction) → wellFormed t'.
Proof.
  intros Hwf. unfold addChild.
  destruct (decide (connectionId t ≠ "internal")); [done|].
  destruct (getOrCreateActionGroup t groupId) as [[t1 l]|msg] eqn:Hgc; [|done].
  apply getOrCreateActionGroup_wellFormed in Hgc as (Hwf1 & Hin & Hl); [|done].
  unfold addAction. pose proof (construct_wellFormed false action n) as Hnew.
  destruct (construct false action n) as [new n']. intros [= <- <-].
  apply setChildGroup_wellFormed; [done..|].
  apply Forall_app. split; [done|]. by repeat constructor.
Qed.

Lemma pushChild_wellFormed action groupId index t t' :
  wellFormed t → wellFormed action →
  pushChild action groupId index t = Ok t' → wellFormed t'.
Proof.
  intros Hwf Ha. unfold pushChild.
  destruct (getOrCreateActionGroup t groupId) as [[t1 l]|msg] eqn:Hgc; [|done].
  apply getOrCreateActionGroup_wellFormed in Hgc as (Hwf1 & Hin & Hl); [|done].
  intros [= <-]. apply setChildGroup_wellFormed; [done..|].
  unfold pushAction. apply Forall_app. split; [by apply Forall_take|].
  constructor; [done | by apply Forall_drop].
Qed.

Lemma canAcceptChild_wellFormed groupId action t t' answer :
  wellFormed t → canAcceptChild groupId action t = Ok (t', answer) → wellFormed t'.
Proof.
  intros Hwf. unfold canAcceptChild.
  destruct (getOrCreateActionGroup t groupId) as [[t1 l]|msg] eqn:Hgc; [|done].
  apply getOrCreateActionGroup_wellFormed in Hgc as (Hwf1 & _ & _); [|done].
  by intros [= <- _].
Qed.

(** The invariant, node by node. *)
Lemma wellFormed_below t :
  wellFormed t → Forall wellFormed (getAllChildren t).
Proof.
  induction t as [d ch IH] using FragmentActionInstance_ind.
  intros (_ & _ & _ & Hall)%wellFormed_inv. simpl.
  apply Forall_concat, Forall_fmap.
  rewrite Forall_forall in IH, Hall |- *. intros g Hg. simpl.
  apply Forall_concat, Forall_fmap.
  specialize (IH g Hg). specialize (Hall g Hg).
  rewrite Forall_forall in IH, Hall |- *. intros c Hc. simpl.
  constructor; [by apply Hall | apply IH; [done | by apply Hall]].
Qed.

Lemma elem_of_concat_map {A B} (f : A → list B) (l : list A) (x : B) :
  x ∈ concat (map f l) ↔ ∃ y, y ∈ l ∧ x ∈ f y.
Proof.
  induction l as [|a l IH]; simpl.
  - split; [by intros ?%elem_of_nil | by intros (? & ?%elem_of_nil & _)].
  - rewrite elem_of_app, IH. split.
    + intros [Hx|(y & Hy & Hx)].
      * exists a. split; [apply list_elem_of_here | done].
      * exists y. split; [by apply list_elem_of_further | done].
    + intros (y & [->|Hy]%elem_of_cons & Hx); [by left|].
      right. by exists y.
Qed.

Lemma reachable_wellFormed t : reachable t → wellFormed t.
Proof.
  induction 1 as [isCloned d n
                 |t groupId action n t' newAction _ IH Hop
                 |t action groupId index t' _ IHt _ IHa Hop
                 |t action groupId t' answer _ IH Hop
                 |t groupId actions i child' _ IHt Hget Hi _ IHc].
  - apply construct_wellFormed.
  - exact (addChild_wellFormed _ _ _ _ _ _ IH Hop).
  - exact (pushChild_wellFormed _ _ _ _ _ IHt IHa Hop).
  - exact (canAcceptChild_wellFormed _ _ _ _ _ IH Hop).
  - apply setChildGroup_wellFormed; [done | exact (JsMap_get_Some_key _ _ _ Hget)|].
    apply Forall_insert; [exact (wellFormed_group _ _ _ IHt Hget) | done].
Qed.

(** C7.  After construction from stored data and any sequence of
    [addChild], [pushChild] and [canAcceptChild], on the instance or
    below it, every node of the tree satisfies the invariant: every key
    of its children map is declared among the [supportsChildActionGroups]
    of the definition that owns the node, and a node whose connection is
    not "internal" has an empty children map. *)
Theorem children_keys_declared t :
  reachable t →
  wellFormed t
  ∧ ∀ node, node ∈ t :: getAllChildren t →
      (∀ groupId, groupId ∈ (children node).*1 → declaresGroup (data node) groupId)
      ∧ (connectionId node ≠ "internal" → children node = []).
Proof.
  intros Hwf%reachable_wellFormed. split; [done|].
  intros node Hnode.
  assert (wellFormed node) as Hn.
  { apply elem_of_cons in Hnode as [->|Hin]; [done|].
    pose proof (wellFormed_below t Hwf) as Hall.
    rewrite Forall_forall in Hall. auto. }
  destruct node as [d ch]. apply wellFormed_inv in Hn as (_ & Hni & Hd & _).
  split; [exact Hd | exact Hni].
Qed.

(** C4, as the code has it.  [addChild] on an action whose connection
    is not "internal" always fails, before anything is changed.
    [#getOrCreateActionGroup] hands out a group that is already in the
    children map as it is, without a check and without a change; for a
    group that is not there yet it fails, again before any change, when
    the connection is not "internal" or when the resolved definition
    does not declare the group id. *)
Theorem child_group_guard t groupId :
  (connectionId t ≠ "internal" →
     ∀ action n,
       addChild groupId action n t = Throw "Only internal actions can have children")
  ∧ (JsMap.get (children t) groupId = None →
     connectionId t ≠ "internal" ∨ ¬ declaresGroup (data t) groupId →
     ∃ msg, getOrCreateActionGroup t groupId = Throw msg)
  ∧ (∀ existing,
       JsMap.get (children t) groupId = Some existing →
       getOrCreateActionGroup t groupId = Ok (t, existing)).
Proof.
  split_and!.
  - intros Hne action n. unfold addChild. by rewrite decide_True.
  - intros Hget Hcase. unfold getOrCreateActionGroup. rewrite Hget.
    destruct (decide (connectionId t = "internal")) as [Hint|Hne].
    + destruct Hcase as [?|Hnd]; [done|]. unfold getDefinition.
      destruct (getActionDefinition _ _) as [definition|] eqn:Hdef; [|by eexists].
      destruct (decide (groupId ∈ supportsChildActionGroups definition)) as [Hin|];
        [|by eexists].
      destruct Hnd. by exists definition.
    + by eexists.
  - intros existing Hget. unfold getOrCreateActionGroup. by rewrite Hget.
Qed.

(** *** Notifications of [cleanup], [subscribe] and [setInstance] *)

Lemma cleanup_deletes t : Forall (λ call, isDelete call = true) (cleanup t).
Proof.
  induction t as [d ch IH] using FragmentActionInstance_ind. simpl.
  apply Forall_app. split; [destruct (getChild _); by repeat constructor|].
  apply Forall_forall. intros call (g & Hg & Hcall)%elem_of_concat_map.
  apply elem_of_concat_map in Hcall as (c & Hc & Hcall).
  rewrite Forall_forall in IH. specialize (IH g Hg).
  rewrite Forall_forall in IH. specialize (IH c Hc).
  rewrite Forall_forall in IH. auto.
Qed.

Lemma allIds_eq t : allIds t = id (data t) :: belowIds t.
Proof. by destruct t. Qed.

Lemma asActionInstance_id t : ai_id (asActionInstance t) = id (data t).
Proof. by destruct t. Qed.

(** Every call of [subscribe] is an update for a node of the tree, and
    goes to the only connection asked for, if one is. *)
Lemma subscribe_calls controlId recursive only t call :
  call ∈ subscribe controlId recursive only t →
  ∃ c inst, call = ActionUpdate c inst controlId
            ∧ ai_id inst ∈ allIds t
            ∧ (truthy only = true → only = Some c).
Proof.
  revert call. induction t as [d ch IH] using FragmentActionInstance_ind.
  intros call. simpl. destruct (disabled d); [by intros ?%elem_of_nil|].
  intros [Hown|Hbelow]%elem_of_app.
  - destruct (negb (truthy only) || bool_decide (Some (instance d) = only)) eqn:Hsel;
      [|by apply elem_of_nil in Hown].
    destruct (decide (instance d = "internal")); [by apply elem_of_nil in Hown|].
    destruct (getChild (instance d)); [|by apply elem_of_nil in Hown].
    apply list_elem_of_singleton in Hown as ->.
    eexists _, _. split_and!; [done| |].
    + simpl. apply list_elem_of_here.
    + intros Ht. rewrite Ht in Hsel. simpl in Hsel.
      by apply bool_decide_eq_true in Hsel.
  - destruct recursive; [|by apply elem_of_nil in Hbelow].
    apply elem_of_concat_map in Hbelow as (g & Hg & Hcall).
    apply elem_of_concat_map in Hcall as (c & Hc & Hcall).
    rewrite Forall_forall in IH. specialize (IH g Hg).
    rewrite Forall_forall in IH. specialize (IH c Hc).
    destruct (IH _ Hcall) as (conn & inst & -> & Hid & Honly).
    exists conn, inst. split_and!; [done| |done].
    apply list_elem_of_further, elem_of_concat_map. exists g. split; [done|].
    apply elem_of_concat_map. by exists c.
Qed.

Lemma updatesFor_app connection nodeId l1 l2 :
  updatesFor connection nodeId (l1 ++ l2)
  = updatesFor connection nodeId l1 ++ updatesFor connection nodeId l2.
Proof. apply List.filter_app. Qed.

Lemma updatesFor_none connection nodeId l :
  Forall (λ call, ∀ c inst cid, call = ActionUpdate c inst cid → ai_id inst ≠ nodeId) l →
  updatesFor connection nodeId l = [].
Proof.
  induction 1 as [|call l Hcall _ IH]; [done|].
  unfold updatesFor in *. simpl. rewrite IH.
  destruct call as [c inst cid| |]; try done.
  rewrite (bool_decide_eq_false_2 (ai_id inst = nodeId)) by eauto.
  by rewrite andb_false_r.
Qed.

Lemma subscribe_below_calls controlId only ch call :
  call ∈ concat (map (λ g : string * FragmentActionList,
                        concat (map (subscribe controlId true only) g.2)) ch) →
  ∃ c inst, call = ActionUpdate c inst controlId
            ∧ ai_id inst ∈ concat (map (λ g : string * FragmentActionList,
                                          concat (map allIds g.2)) ch)
            ∧ (truthy only = true → only = Some c).
Proof.
  intros (g & Hg & Hcall)%elem_of_concat_map.
  apply elem_of_concat_map in Hcall as (c & Hc & Hcall).
  apply subscribe_calls in Hcall as (conn & inst & -> & Hid & Honly).
  exists conn, inst. split_and!; [done| |done].
  apply elem_of_concat_map. exists g. split; [done|].
  apply elem_of_concat_map. by exists c.
Qed.

(** C3, as the code has it.  [setInstance] first sends the removal
    notifications of [cleanup] (the node's own goes to the old
    connection, if it is running), then stores the new connection id,
    then subscribes recursively, restricted to the new id.  Every
    create/update of the call comes after every removal and, for a
    non-empty new id, goes to the new connection.  The new connection
    gets exactly one create/update for the node when the node is
    enabled, the new id is not "internal" and the new connection is
    running, and none otherwise. *)
Theorem setInstance_notifications controlId newId t :
  let t' := (setInstance controlId newId t).1 in
  let trace := (setInstance controlId newId t).2 in
  connectionId t' = newId
  ∧ trace = cleanup t ++ subscribe controlId true (Some newId) t'
  ∧ Forall (λ call, isDelete call = true) (cleanup t)
  ∧ (getChild (connectionId t) = true →
     head trace = Some (ActionDelete (connectionId t) (asActionInstance t)))
  ∧ Forall (λ call, isUpdate call = true) (subscribe controlId true (Some newId) t')
  ∧ (newId ≠ EmptyString →
     Forall (λ call, target call = newId) (subscribe controlId true (Some newId) t'))
  ∧ (NoDup (allIds t) →
     length (updatesFor newId (id (data t)) trace)
     = if negb (disabled (data t)) && negb (bool_decide (newId = "internal"))
          && getChild newId
       then 1%nat else 0%nat).
Proof.
  intros t' trace.
  assert (trace = cleanup t ++ subscribe controlId true (Some newId) t') as Htrace
    by reflexivity.
  assert (t' = withData t (mkActionData (id (data t)) newId (action (data t))
                             (options (data t)) (disabled (data t)) (headline (data t))
                             (upgradeIndex (data t)))) as Ht' by reflexivity.
  clearbody t' trace.
  split_and!; [by subst t' | done | apply cleanup_deletes | | | |].
  - intros Hrun. rewrite Htrace. destruct t as [d ch]. unfold connectionId in *.
    simpl in *. by rewrite Hrun.
  - apply Forall_forall. intros call (c & inst & -> & _)%subscribe_calls. done.
  - intros Hne. apply Forall_forall.
    intros call (c & inst & -> & _ & Honly)%subscribe_calls. simpl.
    assert (truthy (Some newId) = true) as Ht by (by apply bool_decide_eq_true).
    specialize (Honly Ht). congruence.
  - intros Hnd. rewrite Htrace, updatesFor_app.
    rewrite (updatesFor_none _ _ (cleanup t)).
    2:{ eapply Forall_impl; [apply cleanup_deletes|].
        intros call Hdel c inst cid ->. done. }
    subst t'. destruct t as [d ch]. unfold withData. cbn [data children].
    cbn [allIds] in Hnd. apply NoDup_cons in Hnd as [Hnotin _].
    assert (updatesFor newId (id d)
              (concat (map (λ g : string * FragmentActionList,
                 concat (map (subscribe controlId true (Some newId)) g.2)) ch)) = [])
      as Hbelow.
    { apply updatesFor_none, Forall_forall.
      intros call (c & inst & -> & Hid & _)%subscribe_below_calls c' inst' cid' [= _ <- _].
      intros Heq. apply Hnotin. by rewrite <- Heq. }
    cbn [subscribe app]. cbn [disabled instance].
    destruct (disabled d); cbn [negb andb]; [done|].
    rewrite (bool_decide_eq_true_2 (Some newId = Some newId)) by done.
    rewrite orb_true_r.
    rewrite updatesFor_app, Hbelow, app_nil_r.
    destruct (decide (newId = "internal")) as [Hint|Hint].
    + by rewrite (bool_decide_eq_true_2 _ Hint).
    + rewrite (bool_decide_eq_false_2 _ Hint). cbn [negb andb].
      destruct (getChild newId); [|done].
      unfold updatesFor. cbn [List.filter asActionInstance ai_id id].
      by rewrite !bool_decide_eq_true_2.
Qed.
End TreeFacts.

(** ** Cloning a tree *)

Section TreeClone.
Context `{InstanceDefinitions, ModuleHost, IdSource, ActionListPolicy}.

Lemma JsMap_set_last {V} (m : list (string * V)) k v v' :
  k ∉ m.*1 → JsMap.set (m ++ [(k, v)]) k v' = m ++ [(k, v')].
Proof.
  induction m as [|[k0 v0] m IH]; simpl.
  - intros _. by rewrite decide_True.
  - rewrite not_elem_of_cons. intros [Hne Hnot].
    destruct (decide (k0 = k)); [congruence|]. by rewrite IH.
Qed.

Lemma loadStorage_clone actions n :
  Forall (λ c, ∀ n, clonedAt c n) actions →
  let r := loadStorage true (map asActionInstance actions) n in
  map withoutIds r.1 = map withoutIds actions
  ∧ concat (map allIds r.1) = nanoid <$> seq n (list_sum (map size actions))
  ∧ r.2 = (n + list_sum (map size actions))%nat.
Proof.
  intros Hall. revert n.
  induction Hall as [|c actions Hc _ IH]; intros n; simpl.
  - split_and!; [done | done | lia].
  - destruct (Hc n) as (Hw & Hids & Hn).
    destruct (construct true (asActionInstance c) n) as [f n1]. simpl in *. subst n1.
    destruct (IH (n + size c)%nat) as (Hw' & Hids' & Hn').
    destruct (loadStorage true (map asActionInstance actions) (n + size c)) as [fs n2].
    simpl in *. subst n2.
    split_and!; [by rewrite Hw, Hw' | | lia].
    by rewrite Hids, Hids', seq_app, fmap_app.
Qed.

Lemma loadGroups_clone rest pre d n :
  instance d = "internal" →
  (∀ groupId, groupId ∈ rest.*1 → declaresGroup d groupId) →
  NoDup (pre.*1 ++ rest.*1) →
  Forall (λ g, Forall (λ c, ∀ n, clonedAt c n) g.2) rest →
  ∃ rest',
    loadGroups true (map (λ g, (g.1, Some (map asActionInstance g.2))) rest)
      (mkFragment d pre) n
    = (mkFragment d (pre ++ rest'), (n + groupsSize rest)%nat)
    ∧ groupsWithoutIds rest' = groupsWithoutIds rest
    ∧ groupsIds rest' = nanoid <$> seq n (groupsSize rest).
Proof.
  intros Hint Hdecl Hnd Hall. revert pre n Hdecl Hnd.
  induction Hall as [|[g l] rest Hl _ IH]; intros pre n Hdecl Hnd.
  - exists []. simpl. rewrite app_nil_r, Nat.add_0_r. done.
  - simpl in *.
    assert (g ∉ pre.*1) as Hfresh.
    { apply NoDup_app in Hnd as (_ & Hdisj & _). intros Hin.
      apply (Hdisj g Hin). apply list_elem_of_here. }
    destruct (Hdecl g) as (definition & Hdef & Hin); [apply list_elem_of_here|].
    unfold getOrCreateActionGroup at 1. simpl.
    rewrite (proj2 (JsMap_get_None pre g) Hfresh).
    unfold connectionId, getDefinition. simpl.
    rewrite decide_True by done. rewrite Hdef. rewrite decide_True by done.
    destruct (loadStorage_clone l n Hl) as (Hw & Hids & Hn).
    destruct (loadStorage true (map asActionInstance l) n) as [loaded n']. simpl in *.
    subst n'. unfold setChildGroup. simpl.
    rewrite (JsMap_set_new pre g []) by done. rewrite JsMap_set_last by done.
    destruct (IH (pre ++ [(g, loaded)]) (n + list_sum (map size l))%nat)
      as (rest' & Hload & Hw' & Hids').
    { intros g' Hg'. apply Hdecl. by apply list_elem_of_further. }
    { rewrite fmap_app. simpl. by rewrite <- app_assoc. }
    exists ((g, loaded) :: rest'). split_and!.
    + rewrite Hload. f_equal; [by rewrite <- app_assoc|].
      unfold groupsSize. simpl. lia.
    + unfold groupsWithoutIds in *. simpl. by rewrite Hw, Hw'.
    + unfold groupsIds, groupsSize in *. simpl.
      by rewrite Hids, Hids', seq_app, fmap_app.
Qed.

(** The constructor, with [isCloned] set, applied to the stored form of
    a well-formed live tree. *)
Lemma construct_clone t : wellFormed t → ∀ n, clonedAt t n.
Proof.
  induction t as [d ch IH] using FragmentActionInstance_ind.
  intros (Hnd & Hni & Hdecl & Hall)%wellFormed_inv n.
  unfold clonedAt. rewrite construct_eq. simpl.
  destruct (decide (instance d = "internal")) as [Hint|Hne]; simpl.
  - set (d' := dataOf true _ n).
    destruct (loadGroups_clone ch [] d' (S n)) as (rest' & Hload & Hw & Hids);
      [done | done | done | |].
    { apply Forall_forall. intros g Hg. apply Forall_forall. intros c Hc.
      rewrite Forall_forall in IH, Hall. specialize (IH g Hg). specialize (Hall g Hg).
      rewrite Forall_forall in IH, Hall. auto. }
    rewrite Hload. simpl. fold (groupsWithoutIds rest') (groupsWithoutIds ch).
    fold (groupsIds rest') (groupsSize ch).
    split_and!; [by rewrite Hw | by rewrite Hids | lia].
  - rewrite (Hni Hne). simpl. split_and!; [done | done | lia].
Qed.

Lemma loadStorage_clone_wellFormed actions n :
  Forall wellFormed actions →
  let r := loadStorage true (map asActionInstance actions) n in
  map withoutIds r.1 = map withoutIds actions
  ∧ concat (map allIds r.1) = nanoid <$> seq n (list_sum (map size actions))
  ∧ r.2 = (n + list_sum (map size actions))%nat.
Proof.
  intros Hall. apply loadStorage_clone.
  eapply Forall_impl; [exact Hall|]. intros c Hc. by apply construct_clone.
Qed.
End TreeClone.

(** ** The controller: delete, move and swap *)

Section ControllerFacts.
Context `{InstanceDefinitions, ModuleHost, IdSource, ActionListPolicy,
          ControlCapabilities, ControlIdScheme, PageValidity}.

Lemma sameLocation_true a b : sameLocation a b = true ↔ a = b.
Proof.
  unfold sameLocation. rewrite !andb_true_iff, !bool_decide_eq_true.
  destruct a, b; simpl. split; [intros [[-> ->] ->]; done | by intros [= -> -> ->]].
Qed.

Lemma sameLocation_false a b : a ≠ b → sameLocation a b = false.
Proof.
  intros Hne. destruct (sameLocation a b) eqn:Hs; [|done].
  by apply sameLocation_true in Hs.
Qed.

Lemma getLocationOfControlId_Some p controlId location :
  getLocationOfControlId p controlId = Some location →
  getControlIdAt p location = Some controlId.
Proof.
  unfold getLocationOfControlId, getControlIdAt.
  destruct (filter _ (map_to_list p)) as [|[loc c] l] eqn:Hf; [done|].
  simpl. intros [= <-].
  assert ((loc, c) ∈ filter (λ b : ControlLocation * string, b.2 = controlId)
                       (map_to_list p)) as Hin by (rewrite Hf; apply list_elem_of_here).
  apply list_elem_of_filter in Hin as [Hc Hin]. simpl in Hc. subst c.
  by apply elem_of_map_to_list in Hin.
Qed.

Lemma getLocationOfControlId_None p controlId :
  getLocationOfControlId p controlId = None ↔
  ∀ location, getControlIdAt p location ≠ Some controlId.
Proof.
  unfold getLocationOfControlId, getControlIdAt. split.
  - destruct (filter _ (map_to_list p)) as [|[loc c] l] eqn:Hf; [|done].
    intros _ location Hl.
    assert ((location, controlId) ∈ filter (λ b : ControlLocation * string, b.2 = controlId)
              (map_to_list p)) as Hin.
    { apply list_elem_of_filter. split; [done | by apply elem_of_map_to_list]. }
    rewrite Hf in Hin. by apply elem_of_nil in Hin.
  - intros Hno. destruct (filter _ (map_to_list p)) as [|[loc c] l] eqn:Hf; [done|].
    assert ((loc, c) ∈ filter (λ b : ControlLocation * string, b.2 = controlId)
                         (map_to_list p)) as Hin by (rewrite Hf; apply list_elem_of_here).
    apply list_elem_of_filter in Hin as [Hc Hin]. simpl in Hc. subst c.
    apply elem_of_map_to_list in Hin. by destruct (Hno loc).
Qed.

(** C6.  [controls:move] returns false and leaves the whole state as it
    is (bindings, controls, and the trace of notifications and
    invalidations) when the two locations are the same, when the page of
    the destination is not valid, or when nothing is bound at the
    source. *)
Theorem move_noop fromLocation toLocation s :
  fromLocation = toLocation
  ∨ isPageValid (pageNumber toLocation) = false
  ∨ getControlIdAt (pages s) fromLocation = None →
  controls_move fromLocation toLocation s = (false, s).
Proof.
  intros Hcase. unfold controls_move.
  destruct (sameLocation fromLocation toLocation) eqn:Hsame; [done|].
  destruct Hcase as [->|[Hinvalid|Hempty]].
  - by rewrite (proj2 (sameLocation_true _ _) eq_refl) in Hsame.
  - by rewrite Hinvalid.
  - rewrite Hempty. simpl. by destruct (negb _).
Qed.

(** C10.  [controls:move] returns false on every input, also when it
    performs the move: the source is cleared, the destination is bound
    to the moved control and both locations are invalidated, in this
    order, at the end.  [controls:swap] returns true when it swaps. *)
Theorem move_returns_false fromLocation toLocation s :
  (controls_move fromLocation toLocation s).1 = false
  ∧ (∀ fromControlId,
       fromLocation ≠ toLocation →
       isPageValid (pageNumber toLocation) = true →
       truthyId (getControlIdAt (pages s) fromLocation) = Some fromControlId →
       let s' := (controls_move fromLocation toLocation s).2 in
       getControlIdAt (pages s') fromLocation = None
       ∧ getControlIdAt (pages s') toLocation = Some fromControlId
       ∧ ∃ before, effects s' = before
                     ++ [InvalidateButton fromLocation; InvalidateButton toLocation])
  ∧ (fromLocation ≠ toLocation →
     isPageValid (pageNumber toLocation) = true →
     isPageValid (pageNumber fromLocation) = true →
     (controls_swap fromLocation toLocation s).1 = true).
Proof.
  split_and!.
  - unfold controls_move.
    destruct (sameLocation _ _); [done|]. destruct (negb _); [done|].
    by destruct (truthyId _).
  - intros fromControlId Hne Hvalid Hfrom. unfold controls_move.
    rewrite (sameLocation_false _ _ Hne), Hvalid, Hfrom. simpl.
    set (s1 := deleteControlAt toLocation s).
    unfold getControlIdAt. split_and!.
    + destruct (getControl _ fromControlId); simpl;
        by rewrite lookup_insert_ne, lookup_delete_eq.
    + destruct (getControl _ fromControlId); simpl; by rewrite lookup_insert_eq.
    + destruct (getControl _ fromControlId); simpl; eauto.
  - intros Hne Hto Hfrom. unfold controls_swap.
    by rewrite (sameLocation_false _ _ Hne), Hto, Hfrom.
Qed.

(** C5.  For two distinct locations on valid pages, [controls:swap]
    twice in a row swaps both times and leaves every location bound as
    it was at the start, whether or not the two locations were bound. *)
Theorem swap_twice fromLocation toLocation s :
  fromLocation ≠ toLocation →
  isPageValid (pageNumber fromLocation) = true →
  isPageValid (pageNumber toLocation) = true →
  let once := controls_swap fromLocation toLocation s in
  let twice := controls_swap fromLocation toLocation once.2 in
  once.1 = true ∧ twice.1 = true
  ∧ getControlIdAt (pages once.2) fromLocation = getControlIdAt (pages s) toLocation
  ∧ getControlIdAt (pages once.2) toLocation = getControlIdAt (pages s) fromLocation
  ∧ pages twice.2 = pages s.
Proof.
  intros Hne Hfrom Hto.
  assert (∀ s0, (controls_swap fromLocation toLocation s0).1 = true
                ∧ pages (controls_swap fromLocation toLocation s0).2
                  = setControlIdAt
                      (setControlIdAt (setControlIdAt (pages s0) toLocation None)
                         fromLocation (getControlIdAt (pages s0) toLocation))
                      toLocation (getControlIdAt (pages s0) fromLocation)) as Hswap.
  { intros s0. unfold controls_swap.
    rewrite (sameLocation_false _ _ Hne), Hto, Hfrom. simpl. split; [done|].
    destruct (truthyId (getControlIdAt (pages s0) fromLocation)) as [a|];
      [destruct (getControl _ a)|];
      (destruct (truthyId (getControlIdAt (pages s0) toLocation)) as [b|];
       [destruct (getControl _ b)|]); done. }
  assert (∀ p (location : ControlLocation) o l,
            setControlIdAt p location o !! l
            = if decide (location = l) then o else p !! l) as Hlookup.
  { intros p location o l. unfold setControlIdAt. destruct o.
    - apply lookup_insert.
    - rewrite lookup_delete. by destruct (decide _). }
  intros once twice.
  destruct (Hswap s) as [Hr1 Hp1]. destruct (Hswap once.2) as [Hr2 Hp2].
  fold once in Hr1, Hp1. fold twice in Hr2, Hp2.
  assert (getControlIdAt (pages once.2) fromLocation = getControlIdAt (pages s) toLocation)
    as Hf.
  { unfold getControlIdAt. rewrite Hp1, !Hlookup.
    rewrite decide_False by done. by rewrite decide_True. }
  assert (getControlIdAt (pages once.2) toLocation = getControlIdAt (pages s) fromLocation)
    as Ht.
  { unfold getControlIdAt. rewrite Hp1, !Hlookup. by rewrite decide_True. }
  split_and!; [done..|].
  rewrite Hp2, Hf, Ht. apply map_eq. intros l. rewrite !Hlookup.
  destruct (decide (toLocation = l)) as [<-|]; [done|].
  destruct (decide (fromLocation = l)) as [<-|]; [done|].
  rewrite Hp1, !Hlookup. by rewrite !decide_False.
Qed.

(** C8, as the code has it.  [deleteControl] never raises.  For an id
    that is not in the registry it leaves the registry and the persisted
    table as they are; it is a no-op on the whole state when, in addition,
    no location is bound to the id, and otherwise it clears that binding
    and invalidates the location.  For an id that is in the registry it
    destroys the control's trees, removes the registry entry and the
    persisted entry, and clears and invalidates the location bound to the
    id, if there is one. *)
Theorem deleteControl_spec controlId s :
  let s' := deleteControl controlId s in
  (getControl s controlId = None →
     controls s' = controls s ∧ dbControls s' = dbControls s
     ∧ ((∀ location, getControlIdAt (pages s) location ≠ Some controlId) → s' = s)
     ∧ (∀ location,
          getLocationOfControlId (pages s) controlId = Some location →
          pages s' = delete location (pages s)
          ∧ effects s' = effects s ++ [UpdateButtonState location; InvalidateButton location]))
  ∧ (∀ control,
       getControl s controlId = Some control →
       controls s' = JsMap.delete (controls s) controlId
       ∧ dbControls s' = delete controlId (dbControls s)
       ∧ match getLocationOfControlId (pages s) controlId with
         | Some location =>
             getControlIdAt (pages s) location = Some controlId
             ∧ pages s' = delete location (pages s)
             ∧ effects s' = effects s ++ destroy control
                   ++ [UpdateButtonState location; InvalidateButton location]
         | None =>
             pages s' = pages s ∧ effects s' = effects s ++ destroy control
         end).
Proof.
  intros s'. subst s'. unfold deleteControl. split.
  - intros Habsent. rewrite Habsent.
    destruct (getLocationOfControlId (pages s) controlId) as [location|] eqn:Hloc.
    + split_and!; [done | done | | by intros ? [= <-]].
      intros Hno. apply getLocationOfControlId_Some in Hloc. by destruct (Hno location).
    + split_and!; [done | done | done | done].
  - intros control Hpresent. rewrite Hpresent. simpl.
    destruct (getLocationOfControlId (pages s) controlId) as [location|] eqn:Hloc; simpl.
    + split_and!; [done | done | by apply getLocationOfControlId_Some | done |].
      by rewrite <- app_assoc.
    + done.
Qed.

(** *** Learn requests *)

Lemma learn_active_roundtrip (id : string) (active : gset string) :
  id ∉ active → ({[id]} ∪ active) ∖ {[id]} = active.
Proof.
  intros Hnot. apply set_eq. intros x.
  rewrite elem_of_difference, elem_of_union, elem_of_singleton.
  split; [by intros [[->|?] ?] | intros Hx; split; [by right | by intros ->]].
Qed.

Lemma learnSettled_pending id outcome s :
  id ∈ pendingLearns s →
  ∃ settled,
    learnSettled id outcome s = Some settled
    ∧ activeLearnRequests settled = activeLearnRequests s ∖ {[id]}
    ∧ pendingLearns settled = removeFirst id (pendingLearns s)
    ∧ effects settled
      = effects s
        ++ match outcome with
           | Rejected e => [LogError ("Learn failed: " ++ e)%string]
           | Fulfilled _ => []
           end
        ++ [EmitToRoom ActiveLearnRoom "learn:remove" id].
Proof.
  intros Hin. unfold learnSettled. rewrite decide_True by done.
  eexists. split; [done|].
  destruct outcome; simpl; split_and!; try done. by rewrite <- app_assoc.
Qed.

Lemma removeFirst_last id l : id ∉ l → removeFirst id (l ++ [id]) = l.
Proof.
  induction l as [|x l IH]; simpl.
  - intros _. by rewrite decide_True.
  - rewrite not_elem_of_cons. intros [Hne Hnot].
    rewrite decide_False by done. by rewrite IH.
Qed.

Lemma learnStarts_handler
    (handler : LearnCall → ControlsController → Result bool * ControlsController)
    (invoked : Effect) id s :
  (∀ call,
     handler call s =
       if decide (id ∈ activeLearnRequests s) then (Throw "Learn is already running", s)
       else
         let s2 := withEffects (setIsLearning id true s) [invoked] in
         match call with
         | ReturnsPromise => (Ok true, withPending s2 (pendingLearns s2 ++ [id]))
         | ThrowsSync e => (Throw e, setIsLearning id false s2)
         end) →
  learnStarts handler invoked id s.
Proof.
  intros Hhandler. split.
  - intros Hin call. rewrite Hhandler. by rewrite decide_True.
  - intros Hnot. rewrite !Hhandler. rewrite decide_False by done. simpl.
    split_and!; [done | done | done | by rewrite <- app_assoc | |].
    + intros outcome.
      edestruct (learnSettled_pending id outcome) as (settled & Hs & Ha & Hp & He);
        [|exists settled; split; [exact Hs|]].
      { simpl. apply elem_of_app. right. apply list_elem_of_here. }
      simpl in *. rewrite Ha, Hp, He. split_and!; [|done|done|].
      * by apply learn_active_roundtrip.
      * intros Hfree again. unfold learnSettled. rewrite Hp.
        rewrite removeFirst_last by done. by rewrite decide_False.
    + intros e. rewrite Hhandler. rewrite decide_False by done. simpl.
      split_and!; [done | by apply learn_active_roundtrip | done |].
      by rewrite <- !app_assoc.
Qed.

(** C2.  For a control that is in the registry and has the capability,
    [controls:action:learn] and [controls:feedback:learn] treat the id of
    the request as follows.  If the id is in the active-learn set, the call
    fails with "Learn is already running" and the state is left as it is:
    the control's learn operation is not invoked, so no external learn RPC
    is issued, and the active-learn set is unchanged.  Otherwise the id is
    added, the learn operation is invoked, and the id is removed once:
    when the learn promise settles, with either outcome, or at once when
    the invocation throws. *)
Theorem learn_mutual_exclusion controlId stepId setId id s control :
  getControl s controlId = Some control →
  (supportsActions control = true →
     learnStarts (controls_action_learn controlId stepId setId id)
       (ActionLearn controlId stepId setId id) id s)
  ∧ (supportsFeedbacks control = true →
     learnStarts (controls_feedback_learn controlId id)
       (FeedbackLearn controlId id) id s).
Proof.
  intros Hcontrol. split; intros Hcap; apply learnStarts_handler; intros call.
  - unfold controls_action_learn. rewrite Hcontrol, Hcap. by destruct (decide _).
  - unfold controls_feedback_learn. rewrite Hcontrol, Hcap. by destruct (decide _).
Qed.

(** The other exits of the learn handlers: an unknown control gives false,
    a control without the capability an error; the state is unchanged. *)
Lemma learn_unknown_control controlId stepId setId id call s :
  getControl s controlId = None →
  controls_action_learn controlId stepId setId id call s = (Ok false, s)
  ∧ controls_feedback_learn controlId id call s = (Ok false, s).
Proof.
  intros Hnone. unfold controls_action_learn, controls_feedback_learn.
  by rewrite Hnone.
Qed.

Lemma learn_without_capability controlId stepId setId id call s control :
  getControl s controlId = Some control →
  (supportsActions control = false →
     controls_action_learn controlId stepId setId id call s
     = (Throw (doesNotSupport controlId "actions"), s))
  ∧ (supportsFeedbacks control = false →
     controls_feedback_learn controlId id call s
     = (Throw (doesNotSupport controlId "feedbacks"), s)).
Proof.
  intros Hcontrol. unfold controls_action_learn, controls_feedback_learn.
  rewrite Hcontrol. by split; intros ->.
Qed.

(** *** Copy *)

Lemma createClassForControl_stored ty cid sortOrder0 acts fbs isImport n :
  ty ≠ trigger →
  createClassForControl cid CategoryButton
    (inl (mkControlModel (typeName ty) sortOrder0 acts fbs)) isImport n
  = ((Some (newControl ty cid (Some (mkControlModel (typeName ty) sortOrder0 acts fbs))
              isImport n).1),
     (newControl ty cid (Some (mkControlModel (typeName ty) sortOrder0 acts fbs))
        isImport n).2).
Proof.
  intros Hty. unfold createClassForControl.
  destruct ty; try done; cbv -[newControl];
    by destruct (newControl _ cid _ isImport n).
Qed.

Lemma createClassForControl_toJSON cid c isImport n :
  controlType c ≠ trigger →
  createClassForControl cid CategoryButton (inl (toJSON c)) isImport n
  = (Some (newControl (controlType c) cid (Some (toJSON c)) isImport n).1,
     (newControl (controlType c) cid (Some (toJSON c)) isImport n).2).
Proof. intros Hty. unfold toJSON. by apply createClassForControl_stored. Qed.

Lemma deleteControl_nanoidCount controlId s :
  nanoidCount (deleteControl controlId s) = nanoidCount s.
Proof.
  unfold deleteControl. destruct (getControl s controlId); simpl;
    by destruct (getLocationOfControlId _ controlId).
Qed.

Lemma deleteControlAt_nanoidCount location s :
  nanoidCount (deleteControlAt location s) = nanoidCount s.
Proof.
  unfold deleteControlAt. destruct (truthyId _); [apply deleteControl_nanoidCount | done].
Qed.

Lemma newControl_clone ty cid fromControl n :
  Forall wellFormed (actions fromControl) →
  Forall wellFormed (feedbacks fromControl) →
  let c := (newControl ty cid (Some (toJSON fromControl)) true n).1 in
  controlId c = cid ∧ controlType c = ty
  ∧ map withoutIds (actions c) = map withoutIds (actions fromControl)
  ∧ map withoutIds (feedbacks c) = map withoutIds (feedbacks fromControl)
  ∧ ∃ count, treeIds c = nanoid <$> seq n count.
Proof.
  intros Ha Hf. unfold newControl, toJSON. cbn [m_actions m_feedbacks m_sortOrder].
  destruct (loadStorage_clone_wellFormed (actions fromControl) n Ha) as (Hwa & Hia & Hna).
  destruct (loadStorage true (map asActionInstance (actions fromControl)) n) as [acts n1].
  cbn [fst snd] in *. subst n1.
  destruct (loadStorage_clone_wellFormed (feedbacks fromControl)
              (n + list_sum (map size (actions fromControl)))%nat Hf) as (Hwf & Hif & Hnf).
  destruct (loadStorage true (map asActionInstance (feedbacks fromControl)) _) as [fbs n2].
  cbn [fst snd] in *. split_and!; [done..|].
  exists (list_sum (map size (actions fromControl))
          + list_sum (map size (feedbacks fromControl)))%nat.
  unfold treeIds. cbn [actions feedbacks]. by rewrite Hia, Hif, seq_app, fmap_app.
Qed.

(** C1.  Copying from an occupied location to a different location on a
    valid page, when the source is a control of the button category whose
    trees satisfy the data-model invariant and [nanoid] does not return an
    id of the source: the copy succeeds and binds at the destination a new
    control whose action and feedback trees are the source's but for the
    ids (same shape, same connection, kind, option values and flags at
    every node), and every id in the new trees, at every depth, is a
    fresh draw of [nanoid], hence not an id of the source. *)
Theorem copy_independence fromLocation toLocation s fromControlId fromControl :
  fromLocation ≠ toLocation →
  isPageValid (pageNumber toLocation) = true →
  truthyId (getControlIdAt (pages s) fromLocation) = Some fromControlId →
  getControl s fromControlId = Some fromControl →
  controlType fromControl ≠ trigger →
  Forall wellFormed (actions fromControl) →
  Forall wellFormed (feedbacks fromControl) →
  (∀ k, (nanoidCount s ≤ k)%nat → nanoid k ∉ treeIds fromControl) →
  let r := controls_copy fromLocation toLocation s in
  r.1 = true
  ∧ ∃ newControlId newControl,
      getControlIdAt (pages r.2) toLocation = Some newControlId
      ∧ JsMap.get (controls r.2) newControlId = Some newControl
      ∧ controlType newControl = controlType fromControl
      ∧ map withoutIds (actions newControl) = map withoutIds (actions fromControl)
      ∧ map withoutIds (feedbacks newControl) = map withoutIds (feedbacks fromControl)
      ∧ (∃ count, treeIds newControl = nanoid <$> seq (S (nanoidCount s)) count)
      ∧ (∀ i, i ∈ treeIds newControl → i ∉ treeIds fromControl).
Proof.
  intros Hne Hvalid Hfrom Hcontrol Hty Ha Hf Hfresh r. subst r.
  unfold controls_copy.
  rewrite (sameLocation_false _ _ Hne), Hvalid, Hfrom, Hcontrol. cbn [negb].
  rewrite deleteControlAt_nanoidCount.
  set (s1 := deleteControlAt toLocation s).
  set (newControlId := CreateBankControlId (nanoid (nanoidCount s))).
  rewrite createClassForControl_toJSON by done.
  destruct (newControl_clone (controlType fromControl) newControlId fromControl
              (S (nanoidCount s)) Ha Hf) as (_ & Hty' & Hwa & Hwf & count & Hids).
  cbn [fst snd]. split; [done|].
  eexists newControlId, _. cbn [pages controls]. unfold getControlIdAt, setControlIdAt.
  split_and!; [apply lookup_insert_eq | apply JsMap_get_set_eq | done..| by exists count |].
  intros i Hi. rewrite Hids in Hi.
  apply list_elem_of_fmap in Hi as (k & -> & Hk).
  apply elem_of_seq in Hk. apply Hfresh. lia.
Qed.
End ControllerFacts.

(** ** The stable sort *)

Section SortFacts.
Context {A : Type} (key : A → Z).

Lemma insertSorted_perm x l : insertSorted key x l ≡ₚ x :: l.
Proof.
  induction l as [|y l IH]; simpl; [done|].
  destruct (decide (key x ≤ key y)); [done|].
  rewrite IH. apply perm_swap.
Qed.

Lemma sort_perm l : sort key l ≡ₚ l.
Proof.
  induction l as [|x l IH]; simpl; [done|].
  by rewrite insertSorted_perm, IH.
Qed.

Lemma insertSorted_head x l :
  Forall (λ y, key x ≤ key y) l → insertSorted key x l = x :: l.
Proof.
  destruct 1 as [|y l Hy _]; simpl; [done|]. by rewrite decide_True.
Qed.

Lemma insertSorted_sorted x l :
  StronglySorted (λ a b, key a ≤ key b) l →
  StronglySorted (λ a b, key a ≤ key b) (insertSorted key x l).
Proof.
  induction 1 as [|y l Hs IH Hy]; simpl.
  - repeat constructor.
  - destruct (decide (key x ≤ key y)) as [Hle|Hgt].
    + constructor; [by constructor|].
      constructor; [done|]. eapply Forall_impl; [exact Hy|]. simpl. lia.
    + constructor; [done|].
      rewrite insertSorted_perm. constructor; [lia | done].
Qed.

Lemma sort_sorted l : StronglySorted (λ a b, key a ≤ key b) (sort key l).
Proof.
  induction l as [|x l IH]; simpl; [constructor | by apply insertSorted_sorted].
Qed.

Lemma filter_insertSorted (P : A → Prop) `{∀ x, Decision (P x)} x l :
  StronglySorted (λ a b, key a ≤ key b) l →
  filter P (insertSorted key x l)
  = if decide (P x) then insertSorted key x (filter P l) else filter P l.
Proof.
  induction 1 as [|y l Hs IH Hy]; simpl.
  - rewrite filter_cons, filter_nil. by destruct (decide (P x)).
  - destruct (decide (key x ≤ key y)) as [Hle|Hgt].
    + rewrite (filter_cons P x). destruct (decide (P x)) as [Hx|Hx]; [|done].
      symmetry. apply insertSorted_head.
      apply Forall_forall. intros z [_ Hz]%list_elem_of_filter.
      apply elem_of_cons in Hz as [->|Hz]; [done|].
      rewrite Forall_forall in Hy. specialize (Hy z Hz). simpl in Hy. lia.
    + rewrite (filter_cons P y), IH. rewrite (filter_cons P y).
      destruct (decide (P y)) as [Hpy|Hpy]; [|done].
      destruct (decide (P x)); [|done]. simpl. by rewrite decide_False.
Qed.

Lemma filter_sort (P : A → Prop) `{∀ x, Decision (P x)} l :
  filter P (sort key l) = sort key (filter P l).
Proof.
  induction l as [|x l IH]; simpl; [done|].
  rewrite filter_insertSorted by apply sort_sorted.
  rewrite filter_cons, IH. by destruct (decide (P x)).
Qed.
End SortFacts.

(** ** Reordering the triggers *)

Section OrderFacts.
Context `{InstanceDefinitions, ModuleHost, IdSource, ActionListPolicy,
          ControlCapabilities, ControlIdScheme, PageValidity}.

Lemma Forall2_compose {A} (P Q R : A → A → Prop) l1 l2 l3 :
  (∀ x y z, P x y → Q y z → R x z) →
  Forall2 P l1 l2 → Forall2 Q l2 l3 → Forall2 R l1 l3.
Proof.
  intros HR H12. revert l3. induction H12 as [|x y l1 l2 Hxy _ IH]; intros l3 H23.
  - inversion H23. constructor.
  - inversion H23 as [|? z ? l3' Hyz H23']; subst. constructor; eauto.
Qed.

Lemma optionsSetField_sortOrder_twice v v' c :
  optionsSetField_sortOrder v (optionsSetField_sortOrder v' c)
  = optionsSetField_sortOrder v c.
Proof. done. Qed.

Lemma renumbered_refl triggerIds (m : list (string * Control)) :
  Forall2 (renumbered triggerIds) m m.
Proof.
  induction m as [|x m IH]; constructor; [|done]. split; [done | by left].
Qed.

Lemma JsMap_set_renumbered (m : list (string * Control)) k c v :
  JsMap.get m k = Some c →
  Forall2 (renumbered [k]) m (JsMap.set m k (optionsSetField_sortOrder v c)).
Proof.
  induction m as [|[k0 c0] m IH]; simpl; [done|].
  destruct (decide (k0 = k)) as [->|Hne].
  - intros [= ->]. constructor.
    + split; [done|]. right. split; [apply list_elem_of_here | by exists v].
    + apply renumbered_refl.
  - intros Hget. constructor; [split; [done | by left] | by apply IH].
Qed.

Lemma setOrderOfListed_renumbered triggerIds index s :
  Forall2 (renumbered triggerIds) (controls s)
    (controls (setOrderOfListed triggerIds index s)).
Proof.
  revert index s. induction triggerIds as [|id0 rest IH]; intros index s; simpl.
  - apply renumbered_refl.
  - set (s' := match getControl s id0 with
               | Some control =>
                   if supportsOptions control
                   then withControls s
                          (JsMap.set (controls s) id0
                             (optionsSetField_sortOrder index control))
                   else s
               | None => s
               end).
    assert (Forall2 (renumbered [id0]) (controls s) (controls s')) as Hstep.
    { subst s'. unfold getControl.
      destruct (decide (id0 = EmptyString)) as [|Hne]; [apply renumbered_refl|].
      destruct (JsMap.get (controls s) id0) as [control|] eqn:Hget;
        [|apply renumbered_refl].
      destruct (supportsOptions control); [|apply renumbered_refl].
      simpl. by apply JsMap_set_renumbered. }
    eapply Forall2_compose; [|exact Hstep|apply (IH (index + 1) s')].
    intros x y z [Hk1 Hxy] [Hk2 Hyz]. split; [congruence|].
    destruct Hxy as [->|[Hin [v Hv]]], Hyz as [->|[Hin' [v' Hv']]].
    + by left.
    + right. split; [by apply list_elem_of_further | by exists v'].
    + right. split; [|by exists v].
      apply list_elem_of_singleton in Hin as ->. apply list_elem_of_here.
    + right. split; [by apply list_elem_of_further; congruence|].
      exists v'. rewrite Hv', Hv. apply optionsSetField_sortOrder_twice.
Qed.

Lemma setOrderOfListed_untouched triggerIds index s k :
  k ∉ triggerIds →
  JsMap.get (controls (setOrderOfListed triggerIds index s)) k
  = JsMap.get (controls s) k.
Proof.
  revert index s. induction triggerIds as [|id0 rest IH]; intros index s; simpl; [done|].
  rewrite not_elem_of_cons. intros [Hne Hnot]. rewrite IH by done.
  destruct (getControl s id0) as [control|]; [|done].
  destruct (supportsOptions control); [|done]. simpl.
  by apply JsMap_get_set_ne.
Qed.

Lemma setOrderOfListed_listed triggerIds index s i k c :
  triggerIds !! i = Some k →
  k ∉ drop (S i) triggerIds →
  getControl s k = Some c →
  supportsOptions c = true →
  getControl (setOrderOfListed triggerIds index s) k
  = Some (optionsSetField_sortOrder (index + Z.of_nat i) c).
Proof.
  revert index s i c.
  induction triggerIds as [|id0 rest IH]; intros index s i c Hi Hlast Hget Hsup; [done|].
  assert (k ≠ EmptyString) as Hk.
  { intros ->. unfold getControl in Hget. by rewrite decide_True in Hget. }
  destruct i as [|i]; simpl in *.
  - injection Hi as ->. rewrite drop_0 in Hlast. rewrite Hget, Hsup.
    unfold getControl. rewrite decide_False by done.
    rewrite setOrderOfListed_untouched by done. simpl.
    rewrite JsMap_get_set_eq. do 2 f_equal. lia.
  - set (s' := match getControl s id0 with
               | Some control =>
                   if supportsOptions control
                   then withControls s
                          (JsMap.set (controls s) id0
                             (optionsSetField_sortOrder index control))
                   else s
               | None => s
               end).
    assert (∃ c', getControl s' k = Some c' ∧ supportsOptions c' = true
                  ∧ ∀ v, optionsSetField_sortOrder v c' = optionsSetField_sortOrder v c)
      as (c' & Hget' & Hsup' & Hsame).
    { subst s'. destruct (decide (id0 = k)) as [->|Hne].
      - rewrite Hget, Hsup. exists (optionsSetField_sortOrder index c).
        unfold getControl. rewrite decide_False by done. simpl.
        by rewrite JsMap_get_set_eq.
      - exists c. split_and!; [|done|done].
        destruct (getControl s id0) as [control|]; [|done].
        destruct (supportsOptions control); [|done].
        unfold getControl in *. rewrite decide_False in * by done. simpl.
        by rewrite JsMap_get_set_ne. }
    rewrite (IH (index + 1) s' i c' Hi Hlast Hget' Hsup'), Hsame.
    do 2 f_equal. lia.
Qed.

Lemma filter_keys_subset {B} (P : string * B → Prop) `{∀ x, Decision (P x)}
    (l : list (string * B)) k :
  k ∈ (filter P l).*1 → k ∈ l.*1.
Proof.
  intros (e & -> & [_ He]%list_elem_of_filter)%list_elem_of_fmap.
  apply list_elem_of_fmap. by exists e.
Qed.

Lemma setOrderOfOthers_spec triggerIds triggerControls nextIndex s :
  NoDup triggerControls.*1 →
  let s2 := setOrderOfOthers triggerIds triggerControls nextIndex s in
  (∀ k, k ∉ (filter (isOther triggerIds) triggerControls).*1 →
        JsMap.get (controls s2) k = JsMap.get (controls s) k)
  ∧ (∀ j k c,
       filter (isOther triggerIds) triggerControls !! j = Some (k, c) →
       JsMap.get (controls s2) k
       = Some (optionsSetField_sortOrder (nextIndex + Z.of_nat j) c)).
Proof.
  revert nextIndex s.
  induction triggerControls as [|[k0 c0] rest IH]; intros nextIndex s Hnd; simpl.
  - split; [done | by intros j k c].
  - apply NoDup_cons in Hnd as [Hk0 Hnd]. simpl in Hk0.
    destruct (negb (bool_decide (controlId c0 ∈ triggerIds)) && supportsOptions c0)
      eqn:Htest.
    + rewrite filter_cons_True by exact Htest.
      destruct (IH (nextIndex + 1)
                  (withControls s
                     (JsMap.set (controls s) k0 (optionsSetField_sortOrder nextIndex c0)))
                  Hnd) as [Hout Hin].
      split.
      * intros k. csimpl. rewrite not_elem_of_cons. intros [Hne Hk].
        rewrite Hout by done. simpl. by apply JsMap_get_set_ne.
      * intros [|j] k c; simpl.
        -- intros [= <- <-]. rewrite Hout.
           ++ simpl. rewrite JsMap_get_set_eq. do 2 f_equal. lia.
           ++ intros Hin0. apply Hk0. by eapply filter_keys_subset.
        -- intros Hj. rewrite (Hin _ _ _ Hj). do 2 f_equal. lia.
    + rewrite filter_cons_False by (unfold isOther; simpl; by rewrite Htest).
      by apply IH.
Qed.

Lemma renumbered_keys triggerIds (cs cs1 : list (string * Control)) :
  Forall2 (renumbered triggerIds) cs cs1 → cs1.*1 = cs.*1.
Proof.
  induction 1 as [|e e1 cs cs1 [Hk _] _ IH]; [done|]. csimpl. by rewrite Hk, IH.
Qed.

Lemma renumbered_others triggerIds (cs cs1 : list (string * Control)) :
  Forall2 (renumbered triggerIds) cs cs1 →
  Forall (λ e, controlId e.2 = e.1) cs →
  filter (isOther triggerIds)
    (filter (λ e : string * Control, controlType e.2 = trigger) cs1)
  = filter (λ e : string * Control,
              controlType e.2 = trigger ∧ supportsOptions e.2 = true ∧ e.1 ∉ triggerIds)
      cs.
Proof.
  induction 1 as [|e e1 cs cs1 [Hk Hcase] _ IH]; [done|].
  intros [Hid Hids]%Forall_cons. specialize (IH Hids).
  assert (∀ x : string * Control,
            controlId x.2 = e.1 →
            (controlType x.2 = trigger ∧ isOther triggerIds x)
            ↔ (controlType x.2 = trigger ∧ supportsOptions x.2 = true ∧ e.1 ∉ triggerIds))
    as Hiff.
  { intros x Hx. unfold isOther. rewrite andb_true_iff, negb_true_iff.
    rewrite bool_decide_eq_false, Hx. tauto. }
  rewrite (filter_cons _ e1), (filter_cons _ e).
  destruct Hcase as [->|[Hin [v Hv]]].
  - specialize (Hiff e Hid).
    destruct (decide (controlType e.2 = trigger)) as [Ht|Ht].
    + rewrite (filter_cons _ e).
      destruct (decide (isOther triggerIds e)) as [Ho|Ho].
      * rewrite decide_True by tauto. by rewrite IH.
      * rewrite decide_False by tauto. done.
    + rewrite decide_False by tauto. done.
  - assert (controlId e1.2 = e.1) as Hid1 by (by rewrite Hv).
    specialize (Hiff e1 Hid1).
    rewrite (decide_False (P := _ ∧ _ ∧ _)) by tauto.
    destruct (decide (controlType e1.2 = trigger)) as [Ht|Ht]; [|done].
    rewrite (filter_cons _ e1). rewrite decide_False by tauto. done.
Qed.

Lemma filter_all {B} (P : B → Prop) `{∀ x, Decision (P x)} (l : list B) :
  Forall P l → filter P l = l.
Proof.
  induction 1 as [|x l Hx _ IH]; [done|]. by rewrite filter_cons_True, IH.
Qed.

(** C9.  For a list of trigger ids: each listed control that exists and
    has options gets as [sortOrder] its index in the list (the index of
    its last occurrence, should an id be given twice).  The triggers that
    the list does not name are then numbered consecutively from the length
    of the list on, in ascending order of the [sortOrder] they had
    before. *)
Theorem set_order_spec triggerIds s :
  registryOk s →
  Forall (λ id, validateTriggerControlId id = true) triggerIds →
  let s' := (triggers_set_order triggerIds s).2 in
  let others := sort (λ e : string * Control, sortOrder e.2)
                  (unspecifiedTriggers triggerIds s) in
  (triggers_set_order triggerIds s).1 = true
  ∧ (∀ i k c,
       triggerIds !! i = Some k →
       k ∉ drop (S i) triggerIds →
       getControl s k = Some c →
       supportsOptions c = true →
       getControl s' k = Some (optionsSetField_sortOrder (Z.of_nat i) c))
  ∧ others ≡ₚ unspecifiedTriggers triggerIds s
  ∧ StronglySorted (λ a b : string * Control, sortOrder a.2 ≤ sortOrder b.2) others
  ∧ (∀ j k c,
       others !! j = Some (k, c) →
       JsMap.get (controls s') k
       = Some (optionsSetField_sortOrder
                 (Z.of_nat (length triggerIds) + Z.of_nat j) c)).
Proof.
  intros [Hnd Hids] Hvalid s' others. subst s'. unfold triggers_set_order.
  rewrite (filter_all _ _ Hvalid). cbn [fst snd].
  set (s1 := setOrderOfListed triggerIds 0 s).
  pose proof (setOrderOfListed_renumbered triggerIds 0 s) as Hrel. fold s1 in Hrel.
  set (L := sort (λ e : string * Control, sortOrder e.2) (getAllTriggers s1)).
  assert (filter (isOther triggerIds) L = others) as Hothers.
  { subst L others. unfold getAllTriggers, unspecifiedTriggers.
    rewrite filter_sort. f_equal. by apply renumbered_others. }
  assert (NoDup L.*1) as HndL.
  { subst L. rewrite sort_perm. unfold getAllTriggers.
    eapply sublist_NoDup; [|apply fmap_sublist, sublist_filter].
    by rewrite (renumbered_keys _ _ _ Hrel). }
  destruct (setOrderOfOthers_spec triggerIds L (Z.of_nat (length triggerIds)) s1 HndL)
    as [Hout Hin].
  rewrite Hothers in Hout, Hin.
  split_and!; [done | | apply sort_perm | apply sort_sorted | exact Hin].
  intros i k c Hi Hlast Hget Hsup.
  assert (k ≠ EmptyString) as Hk.
  { intros ->. unfold getControl in Hget. by rewrite decide_True in Hget. }
  pose proof (setOrderOfListed_listed triggerIds 0 s i k c Hi Hlast Hget Hsup) as Hl.
  fold s1 in Hl. rewrite Z.add_0_l in Hl. rewrite <- Hl.
  unfold getControl. rewrite !decide_False by done. apply Hout.
  intros (e & -> & He)%list_elem_of_fmap.
  subst others. rewrite sort_perm in He.
  apply list_elem_of_filter in He as [(_ & _ & Hnot) _].
  apply Hnot. by eapply list_elem_of_lookup_2.
Qed.
End OrderFacts.

(** ** The statements at work on a concrete controller *)

Section Examples.
Import Example.
#[local] Existing Instances definitions host ids policy capabilities idScheme pageValidity.

Ltac evaluate := vm_compute; reflexivity.
Ltac decided := apply (bool_decide_unpack _); vm_compute; exact I.

Lemma nanoid_not_source k : nanoid k ∉ treeIds source.
Proof.
  change (treeIds source) with ["a1"; "a2"; "a3"].
  change (nanoid k) with ("n" ++ pretty k)%string. generalize (pretty k).
  intros digits Hin. cbn [String.append] in Hin. repeat (apply elem_of_cons in Hin as [Hin|Hin]; [discriminate Hin|]).
  by apply elem_of_nil in Hin.
Qed.

Lemma copy_independence_witness :
  here ≠ there
  ∧ controlType source ≠ trigger
  ∧ ∃ newControlId newControl,
      getControlIdAt (pages (controls_copy here there state).2) there = Some newControlId
      ∧ JsMap.get (controls (controls_copy here there state).2) newControlId
        = Some newControl
      ∧ map withoutIds (actions newControl) = map withoutIds (actions source)
      ∧ ∀ i, i ∈ treeIds newControl → i ∉ treeIds source.
Proof.
  assert (here ≠ there) as Hne by (intros [=]).
  assert (controlType source ≠ trigger) as Hty by (intros [=]).
  split; [exact Hne|]. split; [exact Hty|].
  destruct (copy_independence here there state "bank:src" source)
    as (_ & newControlId & newControl & Hat & Hget & _ & Hactions & _ & _ & Hids).
  - exact Hne.
  - evaluate.
  - evaluate.
  - evaluate.
  - exact Hty.
  - constructor; [apply construct_wellFormed | constructor].
  - constructor.
  - intros k _. apply nanoid_not_source.
  - exists newControlId, newControl. repeat split; assumption.
Defined.

Lemma learn_mutual_exclusion_witness :
  getControl state "bank:src" = Some source
  ∧ learnStarts (controls_action_learn "bank:src" "0" "down" "a2")
      (ActionLearn "bank:src" "0" "down" "a2") "a2" state
  ∧ learnStarts (controls_feedback_learn "bank:src" "a2")
      (FeedbackLearn "bank:src" "a2") "a2" learning.
Proof.
  split; [evaluate|].
  split.
  - apply (learn_mutual_exclusion "bank:src" "0" "down" "a2" state source);
      evaluate.
  - apply (learn_mutual_exclusion "bank:src" "0" "down" "a2" learning source);
      evaluate.
Defined.

Lemma setInstance_notifications_witness :
  NoDup (allIds enabledLeaf)
  ∧ length (updatesFor "conn2" "a8" (setInstance "bank:src" "conn2" enabledLeaf).2)
    = 1%nat.
Proof.
  assert (NoDup (allIds enabledLeaf)) as Hnd by decided.
  split; [exact Hnd|].
  pose proof (setInstance_notifications "bank:src" "conn2" enabledLeaf) as Hthm.
  cbv zeta in Hthm. destruct Hthm as (_ & _ & _ & _ & _ & _ & Hcount).
  exact (Hcount Hnd).
Defined.

Lemma child_group_guard_witness :
  connectionId enabledLeaf ≠ "internal"
  ∧ addChild "actions" (leaf "x" "conn1" "play") 0 enabledLeaf
    = Throw "Only internal actions can have children"
  ∧ (∃ msg, getOrCreateActionGroup enabledLeaf "actions" = Throw msg)
  ∧ getOrCreateActionGroup tree "actions"
    = Ok (tree, [(construct false (leaf "a2" "conn1" "play") 0).1;
                 (construct false (leaf "a3" "internal" "wait") 0).1]).
Proof.
  assert (connectionId enabledLeaf ≠ "internal") as Hne by (intros [=]).
  split; [exact Hne|].
  destruct (child_group_guard enabledLeaf "actions") as (Hadd & Hnew & _).
  destruct (child_group_guard tree "actions") as (_ & _ & Hold).
  split; [exact (Hadd Hne _ _)|].
  split; [apply Hnew; [evaluate | by left]|].
  apply Hold. evaluate.
Defined.

Lemma swap_twice_witness :
  here ≠ there
  ∧ getControlIdAt (pages (controls_swap here there state).2) there = Some "bank:src"
  ∧ pages (controls_swap here there (controls_swap here there state).2).2 = pages state.
Proof.
  assert (here ≠ there) as Hne by (intros [=]).
  split; [exact Hne|].
  destruct (swap_twice here there state) as (_ & _ & _ & Hthere & Hback).
  - exact Hne.
  - evaluate.
  - evaluate.
  - split; [|exact Hback]. rewrite Hthere. evaluate.
Defined.

Lemma move_noop_witness :
  controls_move here here state = (false, state)
  ∧ controls_move there here state = (false, state).
Proof.
  split.
  - apply move_noop. by left.
  - apply move_noop. right. right. evaluate.
Defined.

Lemma children_keys_declared_witness :
  reachable tree
  ∧ wellFormed tree
  ∧ reachable (setChildGroup tree "condition" []).
Proof.
  assert (reachable tree) as Hr by apply reachable_construct.
  split; [exact Hr|]. split.
  - apply (children_keys_declared tree Hr).
  - apply (reachable_canAcceptChild tree enabledLeaf "condition" _ true Hr). evaluate.
Defined.

Lemma deleteControl_spec_witness :
  getControl state "bank:nope" = None
  ∧ deleteControl "bank:nope" state = state
  ∧ getControl state "bank:src" = Some source
  ∧ controls (deleteControl "bank:src" state) = JsMap.delete (controls state) "bank:src"
  ∧ getControlIdAt (pages (deleteControl "bank:src" state)) here = None.
Proof.
  assert (getControl state "bank:nope" = None) as Habsent by evaluate.
  assert (getControl state "bank:src" = Some source) as Hpresent by evaluate.
  destruct (deleteControl_spec "bank:nope" state) as [Hno _].
  destruct (deleteControl_spec "bank:src" state) as [_ Hyes].
  destruct (Hno Habsent) as (_ & _ & Hsame & _).
  destruct (Hyes source Hpresent) as (Hcontrols & _ & Hpages).
  split; [exact Habsent|]. split.
  - apply Hsame. intros location Hbound.
    unfold getControlIdAt, state in Hbound. cbn [pages] in Hbound.
    apply lookup_singleton_Some in Hbound as [_ Hb]. discriminate Hb.
  - split; [exact Hpresent|]. split; [exact Hcontrols|].
    change (getLocationOfControlId (pages state) "bank:src") with (Some here) in Hpages.
    destruct Hpages as (_ & -> & _). apply lookup_delete_eq.
Defined.

Lemma set_order_spec_witness :
  registryOk state
  ∧ getControl (triggers_set_order ["trigger:t3"] state).2 "trigger:t3"
    = Some (triggerWith "trigger:t3" 0)
  ∧ JsMap.get (controls (triggers_set_order ["trigger:t3"] state).2) "trigger:t1"
    = Some (triggerWith "trigger:t1" 1)
  ∧ JsMap.get (controls (triggers_set_order ["trigger:t3"] state).2) "trigger:t2"
    = Some (triggerWith "trigger:t2" 2).
Proof.
  assert (registryOk state) as Hok.
  { split; [decided | repeat constructor]. }
  split; [exact Hok|].
  destruct (set_order_spec ["trigger:t3"] state Hok) as (_ & Hlisted & _ & _ & Hothers).
  { repeat constructor. }
  split; [|split].
  - apply (Hlisted 0%nat "trigger:t3" (triggerWith "trigger:t3" 2));
      [evaluate | apply not_elem_of_nil | evaluate | evaluate].
  - apply (Hothers 0%nat "trigger:t1" (triggerWith "trigger:t1" 0)). evaluate.
  - apply (Hothers 1%nat "trigger:t2" (triggerWith "trigger:t2" 1)). evaluate.
Defined.

Lemma move_returns_false_witness :
  (controls_move here there state).1 = false
  ∧ getControlIdAt (pages (controls_move here there state).2) here = None
  ∧ getControlIdAt (pages (controls_move here there state).2) there = Some "bank:src"
  ∧ (controls_swap here there state).1 = true.
Proof.
  destruct (move_returns_false here there state) as (Hfalse & Hmoved & Hswap).
  destruct (Hmoved "bank:src") as (Hfrom & Hto & _);
    [intros [=] | evaluate | evaluate |].
  split; [exact Hfalse|]. split; [exact Hfrom|]. split; [exact Hto|].
  apply Hswap; [intros [=] | evaluate | evaluate].
Defined.

(** *** Where the documented properties say more than the code does *)

(** C1: a source whose action got its children while it was internal and
    then had its connection changed does not satisfy the data-model
    invariant.  Its copy succeeds, and the children are not copied: the
    stored form of an action that is not internal has no children, and
    the constructor loads none for it. *)
Lemma copy_drops_children_counterexample :
  rebound = (setInstance "bank:src" "conn1" tree).1
  ∧ ¬ wellFormed rebound
  ∧ here ≠ there
  ∧ isPageValid (pageNumber there) = true
  ∧ getControl reboundState "bank:src" = Some reboundSource
  ∧ (∀ k, nanoid k ∉ treeIds reboundSource)
  ∧ (controls_copy here there reboundState).1 = true
  ∧ ∃ newControlId newControl,
      getControlIdAt (pages (controls_copy here there reboundState).2) there
      = Some newControlId
      ∧ JsMap.get (controls (controls_copy here there reboundState).2) newControlId
        = Some newControl
      ∧ length (concat (map getAllChildren (actions reboundSource))) = 2%nat
      ∧ concat (map getAllChildren (actions newControl)) = []
      ∧ map withoutIds (actions newControl) ≠ map withoutIds (actions reboundSource).
Proof.
  split_and!; [done | | intros [=] | evaluate | evaluate | apply nanoid_not_source
              | evaluate |].
  - intros (_ & Hnone & _)%wellFormed_inv. by specialize (Hnone ltac:(intros [=])).
  - eexists _, _. split_and!; [evaluate | evaluate | evaluate | evaluate |].
    vm_compute. discriminate.
Qed.

(** C3: changing the connection of a disabled action sends no
    create/update to the new connection, although it is running. *)
Lemma setInstance_disabled_counterexample :
  connectionId disabledLeaf = "conn1"
  ∧ getChild "conn2" = true
  ∧ (setInstance "bank:src" "conn2" disabledLeaf).2
    = [ActionDelete "conn1" (asActionInstance disabledLeaf)]
  ∧ length (updatesFor "conn2" "a9" (setInstance "bank:src" "conn2" disabledLeaf).2)
    ≠ 1%nat.
Proof. split_and!; [evaluate | evaluate | evaluate | vm_compute; discriminate]. Qed.

(** C4: an action that was internal when it got its child group and then
    had its connection changed is not internal, and
    [#getOrCreateActionGroup] still hands out the group, without an
    error. *)
Lemma child_group_guard_counterexample :
  reachable tree
  ∧ rebound = (setInstance "bank:src" "conn1" tree).1
  ∧ connectionId rebound ≠ "internal"
  ∧ ¬ ∃ msg, getOrCreateActionGroup rebound "actions" = Throw msg.
Proof.
  split_and!; [apply reachable_construct | done | intros [=] |].
  intros [msg Hmsg]. vm_compute in Hmsg. discriminate Hmsg.
Qed.

(** C8: deleting an id that is not in the registry but is still bound to
    a location clears that binding and invalidates the location. *)
Lemma deleteControl_dangling_counterexample :
  getControl dangling "bank:gone" = None
  ∧ getControlIdAt (pages dangling) here = Some "bank:gone"
  ∧ getControlIdAt (pages (deleteControl "bank:gone" dangling)) here = None
  ∧ effects (deleteControl "bank:gone" dangling)
    = [UpdateButtonState here; InvalidateButton here]
  ∧ deleteControl "bank:gone" dangling ≠ dangling.
Proof.
  split_and!; [evaluate | evaluate | evaluate | evaluate |].
  intros Heq. apply (f_equal effects) in Heq. vm_compute in Heq. discriminate Heq.
Qed.
End Examples.

(** ** More on the instance tree *)

Section TreeMoreFacts.
Context `{InstanceDefinitions, ModuleHost, IdSource, ActionListPolicy}.

Lemma loadStorage_stored actions n :
  Forall (λ c, ∀ n, construct false (asActionInstance c) n = (c, n)) actions →
  loadStorage false (map asActionInstance actions) n = (actions, n).
Proof.
  induction 1 as [|c actions Hc _ IH]; simpl; [done|]. by rewrite Hc, IH.
Qed.

Lemma loadGroups_stored rest pre d n :
  instance d = "internal" →
  (∀ groupId, groupId ∈ rest.*1 → declaresGroup d groupId) →
  NoDup (pre.*1 ++ rest.*1) →
  Forall (λ g, Forall (λ c, ∀ n, construct false (asActionInstance c) n = (c, n)) g.2)
    rest →
  loadGroups false (map (λ g, (g.1, Some (map asActionInstance g.2))) rest)
    (mkFragment d pre) n
  = (mkFragment d (pre ++ rest), n).
Proof.
  intros Hint Hdecl Hnd Hall. revert pre Hdecl Hnd.
  induction Hall as [|[g l] rest Hl _ IH]; intros pre Hdecl Hnd.
  - simpl. by rewrite app_nil_r.
  - simpl in *.
    assert (g ∉ pre.*1) as Hfresh.
    { apply NoDup_app in Hnd as (_ & Hdisj & _). intros Hin.
      apply (Hdisj g Hin). apply list_elem_of_here. }
    destruct (Hdecl g) as (definition & Hdef & Hin); [apply list_elem_of_here|].
    unfold getOrCreateActionGroup at 1. simpl.
    rewrite (proj2 (JsMap_get_None pre g) Hfresh).
    unfold connectionId, getDefinition. simpl.
    rewrite decide_True by done. rewrite Hdef. rewrite decide_True by done.
    rewrite (loadStorage_stored l n Hl). unfold setChildGroup. simpl.
    rewrite (JsMap_set_new pre g []) by done. rewrite JsMap_set_last by done.
    rewrite IH.
    + by rewrite <- app_assoc.
    + intros g' Hg'. apply Hdecl. by apply list_elem_of_further.
    + rewrite fmap_app. simpl. by rewrite <- app_assoc.
Qed.

Lemma construct_stored t n :
  wellFormed t → construct false (asActionInstance t) n = (t, n).
Proof.
  revert n. induction t as [d ch IH] using FragmentActionInstance_ind.
  intros n (Hnd & Hni & Hdecl & Hall)%wellFormed_inv.
  rewrite construct_eq. cbv zeta.
  assert (dataOf false (asActionInstance (mkFragment d ch)) n = d) as -> by (by destruct d).
  simpl. destruct (decide (instance d = "internal")) as [Hint|Hne]; simpl.
  - rewrite loadGroups_stored; [done..|].
    apply Forall_forall. intros g Hg. apply Forall_forall. intros c Hc n'.
    rewrite Forall_forall in IH, Hall. specialize (IH g Hg). specialize (Hall g Hg).
    rewrite Forall_forall in IH, Hall. auto.
  - by rewrite (Hni Hne).
Qed.

(** X1.  Loading the stored form of a live tree that satisfies the
    data-model invariant, without cloning, gives the same tree back and
    draws no id. *)
Theorem construct_asActionInstance t n :
  wellFormed t → construct false (asActionInstance t) n = (t, n).
Proof. apply construct_stored. Qed.

Lemma drawnBetween_mono lo lo' hi hi' ids :
  (lo' ≤ lo)%nat → (hi ≤ hi')%nat →
  drawnBetween lo hi ids → drawnBetween lo' hi' ids.
Proof.
  intros Hlo Hhi Hd. eapply Forall_impl; [exact Hd|].
  intros i (k & Hk & ->). exists k. split; [lia | done].
Qed.
Lemma groupsDrawn_ids lo hi ch :
  groupsDrawn lo hi ch → drawnBetween lo hi (groupsIds ch).
Proof.
  intros Hall. unfold groupsIds. apply Forall_concat, Forall_fmap.
  eapply Forall_impl; [exact Hall|]. intros g Hg. simpl.
  by apply Forall_concat, Forall_fmap.
Qed.

Lemma groupsDrawn_mono lo hi hi' ch :
  (hi ≤ hi')%nat → groupsDrawn lo hi ch → groupsDrawn lo hi' ch.
Proof.
  intros Hle Hall. eapply Forall_impl; [exact Hall|]. intros g Hg. simpl in *.
  eapply Forall_impl; [exact Hg|]. intros c Hc. simpl in *.
  by eapply drawnBetween_mono; [| |exact Hc].
Qed.

Lemma loadStorage_false_count actions n :
  Forall (λ a, ∀ n, (construct false a n).2 = n) actions →
  (loadStorage false actions n).2 = n.
Proof.
  induction 1 as [|a actions Ha _ IH]; simpl; [done|].
  specialize (Ha n). destruct (construct false a n) as [f n1]. simpl in Ha. subst n1.
  by destruct (loadStorage false actions n).
Qed.

Lemma loadGroups_false_count entries self n :
  Forall (λ e, ∀ l, e.2 = Some l → Forall (λ a, ∀ n, (construct false a n).2 = n) l)
    entries →
  (loadGroups false entries self n).2 = n.
Proof.
  intros Hall. revert self.
  induction Hall as [|[g [acts|]] rest He _ IH]; intros self; simpl; [done| |apply IH].
  destruct (getOrCreateActionGroup self g) as [[self' l]|msg]; [|apply IH].
  pose proof (loadStorage_false_count acts n (He _ eq_refl)) as Hf.
  destruct (loadStorage false acts n) as [loaded n1]. simpl in Hf. subst n1. apply IH.
Qed.

Lemma construct_false_count d n : (construct false d n).2 = n.
Proof.
  revert n. induction d as [i inst act opts dis hl ui ch IH] using ActionInstance_ind.
  intros n. rewrite construct_eq. simpl.
  destruct ch as [entries|]; [|done].
  destruct (decide (inst = "internal")); [|done].
  apply loadGroups_false_count. by apply IH.
Qed.

Lemma loadStorage_draws actions n :
  Forall (λ a, ∀ n, (S n ≤ (construct true a n).2)%nat
                    ∧ drawnBetween n (construct true a n).2
                        (allIds (construct true a n).1)) actions →
  (n ≤ (loadStorage true actions n).2)%nat
  ∧ Forall (λ c, drawnBetween n (loadStorage true actions n).2 (allIds c))
      (loadStorage true actions n).1.
Proof.
  intros Hall. revert n. induction Hall as [|a actions Ha _ IH]; intros n; simpl.
  - split; [lia | constructor].
  - destruct (Ha n) as (Hle & Hd).
    destruct (construct true a n) as [f n1]. simpl in Hle, Hd.
    destruct (IH n1) as (Hle' & Hd').
    destruct (loadStorage true actions n1) as [fs n2]. simpl in *.
    split; [lia|]. constructor.
    + eapply drawnBetween_mono; [| |exact Hd]; lia.
    + eapply Forall_impl; [exact Hd'|]. intros c Hc. simpl in *.
      eapply drawnBetween_mono; [| |exact Hc]; lia.
Qed.

Lemma loadGroups_draws entries self lo n :
  Forall (λ e, ∀ l, e.2 = Some l →
     Forall (λ a, ∀ n, (S n ≤ (construct true a n).2)%nat
                       ∧ drawnBetween n (construct true a n).2
                           (allIds (construct true a n).1)) l) entries →
  (lo ≤ n)%nat →
  groupsDrawn lo n (children self) →
  data (loadGroups true entries self n).1 = data self
  ∧ (n ≤ (loadGroups true entries self n).2)%nat
  ∧ groupsDrawn lo (loadGroups true entries self n).2
      (children (loadGroups true entries self n).1).
Proof.
  intros Hall. revert self n.
  induction Hall as [|[g [acts|]] rest He _ IH]; intros self n Hlo Hself; simpl;
    [done| |by apply IH].
  destruct (getOrCreateActionGroup self g) as [[self' l]|msg] eqn:Hgc; [|by apply IH].
  destruct (loadStorage_draws acts n (He _ eq_refl)) as (Hle & Hd).
  destruct (loadStorage true acts n) as [loaded n1]. simpl in Hle, Hd.
  assert (data self' = data self ∧ groupsDrawn lo n (children self')) as [Hdata Hself'].
  { apply getOrCreateActionGroup_Ok in Hgc as [[_ ->]|(Hnone & _ & _ & -> & _)]; [done|].
    split; [done|]. unfold setChildGroup. simpl.
    rewrite JsMap_set_new by (by apply JsMap_get_None).
    apply Forall_app. split; [done|]. by repeat constructor. }
  destruct (IH (setChildGroup self' g loaded) n1) as (Hdata' & Hle' & Hd').
  - lia.
  - unfold setChildGroup. simpl. apply Forall_forall.
    intros e [->|He']%JsMap_set_elem; simpl.
    + eapply Forall_impl; [exact Hd|]. intros c Hc. simpl in *.
      eapply drawnBetween_mono; [| |exact Hc]; lia.
    + apply (groupsDrawn_mono lo n n1) in Hself'; [|done].
      unfold groupsDrawn in Hself'. rewrite Forall_forall in Hself'. by apply Hself'.
  - split_and!; [by rewrite Hdata' | lia | done].
Qed.

Lemma construct_clone_draws d n :
  (S n ≤ (construct true d n).2)%nat
  ∧ drawnBetween n (construct true d n).2 (allIds (construct true d n).1).
Proof.
  revert n.
  induction d as [i inst act opts dis hl ui ch IH] using ActionInstance_ind.
  intros n. rewrite construct_eq. cbv zeta.
  set (self := mkFragment _ []).
  assert (drawnBetween n (S n) [id (data self)]) as Hown.
  { repeat constructor. exists n. split; [lia | done]. }
  assert (allIds self = [id (data self)]) as Hself by done.
  destruct ch as [entries|]; cbn [ai_children ai_instance].
  2:{ cbn [fst snd]. split; [lia|]. by rewrite Hself. }
  destruct (decide (inst = "internal")).
  2:{ cbn [fst snd]. split; [lia|]. by rewrite Hself. }
  destruct (loadGroups_draws entries self (S n) (S n)) as (Hdata & Hle & Hd).
  - by apply IH.
  - lia.
  - constructor.
  - split; [lia|].
    destruct (loadGroups true entries self (S n)) as [[d' ch'] n']. simpl in *.
    constructor.
    + exists n. split; [lia | by rewrite Hdata].
    + apply groupsDrawn_ids in Hd. fold (groupsIds ch').
      eapply drawnBetween_mono; [| |exact Hd]; lia.
Qed.

(** X2.  Whatever the stored data: loading it without cloning draws no
    id, and every id of a clone, at every depth, is an id drawn from
    [nanoid] during this construction. *)
Theorem construct_draws d n :
  (construct false d n).2 = n
  ∧ (S n ≤ (construct true d n).2)%nat
  ∧ drawnBetween n (construct true d n).2 (allIds (construct true d n).1).
Proof. split; [apply construct_false_count | apply construct_clone_draws]. Qed.
(** X3.  [#getOrCreateActionGroup] is a get-or-create: once it has
    succeeded for a group, asking again gives the same group and changes
    nothing. *)
Theorem getOrCreateActionGroup_again t groupId t' group :
  getOrCreateActionGroup t groupId = Ok (t', group) →
  getOrCreateActionGroup t' groupId = Ok (t', group).
Proof.
  intros [[Hget ->]|(_ & _ & _ & -> & ->)]%getOrCreateActionGroup_Ok.
  - unfold getOrCreateActionGroup. by rewrite Hget.
  - unfold getOrCreateActionGroup, setChildGroup. simpl.
    by rewrite JsMap_get_set_eq.
Qed.

(** X4.  [canAcceptChild] is not a pure test: asked about a declared
    group that an internal action does not have yet, it answers and
    leaves the new, empty group in the children map, after the others. *)
Theorem canAcceptChild_creates_group t groupId action :
  connectionId t = "internal" →
  declaresGroup (data t) groupId →
  JsMap.get (children t) groupId = None →
  ∃ t',
    canAcceptChild groupId action t = Ok (t', canAcceptAction [] action)
    ∧ data t' = data t
    ∧ children t' = children t ++ [(groupId, [])].
Proof.
  intros Hint (definition & Hdef & Hin) Hget.
  unfold canAcceptChild, getOrCreateActionGroup, getDefinition. rewrite Hget.
  rewrite decide_True by done. rewrite Hdef. rewrite decide_True by done.
  eexists. split; [done|]. split; [done|].
  unfold setChildGroup. simpl. apply JsMap_set_new. by apply JsMap_get_None.
Qed.

(** X5.  [addChild] on an internal action, for a group that its
    definition declares: it succeeds, the new instance is built from the
    stored action with the id it came with, and it is the last of its
    group; what the group held before and the other groups stay. *)
Theorem addChild_appends t groupId action n :
  connectionId t = "internal" →
  declaresGroup (data t) groupId →
  ∃ t',
    addChild groupId action n t = Ok (t', (construct false action n).1)
    ∧ data t' = data t
    ∧ id (data (construct false action n).1) = ai_id action
    ∧ JsMap.get (children t') groupId
      = Some (default [] (JsMap.get (children t) groupId)
              ++ [(construct false action n).1])
    ∧ ∀ other, other ≠ groupId →
        JsMap.get (children t') other = JsMap.get (children t) other.
Proof.
  intros Hint (definition & Hdef & Hin).
  assert (id (data (construct false action n).1) = ai_id action) as Hid.
  { rewrite construct_eq. cbv zeta.
    destruct (ai_children action); [destruct (decide _)|]; try done.
    assert (∀ entries self m, data (loadGroups false entries self m).1 = data self) as Hd.
    { induction entries as [|[g [acts|]] rest IH]; intros self m; simpl; [done| |apply IH].
      destruct (getOrCreateActionGroup self g) as [[self' l0]|msg] eqn:Hgc; [|apply IH].
      destruct (loadStorage false acts m) as [loaded m']. rewrite IH.
      by apply getOrCreateActionGroup_Ok in Hgc as [[_ ->]|(_ & _ & _ & -> & _)]. }
    by rewrite Hd. }
  unfold addChild, addAction. rewrite decide_False by (by intros []).
  unfold getOrCreateActionGroup, getDefinition.
  destruct (JsMap.get (children t) groupId) as [existing|] eqn:Hget.
  - destruct (construct false action n) as [new n']. simpl in *.
    eexists. split; [done|]. unfold setChildGroup. simpl.
    split_and!; [done | done | apply JsMap_get_set_eq |].
    intros other Hne. by apply JsMap_get_set_ne.
  - rewrite decide_True by done. rewrite Hdef. rewrite decide_True by done.
    destruct (construct false action n) as [new n']. simpl in *.
    eexists. split; [done|]. unfold setChildGroup. simpl.
    split_and!; [done | done | apply JsMap_get_set_eq |].
    intros other Hne. by rewrite !JsMap_get_set_ne.
Qed.

Lemma length_concat_map {A B} (f : A → list B) (l : list A) :
  length (concat (map f l)) = list_sum (map (λ x, length (f x)) l).
Proof.
  induction l as [|x l IH]; simpl; [done|]. by rewrite length_app, IH.
Qed.

Lemma filter_concat_map {A B} (P : B → Prop) `{∀ x, Decision (P x)}
    (f : A → list B) (l : list A) :
  filter P (concat (map f l)) = concat (map (λ x, filter P (f x)) l).
Proof.
  induction l as [|x l IH]; simpl; [done|]. by rewrite filter_app, IH.
Qed.

Lemma list_sum_ext {A} (f g : A → nat) (l : list A) :
  Forall (λ x, f x = g x) l → list_sum (map f l) = list_sum (map g l).
Proof. induction 1 as [|x l Hx _ IH]; simpl; [done|]. by rewrite Hx, IH. Qed.

Lemma concat_map_nil {A B} (f : A → list B) (l : list A) :
  Forall (λ x, f x = []) l → concat (map f l) = [].
Proof. induction 1 as [|x l Hx _ IH]; simpl; [done|]. by rewrite Hx, IH. Qed.

Lemma concat_map_ext {A B} (f g : A → list B) (l : list A) :
  Forall (λ x, f x = g x) l → concat (map f l) = concat (map g l).
Proof. induction 1 as [|x l Hx _ IH]; simpl; [done|]. by rewrite Hx, IH. Qed.

Lemma fmap_concat_map {A B C} (f : B → C) (g : A → list B) (l : list A) :
  f <$> concat (map g l) = concat (map (λ x, f <$> g x) l).
Proof.
  induction l as [|x l IH]; simpl; [done|]. by rewrite fmap_app, IH.
Qed.

(** X7.  [cleanup] sends one removal for the node and one for every node
    below it whose connection is running, whether the node is disabled or
    not, each to the node's own connection and carrying the node, and
    nothing else: its calls are, up to their order, the removals of the
    running nodes. *)
Theorem cleanup_removals t :
  cleanup t
  ≡ₚ (λ c, ActionDelete (connectionId c) (asActionInstance c)) <$> runningNodes t.
Proof.
  apply eq_subrelation; [apply _|].
  induction t as [d ch IH] using FragmentActionInstance_ind.
  unfold runningNodes. cbn [cleanup getAllChildren].
  rewrite filter_cons, filter_concat_map.
  assert (concat (map (λ g : string * FragmentActionList,
                         concat (map cleanup g.2)) ch)
          = (λ c, ActionDelete (connectionId c) (asActionInstance c))
            <$> concat (map (λ g : string * FragmentActionList,
                  filter (λ c, getChild (connectionId c) = true)
                    (concat (map (λ c, c :: getAllChildren c) g.2))) ch)) as ->.
  { rewrite fmap_concat_map. apply concat_map_ext.
    eapply Forall_impl; [exact IH|]. intros g Hg. simpl in *.
    rewrite filter_concat_map, fmap_concat_map. apply concat_map_ext.
    eapply Forall_impl; [exact Hg|]. intros c Hc. simpl in *. exact Hc. }
  change (connectionId (mkFragment d ch)) with (instance d).
  destruct (decide (getChild (instance d) = true)) as [Hrun|Hrun].
  - by rewrite Hrun.
  - apply not_true_is_false in Hrun. by rewrite Hrun.
Qed.

End TreeMoreFacts.



(** ** Searching, importing and pruning a tree *)

Section LoopFacts.
Context {A B C : Type}.

Lemma firstResult_Some (f : A → option B) l r :
  firstResult f l = Some r → ∃ x, x ∈ l ∧ f x = Some r.
Proof.
  induction l as [|x l IH]; simpl; [done|].
  destruct (f x) as [r'|] eqn:Hx.
  - intros [= ->]. exists x. split; [apply list_elem_of_here | done].
  - intros (y & Hy & Hr)%IH. exists y. split; [by apply list_elem_of_further | done].
Qed.

Lemma firstResult_None (f : A → option B) l :
  firstResult f l = None → ∀ x, x ∈ l → f x = None.
Proof.
  induction l as [|x l IH]; simpl; [by intros _ ? ?%elem_of_nil|].
  destruct (f x) as [r'|] eqn:Hx; [done|].
  intros Hl y [->|Hy]%elem_of_cons; [done | by apply IH].
Qed.
End LoopFacts.

Section TreeImportFacts.
Context `{InstanceDefinitions, ModuleHost, IdSource, ActionListPolicy, InternalController}.

Lemma elem_of_getAllChildren d ch c' :
  c' ∈ getAllChildren (mkFragment d ch)
  ↔ ∃ g c, g ∈ ch ∧ c ∈ g.2 ∧ (c' = c ∨ c' ∈ getAllChildren c).
Proof.
  cbn [getAllChildren]. rewrite elem_of_concat_map. split.
  - intros (g & Hg & (c & Hc & Hc')%elem_of_concat_map).
    exists g, c. by rewrite elem_of_cons in Hc'.
  - intros (g & c & Hg & Hc & Hc'). exists g. split; [done|].
    apply elem_of_concat_map. exists c. by rewrite elem_of_cons.
Qed.

(** X9.  [findChildById] finds an instance below the node that has the
    id asked for, and finds none only when no instance below the node
    has it. *)
Theorem findChildById_spec i t :
  match findChildById i t with
  | Some r => id (data r) = i ∧ r ∈ getAllChildren t
  | None => ∀ c, c ∈ getAllChildren t → id (data c) ≠ i
  end.
Proof.
  induction t as [d ch IH] using FragmentActionInstance_ind.
  rewrite Forall_forall in IH.
  destruct (findChildById i (mkFragment d ch)) as [r|] eqn:Hfind;
    cbn [findChildById] in Hfind.
  - apply firstResult_Some in Hfind as (g & Hg & Hfind).
    apply firstResult_Some in Hfind as (c & Hc & Hfind).
    specialize (IH g Hg). rewrite Forall_forall in IH. specialize (IH c Hc).
    destruct (decide (id (data c) = i)) as [Hid|Hid].
    + injection Hfind as <-. split; [done|].
      apply elem_of_getAllChildren. exists g, c. by auto.
    + rewrite Hfind in IH. destruct IH as [Hr Hin]. split; [done|].
      apply elem_of_getAllChildren. exists g, c. by auto.
  - intros c' (g & c & Hg & Hc & Hc')%elem_of_getAllChildren.
    pose proof (firstResult_None _ _ Hfind g Hg) as Hgroup. simpl in Hgroup.
    pose proof (firstResult_None _ _ Hgroup c Hc) as Hnode. simpl in Hnode.
    specialize (IH g Hg). rewrite Forall_forall in IH. specialize (IH c Hc).
    destruct (decide (id (data c) = i)) as [Hid|Hid]; [done|].
    rewrite Hnode in IH. destruct Hc' as [->|Hc']; [done | by apply IH].
Qed.
Lemma eachCollect_eq {A B C} (f : A → A * list B * list C) (l : list A) :
  eachCollect f l
  = (map (λ x, (f x).1.1) l, concat (map (λ x, (f x).1.2) l),
     concat (map (λ x, (f x).2) l)).
Proof.
  induction l as [|x l IH]; simpl; [done|].
  rewrite IH. by destruct (f x) as [[x' ps] bg].
Qed.

Lemma map_ext_Forall {A B} (f g : A → B) (l : list A) :
  Forall (λ x, f x = g x) l → map f l = map g l.
Proof. induction 1 as [|x l Hx _ IH]; simpl; [done|]. by rewrite Hx, IH. Qed.

Lemma postProcessImportSelf_eq controlId t :
  postProcessImportSelf controlId t
  = (withData t (upgraded controlId t),
     if notifiedOnImport t
     then [ActionUpdate (connectionId t) (asActionInstance t) controlId]
     else [],
     []).
Proof.
  destruct t as [d ch].
  unfold postProcessImportSelf, upgraded, notifiedOnImport, connectionId, withData.
  cbn [data children].
  destruct (decide (instance d = "internal")) as [Hint|Hc].
  - rewrite bool_decide_eq_true_2 by done. cbn [negb andb].
    destruct (actionUpgrade _ _) as [[a' o']|]; [|done].
    unfold replaceProps, withData. cbn [fst snd data children id instance disabled
                                         headline subscribe].
    destruct (disabled d); [done|]. cbn [truthy negb orb].
    by rewrite decide_True by done.
  - rewrite bool_decide_eq_false_2 by done. cbn [negb andb].
    by destruct (getChild (instance d)).
Qed.

(** [postProcessImport], threaded through the tree, is the node-wise
    upgrade together with the updates of the notified nodes. *)
Lemma postProcessImport_eq controlId t :
  postProcessImport controlId t
  = (imported controlId t,
     (λ c, ActionUpdate (connectionId c) (asActionInstance c) controlId)
       <$> filter (λ c, notifiedOnImport c = true) (t :: getAllChildren t),
     []).
Proof.
  induction t as [d ch IH] using FragmentActionInstance_ind.
  cbn [postProcessImport]. rewrite postProcessImportSelf_eq, eachCollect_eq.
  cbn [fst snd data withData imported].
  set (F := λ g : string * list FragmentActionInstance,
              let '(l', ps1, bg1) := eachCollect (postProcessImport controlId) g.2 in
              (g.1, l', ps1, bg1)).
  set (update := λ c, ActionUpdate (connectionId c) (asActionInstance c) controlId).
  assert (Hgroups : Forall (λ g,
            F g = ((g.1, map (imported controlId) g.2),
                   update <$> filter (λ c, notifiedOnImport c = true)
                                (concat (map (λ c, c :: getAllChildren c) g.2)),
                   [])) ch).
  { eapply Forall_impl; [exact IH|]. intros [g l] Hl. cbn [snd] in Hl.
    unfold F. cbn [fst snd]. rewrite eachCollect_eq.
    f_equal; [f_equal; [f_equal|]|].
    - apply map_ext_Forall. eapply Forall_impl; [exact Hl|]. by intros c ->.
    - rewrite filter_concat_map, fmap_concat_map. apply concat_map_ext.
      eapply Forall_impl; [exact Hl|]. by intros c ->.
    - apply concat_map_nil. eapply Forall_impl; [exact Hl|]. by intros c ->. }
  f_equal; [f_equal|].
  - f_equal. apply map_ext_Forall. eapply Forall_impl; [exact Hgroups|].
    intros g Hg. unfold F in Hg. by rewrite Hg.
  - rewrite filter_cons. cbn [getAllChildren].
    rewrite filter_concat_map.
    assert (Hbelow : concat (map (λ g, (F g).1.2) ch)
            = update <$> concat (map (λ g : string * list FragmentActionInstance,
                filter (λ c, notifiedOnImport c = true)
                  (concat (map (λ c, c :: getAllChildren c) g.2))) ch)).
    { rewrite fmap_concat_map. apply concat_map_ext.
      eapply Forall_impl; [exact Hgroups|]. by intros g ->. }
    destruct (notifiedOnImport (mkFragment d ch)) eqn:Hrun.
    + rewrite decide_True by done. cbn [fmap list_fmap app]. f_equal. exact Hbelow.
    + rewrite decide_False by done. exact Hbelow.
  - cbn [app]. apply concat_map_nil. eapply Forall_impl; [exact Hgroups|].
    intros g Hg. unfold F in Hg. by rewrite Hg.
Qed.

Lemma imported_allIds controlId t : allIds (imported controlId t) = allIds t.
Proof.
  induction t as [d ch IH] using FragmentActionInstance_ind.
  cbn [imported allIds]. f_equal.
  - unfold upgraded. cbn [data].
    destruct (decide (instance d = "internal")); [|done].
    by destruct (actionUpgrade _ _).
  - rewrite map_map. apply concat_map_ext. eapply Forall_impl; [exact IH|].
    intros g Hg. cbn [snd]. rewrite map_map. apply concat_map_ext.
    eapply Forall_impl; [exact Hg|]. by intros c ->.
Qed.

(** X10.  [postProcessImport] returns, up to their order, one
    create/update promise for the node and for each node below it that
    belongs to a running module connection, disabled or not, each to the
    node's connection and carrying the node as it was imported.  It makes
    no other call: an upgraded internal action is stored without
    informing anyone.  The tree after it is the tree before it with, at
    every depth, the new kind and options and no [upgradeIndex] for the
    internal actions that [actionUpgrade] gives new properties for, and
    the same data for every other node; no id and no child changes
    place. *)
Theorem postProcessImport_calls controlId t :
  let r := postProcessImport controlId t in
  r.2 = []
  ∧ r.1.1 = imported controlId t
  ∧ allIds r.1.1 = allIds t
  ∧ r.1.2
    ≡ₚ (λ c, ActionUpdate (connectionId c) (asActionInstance c) controlId)
       <$> filter (λ c, notifiedOnImport c = true) (t :: getAllChildren t).
Proof.
  cbv zeta. rewrite postProcessImport_eq. cbn [fst snd].
  split_and!; [done | done | apply imported_allIds | done].
Qed.

Lemma verifyChildConnectionIds_data known t :
  data (verifyChildConnectionIds known t).1 = data t.
Proof.
  destruct t as [d ch]. cbn [verifyChildConnectionIds].
  by destruct (eachChanged _ ch).
Qed.

Lemma pruneEach_verified (known : gset string) l :
  Forall (λ c, verified known c) l →
  let r := pruneEach (λ c, bool_decide (connectionId c ∈ known))
             (verifyChildConnectionIds known) l in
  allKnown known (getAllActions r.1)
  ∧ (r.2 = false ↔ allKnown known (getAllActions l))
  ∧ (r.2 = false → r.1 = l)
  ∧ concat (map allIds r.1) `sublist_of` concat (map allIds l).
Proof.
  unfold getAllActions.
  induction 1 as [|c l Hc _ IH]; [by repeat split|].
  cbn [pruneEach]. cbn zeta in IH, Hc.
  destruct (pruneEach _ _ l) as [xs changedRest]. cbn [fst snd] in IH.
  destruct IH as (IHknown & IHiff & IHsame & IHsub).
  destruct Hc as (Hdata & Hknown & Hiff & Hsame & Hsub).
  destruct (bool_decide (connectionId c ∈ known)) eqn:Hkeep.
  - apply bool_decide_eq_true_1 in Hkeep.
    destruct (verifyChildConnectionIds known c) as [c' changed].
    cbn [fst snd map concat] in *. split_and!.
    + constructor; [|apply Forall_app; by split].
      unfold connectionId. by rewrite Hdata.
    + rewrite orb_false_iff, Hiff, IHiff. split.
      * intros [Ha Hb]. constructor; [done|]. apply Forall_app. by split.
      * intros [_ [Ha Hb]%Forall_app]%Forall_cons. by split.
    + intros [Ha Hb]%orb_false_iff. by rewrite Hsame, IHsame.
    + by apply sublist_app.
  - apply bool_decide_eq_false_1 in Hkeep.
    cbn [fst snd map concat] in *. split_and!.
    + done.
    + split; [done|]. by intros [? _]%Forall_cons.
    + done.
    + by apply sublist_inserts_l.
Qed.

(** X11.  [verifyChildConnectionIds] leaves below the node only
    instances of known connections, and only removes: the ids left are
    ids of the tree, in their order.  It reports a change exactly when an
    instance below the node has an unknown connection, leaves the tree
    as it is when it reports none, and reports none when run again.  The
    node itself is not checked and keeps its data. *)
Theorem verifyChildConnectionIds_prunes (known : gset string) t :
  let r := verifyChildConnectionIds known t in
  data r.1 = data t
  ∧ Forall (λ c, connectionId c ∈ known) (getAllChildren r.1)
  ∧ (r.2 = false ↔ Forall (λ c, connectionId c ∈ known) (getAllChildren t))
  ∧ (r.2 = false → r.1 = t)
  ∧ allIds r.1 `sublist_of` allIds t
  ∧ verifyChildConnectionIds known r.1 = (r.1, false).
Proof.
  assert (Hmain : ∀ t, verified known t).
  { clear t. intros t. induction t as [d ch IH] using FragmentActionInstance_ind.
    cbn zeta. split; [apply verifyChildConnectionIds_data|].
    cbn [verifyChildConnectionIds getAllChildren allIds].
    set (F := λ g : string * list FragmentActionInstance,
                let '(l', changed1) :=
                  pruneEach (λ c, bool_decide (connectionId c ∈ known))
                    (verifyChildConnectionIds known) g.2 in
                (g.1, l', changed1)).
    assert (Hgroups :
      let r := eachChanged F ch in
      allKnown known (concat (map (λ g : string * list FragmentActionInstance,
                                     getAllActions g.2) r.1))
      ∧ (r.2 = false
         ↔ allKnown known (concat (map (λ g : string * list FragmentActionInstance,
                                          getAllActions g.2) ch)))
      ∧ (r.2 = false → r.1 = ch)
      ∧ groupsIds r.1 `sublist_of` groupsIds ch).
    { unfold groupsIds. clear d.
      induction IH as [|[g l] ch Hl _ IHch]; [by repeat split|].
      cbn [eachChanged]. cbn zeta in IHch.
      destruct (eachChanged F ch) as [xs changedRest]. cbn [fst snd] in IHch.
      destruct IHch as (IHknown & IHiff & IHsame & IHsub).
      apply pruneEach_verified in Hl. cbn zeta in Hl. cbn [snd] in Hl.
      assert (HF : F (g, l)
                   = (g, (pruneEach (λ c, bool_decide (connectionId c ∈ known))
                            (verifyChildConnectionIds known) l).1,
                      (pruneEach (λ c, bool_decide (connectionId c ∈ known))
                         (verifyChildConnectionIds known) l).2)).
      { unfold F. cbn [fst snd]. by destruct (pruneEach _ _ l). }
      rewrite HF. clear HF.
      destruct (pruneEach _ _ l) as [l' changed]. cbn [fst snd] in Hl.
      destruct Hl as (Hknown & Hiff & Hsame & Hsub).
      cbn [fst snd map concat]. split_and!.
      - apply Forall_app. by split.
      - rewrite orb_false_iff, Hiff, IHiff, Forall_app. done.
      - intros [Ha Hb]%orb_false_iff. by rewrite Hsame, IHsame.
      - by apply sublist_app. }
    cbn zeta in Hgroups. destruct (eachChanged F ch) as [ch' changed].
    cbn [fst snd getAllChildren allIds] in *.
    destruct Hgroups as (Hknown & Hiff & Hsame & Hsub).
    split_and!; [done | done | | by apply sublist_skip].
    intros Hc. by rewrite Hsame. }
  destruct (Hmain t) as (Hdata & Hknown & Hiff & Hsame & Hsub).
  cbn zeta. split_and!; try done.
  destruct (Hmain (verifyChildConnectionIds known t).1)
    as (_ & _ & Hiff' & Hsame' & _).
  apply Hiff' in Hknown. specialize (Hsame' Hknown).
  destruct (verifyChildConnectionIds known (verifyChildConnectionIds known t).1)
    as [t'' changed]. simpl in *. by subst.
Qed.
End TreeImportFacts.

(** ** The controller: creating, importing and restoring controls *)

Section ControllerMoreFacts.
Context `{InstanceDefinitions, ModuleHost, IdSource, ActionListPolicy,
          ControlCapabilities, ControlIdScheme, PageValidity}.

(** The chain of tests of [#createClassForControl], by cases on the type
    name. *)
Lemma createClassForControl_cases cid category controlObj isImport n :
  let name := match controlObj with inl m => m_type m | inr ty => ty end in
  let stored := match controlObj with inl m => Some m | inr _ => None end in
  (∃ ty, name = typeName ty
         ∧ (category = CategoryButton → ty ≠ trigger)
         ∧ (category = CategoryTrigger → ty = trigger)
         ∧ createClassForControl cid category controlObj isImport n
           = (Some (newControl ty cid stored isImport n).1,
              (newControl ty cid stored isImport n).2))
  ∨ ((∀ ty, name = typeName ty →
        (category = CategoryButton ∧ ty = trigger)
        ∨ (category = CategoryTrigger ∧ ty ≠ trigger))
     ∧ createClassForControl cid category controlObj isImport n = (None, n)).
Proof.
  assert (Hcreate : ∀ ty stored,
            (let '(c, n') := newControl ty cid stored isImport n in Some (Some c, n'))
            = Some (Some (newControl ty cid stored isImport n).1,
                    (newControl ty cid stored isImport n).2)).
  { intros ty stored. by destruct (newControl ty cid stored isImport n). }
  intros name stored. unfold createClassForControl.
  change (match controlObj with inl m => m_type m | inr ty => ty end) with name.
  change (match controlObj with inl m => Some m | inr _ => None end) with stored.
  cbv zeta. rewrite !Hcreate. clear Hcreate.
  assert (HisType : ∀ x,
            bool_decide (m_type <$> stored = Some x)
            || (bool_decide (name = x) && negb (bool_decide (is_Some stored)))
            = bool_decide (name = x)).
  { intros x. subst name stored. destruct controlObj as [m|ty]; simpl.
    - rewrite andb_false_r, orb_false_r.
      apply bool_decide_ext. split; congruence.
    - by rewrite andb_true_r. }
  rewrite !HisType. clear HisType.
  assert (Hnames : ∀ ty, name = typeName ty →
            match ty with
            | button => name = "button"
            | pagenum => name = "pagenum"
            | pageup => name = "pageup"
            | pagedown => name = "pagedown"
            | trigger => name = "trigger"
            end) by (by intros []).
  destruct (decide (name = "button")) as [Hb|Hb];
    [|destruct (decide (name = "pagenum")) as [Hn|Hn];
      [|destruct (decide (name = "pageup")) as [Hu|Hu];
        [|destruct (decide (name = "pagedown")) as [Hd|Hd];
          [|destruct (decide (name = "trigger")) as [Ht|Ht]]]]];
    repeat match goal with
           | Hyes : name = ?x |- context [bool_decide (name = ?x)] =>
               rewrite (bool_decide_eq_true_2 (name = x)) by exact Hyes
           | Hno : name ≠ ?x |- context [bool_decide (name = ?x)] =>
               rewrite (bool_decide_eq_false_2 (name = x)) by exact Hno
           | Hyes : name = ?x |- context [bool_decide (name = ?y)] =>
               rewrite (bool_decide_eq_false_2 (name = y))
                 by (rewrite Hyes; discriminate)
           end;
    destruct category;
    repeat match goal with
           | |- context [bool_decide (?a = ?b)] =>
               match type of a with
               | ControlCategory =>
                   let v := eval vm_compute in (bool_decide (a = b)) in
                   change (bool_decide (a = b)) with v
               end
           end;
    cbn [orb].
  all: try (right; split; [|reflexivity]; intros ty Hty%Hnames;
            destruct ty; first [congruence | by auto]).
  all: try (left; exists button; by split_and!).
  all: try (left; exists pagenum; by split_and!).
  all: try (left; exists pageup; by split_and!).
  all: try (left; exists pagedown; by split_and!).
  all: try (left; exists trigger; by split_and!).
Qed.
Lemma newControl_id_type ty cid stored isImport n :
  controlId (newControl ty cid stored isImport n).1 = cid
  ∧ controlType (newControl ty cid stored isImport n).1 = ty
  ∧ sortOrder (newControl ty cid stored isImport n).1 = default 0 (m_sortOrder <$> stored).
Proof.
  unfold newControl. destruct stored as [m|]; [|done].
  destruct (loadStorage isImport (m_actions m) n) as [acts n1].
  by destruct (loadStorage isImport (m_feedbacks m) n1) as [fbs n2].
Qed.

Lemma typeName_inj ty1 ty2 : typeName ty1 = typeName ty2 → ty1 = ty2.
Proof. by destruct ty1, ty2. Qed.

(** X12.  [#createClassForControl] creates a control only of the type
    named, under the id given, and only within the category asked for: a
    trigger is never created for the button category, nor a button for
    the trigger category.  It gives [null] exactly when the name is not
    the name of a type of the category, and then draws no id. *)
Theorem createClassForControl_kind cid category controlObj isImport n :
  let name := match controlObj with inl m => m_type m | inr ty => ty end in
  match (createClassForControl cid category controlObj isImport n).1 with
  | Some c =>
      controlId c = cid
      ∧ typeName (controlType c) = name
      ∧ (category = CategoryButton → controlType c ≠ trigger)
      ∧ (category = CategoryTrigger → controlType c = trigger)
  | None =>
      (createClassForControl cid category controlObj isImport n).2 = n
      ∧ ∀ ty, name = typeName ty →
          (category = CategoryButton ∧ ty = trigger)
          ∨ (category = CategoryTrigger ∧ ty ≠ trigger)
  end.
Proof.
  intros name.
  destruct (createClassForControl_cases cid category controlObj isImport n)
    as [(ty & Hname & Hb & Ht & ->)|[Hnone ->]]; cbn [fst snd]; [|done].
  destruct (newControl_id_type ty cid
              (match controlObj with inl m => Some m | inr _ => None end) isImport n)
    as (Hid & Hty & _).
  rewrite Hid, Hty. by split_and!.
Qed.

Lemma newControl_stored c n :
  Forall wellFormed (actions c) → Forall wellFormed (feedbacks c) →
  newControl (controlType c) (controlId c) (Some (toJSON c)) false n = (c, n).
Proof.
  intros Ha Hf. unfold newControl, toJSON. cbn [m_actions m_feedbacks m_sortOrder].
  rewrite !loadStorage_stored.
  - by destruct c.
  - eapply Forall_impl; [exact Hf|]. intros t Ht n'. by apply construct_stored.
  - eapply Forall_impl; [exact Ha|]. intros t Ht n'. by apply construct_stored.
Qed.

Lemma createClassForControl_restores c n :
  Forall wellFormed (actions c) → Forall wellFormed (feedbacks c) →
  createClassForControl (controlId c) CategoryAll (inl (toJSON c)) false n = (Some c, n).
Proof.
  intros Ha Hf.
  destruct (createClassForControl_cases (controlId c) CategoryAll (inl (toJSON c)) false n)
    as [(ty & Hname & _ & _ & ->)|[Hnone _]].
  - apply typeName_inj in Hname. subst ty. by rewrite newControl_stored.
  - by destruct (Hnone (controlType c) eq_refl) as [[? _]|[? _]].
Qed.

Lemma withControls_same s : withControls s (controls s) = s.
Proof. by destruct s. Qed.

Lemma init_restores_from cs s :
  Forall (λ e : string * Control,
            controlId e.2 = e.1
            ∧ Forall wellFormed (actions e.2) ∧ Forall wellFormed (feedbacks e.2)) cs →
  NoDup ((controls s).*1 ++ cs.*1) →
  init (map (λ e : string * Control, (e.1, Some (toJSON e.2))) cs) s
  = withControls s (controls s ++ cs).
Proof.
  intros Hall. revert s. induction Hall as [|[k c] cs (Hid & Ha & Hf) _ IH]; intros s Hnd.
  - simpl. by rewrite app_nil_r, withControls_same.
  - cbn [map init fst snd] in *. subst k.
    rewrite decide_False by (unfold toJSON; simpl; by destruct (controlType c)).
    rewrite createClassForControl_restores by done.
    assert (controlId c ∉ (controls s).*1) as Hnew.
    { apply NoDup_app in Hnd as (_ & Hdisj & _). intros Hin.
      apply (Hdisj _ Hin). apply list_elem_of_here. }
    rewrite JsMap_set_new by done. rewrite IH.
    + unfold withControls. cbn. by rewrite <- app_assoc.
    + cbn [controls]. rewrite fmap_app, <- app_assoc. exact Hnd.
Qed.

(** X13.  Restoring is the inverse of storing: starting from an empty
    registry, [init] on the stored forms of the controls of a registry
    gives that registry back, control by control and in the same order,
    when the registry is a map from each control's id to the control and
    the trees satisfy the data-model invariant.  It draws no id and has
    no other effect. *)
Theorem init_restores cs s :
  NoDup cs.*1 →
  Forall (λ e : string * Control,
            controlId e.2 = e.1
            ∧ Forall wellFormed (actions e.2) ∧ Forall wellFormed (feedbacks e.2)) cs →
  controls s = [] →
  init (map (λ e : string * Control, (e.1, Some (toJSON e.2))) cs) s = withControls s cs.
Proof.
  intros Hnd Hall Hempty. rewrite init_restores_from; [|done|].
  - by rewrite Hempty.
  - by rewrite Hempty.
Qed.

Lemma getControl_get s cid :
  cid ≠ EmptyString → getControl s cid = JsMap.get (controls s) cid.
Proof. intros Hne. unfold getControl. by rewrite decide_False. Qed.

(** X14.  [createButtonControl] does not delete anything: when it
    succeeds, the location is bound to the new id and every control
    registered under another id is still registered, the one that was
    bound at the location included.  The new control is empty, of the
    type asked for, and not a trigger.  When it fails, on an invalid page
    or for a name that is not a button type, registry and bindings are as
    before. *)
Theorem createButtonControl_keeps location newType s :
  let r := createButtonControl location newType s in
  match r.1 with
  | Some newId =>
      newId = CreateBankControlId (nanoid (nanoidCount s))
      ∧ isPageValid (pageNumber location) = true
      ∧ (∃ ty, newType = typeName ty ∧ ty ≠ trigger
               ∧ JsMap.get (controls r.2) newId = Some (mkControl newId ty 0 [] []))
      ∧ pages r.2 = <[location := newId]> (pages s)
      ∧ ∀ cid, cid ≠ newId → JsMap.get (controls r.2) cid = JsMap.get (controls s) cid
  | None =>
      controls r.2 = controls s ∧ pages r.2 = pages s
      ∧ (isPageValid (pageNumber location) = false
         ∨ ∀ ty, newType = typeName ty → ty = trigger)
  end.
Proof.
  unfold createButtonControl.
  destruct (isPageValid (pageNumber location)) eqn:Hvalid; cbn [negb];
    [|cbv zeta; cbn [fst snd]; by auto].
  destruct (createClassForControl_cases (CreateBankControlId (nanoid (nanoidCount s)))
              CategoryButton (inr newType) false (S (nanoidCount s)))
    as [(ty & Hname & Hb & _ & ->)|[Hnone ->]]; cbn [fst snd controls pages].
  - split_and!; [done | done | | done |].
    + exists ty. split_and!; [done | by apply Hb |]. apply JsMap_get_set_eq.
    + intros cid Hne. by apply JsMap_get_set_ne.
  - split_and!; [done | done |]. right. intros ty Hty.
    by destruct (Hnone ty Hty) as [[_ ?]|[? _]].
Qed.
(** What [deleteControl] leaves of a control that is in the registry. *)
Lemma deleteControl_gone cid c s :
  NoDup (controls s).*1 →
  getControl s cid = Some c →
  let s' := deleteControl cid s in
  JsMap.get (controls s') cid = None
  ∧ dbControls s' !! cid = None
  ∧ nanoidCount s' = nanoidCount s
  ∧ NoDup (controls s').*1
  ∧ (∀ other, other ≠ cid → JsMap.get (controls s') other = JsMap.get (controls s) other)
  ∧ (∀ location,
       getControlIdAt (pages s) location = Some cid →
       (∀ l, getControlIdAt (pages s) l = Some cid → l = location) →
       pages s' = delete location (pages s)).
Proof.
  intros Hnd Hc. unfold deleteControl. rewrite Hc. cbn [pages].
  assert (Hkeys : NoDup (JsMap.delete (controls s) cid).*1).
  { eapply sublist_NoDup; [|apply JsMap_delete_keys]. done. }
  destruct (getLocationOfControlId (pages s) cid) as [found|] eqn:Hloc; cbn.
  - split_and!; [by apply JsMap_delete_get_eq | apply lookup_delete_eq | done | done | |].
    + intros other Hne. by apply JsMap_delete_get_ne.
    + intros location Hbound Honly.
      apply getLocationOfControlId_Some in Hloc. by rewrite (Honly _ Hloc).
  - split_and!; [by apply JsMap_delete_get_eq | apply lookup_delete_eq | done | done | |].
    + intros other Hne. by apply JsMap_delete_get_ne.
    + intros location Hbound _.
      rewrite getLocationOfControlId_None in Hloc. by destruct (Hloc location).
Qed.

Lemma getControl_Some_id s cid c : getControl s cid = Some c → cid ≠ EmptyString.
Proof. unfold getControl. by destruct (decide (cid = EmptyString)). Qed.

Lemma truthyId_Some cid : cid ≠ EmptyString → truthyId (Some cid) = Some cid.
Proof. intros Hne. unfold truthyId. by rewrite decide_False. Qed.

(** X15.  [controls:reset] of a location whose control is registered,
    and bound only there: whatever the type asked for, the old control is
    no longer registered nor persisted and the location is no longer
    bound to it.  Without a type the location is left unbound; with the
    name of a button type, on a valid page, it is bound to a new, empty
    control of that type. *)
Theorem controls_reset_clears location type s old c :
  NoDup (controls s).*1 →
  getControlIdAt (pages s) location = Some old →
  getControl s old = Some c →
  (∀ l, getControlIdAt (pages s) l = Some old → l = location) →
  old ≠ CreateBankControlId (nanoid (nanoidCount s)) →
  let s' := controls_reset location type s in
  let newId := CreateBankControlId (nanoid (nanoidCount s)) in
  JsMap.get (controls s') old = None
  ∧ dbControls s' !! old = None
  ∧ getControlIdAt (pages s') location ≠ Some old
  ∧ (truthyId type = None → getControlIdAt (pages s') location = None)
  ∧ (∀ name ty, truthyId type = Some name → name = typeName ty → ty ≠ trigger →
       isPageValid (pageNumber location) = true →
       getControlIdAt (pages s') location = Some newId
       ∧ JsMap.get (controls s') newId = Some (mkControl newId ty 0 [] [])).
Proof.
  intros Hnd Hbound Hc Honly Hfresh.
  pose proof (getControl_Some_id _ _ _ Hc) as Hold.
  destruct (deleteControl_gone old c s Hnd Hc) as (Hget & Hdb & Hn & _ & _ & Hpages).
  specialize (Hpages location Hbound Honly).
  unfold controls_reset. rewrite Hbound, (truthyId_Some _ Hold).
  set (s1 := deleteControl old s) in *. cbv zeta.
  destruct (truthyId type) as [name|] eqn:Htype.
  2:{ split_and!; [done | done | | | done].
      - unfold getControlIdAt. by rewrite Hpages, lookup_delete_eq.
      - intros _. unfold getControlIdAt. by rewrite Hpages, lookup_delete_eq. }
  unfold createButtonControl. rewrite Hn.
  destruct (isPageValid (pageNumber location)) eqn:Hvalid; cbn [negb snd].
  2:{ split_and!; [done | done | | done | done].
      unfold getControlIdAt. by rewrite Hpages, lookup_delete_eq. }
  destruct (createClassForControl_cases (CreateBankControlId (nanoid (nanoidCount s)))
              CategoryButton (inr name) false (S (nanoidCount s)))
    as [(ty & Hname & Hb & _ & ->)|[Hnone ->]]; cbn [fst snd controls pages dbControls].
  - split_and!; [by rewrite JsMap_get_set_ne | done | | done |].
    + unfold getControlIdAt, setControlIdAt. rewrite lookup_insert_eq. congruence.
    + intros name' ty' [= <-] Hname' _ _. rewrite Hname in Hname'.
      apply typeName_inj in Hname'. subst ty'. unfold getControlIdAt, setControlIdAt.
      split; [apply lookup_insert_eq | apply JsMap_get_set_eq].
  - split_and!; [done | done | | done |].
    + unfold getControlIdAt. by rewrite Hpages, lookup_delete_eq.
    + intros name' ty' [= <-] Hname' Hty' _.
      by destruct (Hnone ty' Hname') as [[_ ?]|[? _]].
Qed.

Lemma newControl_import_draws ty cid m n :
  let r := newControl ty cid (Some m) true n in
  (n ≤ r.2)%nat ∧ drawnBetween n r.2 (treeIds r.1).
Proof.
  unfold newControl.
  destruct (loadStorage_draws (m_actions m) n) as [Hle1 Hd1].
  { apply Forall_forall. intros a _ n'. apply construct_clone_draws. }
  destruct (loadStorage true (m_actions m) n) as [acts n1]. cbn [fst snd] in *.
  destruct (loadStorage_draws (m_feedbacks m) n1) as [Hle2 Hd2].
  { apply Forall_forall. intros a _ n'. apply construct_clone_draws. }
  destruct (loadStorage true (m_feedbacks m) n1) as [fbs n2]. cbn [fst snd] in *.
  split; [lia|]. unfold treeIds, drawnBetween. cbn [actions feedbacks].
  apply Forall_app. split; apply Forall_concat, Forall_fmap.
  - eapply Forall_impl; [exact Hd1|]. intros t Ht. simpl.
    by eapply drawnBetween_mono; [| |exact Ht].
  - eapply Forall_impl; [exact Hd2|]. intros t Ht. simpl.
    by eapply drawnBetween_mono; [| |exact Ht].
Qed.
Lemma deleteControlAt_location_nanoidCount location s :
  nanoidCount (match truthyId (getControlIdAt (pages s) location) with
               | Some oldControlId => deleteControl oldControlId s
               | None => s
               end) = nanoidCount s.
Proof. destruct (truthyId _); [apply deleteControl_nanoidCount | done]. Qed.

(** X16.  [importControl] succeeds exactly when the forced id, if one
    is given, is a bank id and the definition is of a button type.  The
    control is then registered and persisted under the forced id, or
    under a new bank id, and bound at the location; it has the type and
    the sort order of the definition, and every id in its trees is drawn
    from [nanoid] during the import: none is taken from the definition.
    With a forced id that is not a bank id nothing changes. *)
Theorem importControl_result location definition forceControlId s :
  let r := importControl location definition forceControlId s in
  let newId := default (CreateBankControlId (nanoid (nanoidCount s)))
                 (truthyId forceControlId) in
  (r.1 = true ↔
     (∀ forced, truthyId forceControlId = Some forced →
        validateBankControlId forced = true)
     ∧ ∃ ty, m_type definition = typeName ty ∧ ty ≠ trigger)
  ∧ (r.1 = true →
     getControlIdAt (pages r.2) location = Some newId
     ∧ ∃ c, JsMap.get (controls r.2) newId = Some c
            ∧ dbControls r.2 !! newId = Some (toJSON c)
            ∧ controlId c = newId
            ∧ typeName (controlType c) = m_type definition
            ∧ sortOrder c = m_sortOrder definition
            ∧ drawnBetween (nanoidCount s) (nanoidCount r.2) (treeIds c))
  ∧ ((∃ forced, truthyId forceControlId = Some forced
                ∧ validateBankControlId forced = false) → r.2 = s).
Proof.
  unfold importControl.
  set (s1 := match truthyId (getControlIdAt (pages s) location) with
             | Some oldControlId => deleteControl oldControlId s
             | None => s
             end).
  assert (Hn : nanoidCount s1 = nanoidCount s)
    by apply deleteControlAt_location_nanoidCount.
  assert (Hrejected : ∀ forced, truthyId forceControlId = Some forced →
            validateBankControlId forced = false →
            ¬ ((∀ forced, truthyId forceControlId = Some forced →
                  validateBankControlId forced = true)
               ∧ ∃ ty, m_type definition = typeName ty ∧ ty ≠ trigger)).
  { intros forced Hforced Hinvalid [Hvalid _]. specialize (Hvalid forced Hforced).
    congruence. }
  destruct (truthyId forceControlId) as [forced|] eqn:Hforced.
  - destruct (validateBankControlId forced) eqn:Hvalid; cbn [negb default].
    2:{ cbv zeta. cbn [fst snd]. split_and!; [|done|done].
        split; [done|]. intros Hyes. by destruct (Hrejected forced). }
    cbv zeta. rewrite Hn.
    destruct (createClassForControl_cases forced CategoryButton (inl definition) true
                (nanoidCount s)) as [(ty & Hname & Hb & _ & ->)|[Hnone ->]];
      cbn [fst snd controls pages dbControls nanoidCount].
    + destruct (newControl_id_type ty forced (Some definition) true (nanoidCount s))
        as (Hid & Hty & Hsort). simpl in Hsort.
      destruct (newControl_import_draws ty forced definition (nanoidCount s))
        as [Hle Hd].
      split_and!.
      * split; [intros _|done]. split; [by intros ? [= <-]|]. exists ty. auto.
      * intros _. split; [apply lookup_insert_eq|]. eexists.
        split; [apply JsMap_get_set_eq|]. unfold commitChange.
        rewrite Hid, Hty. split_and!; [apply lookup_insert_eq | done..].
      * intros (forced' & [= <-] & Hinvalid). congruence.
    + split_and!; [|done|].
      * split; [done|]. intros (_ & ty & Hty & Hne).
        by destruct (Hnone ty Hty) as [[_ ?]|[? _]].
      * intros (forced' & [= <-] & Hinvalid). congruence.
  - cbn [default]. cbv zeta. rewrite Hn.
    destruct (createClassForControl_cases (CreateBankControlId (nanoid (nanoidCount s)))
                CategoryButton (inl definition) true (S (nanoidCount s)))
      as [(ty & Hname & Hb & _ & ->)|[Hnone ->]];
      cbn [fst snd controls pages dbControls nanoidCount].
    + destruct (newControl_id_type ty (CreateBankControlId (nanoid (nanoidCount s)))
                  (Some definition) true (S (nanoidCount s))) as (Hid & Hty & Hsort).
      simpl in Hsort.
      destruct (newControl_import_draws ty (CreateBankControlId (nanoid (nanoidCount s)))
                  definition (S (nanoidCount s))) as [Hle Hd].
      split_and!.
      * split; [intros _|done]. split; [done|]. exists ty. auto.
      * intros _. split; [apply lookup_insert_eq|]. eexists.
        split; [apply JsMap_get_set_eq|]. unfold commitChange.
        rewrite Hid, Hty. split_and!; [apply lookup_insert_eq | done | done | done |].
        eapply drawnBetween_mono; [| |exact Hd]; lia.
      * by intros (forced' & [=] & _).
    + split_and!; [|done|].
      * split; [done|]. intros (_ & ty & Hty & Hne).
        by destruct (Hnone ty Hty) as [[_ ?]|[? _]].
      * by intros (forced' & [=] & _).
Qed.

(** X17.  [importControl] deletes the control bound at the location
    before it looks at the definition: an import that fails because the
    definition is not of a button type returns false, and has already
    removed the old control from the registry and from the persisted
    table. *)
Theorem importControl_deletes_first location definition forceControlId s old c :
  NoDup (controls s).*1 →
  getControlIdAt (pages s) location = Some old →
  getControl s old = Some c →
  (∀ forced, truthyId forceControlId = Some forced →
     validateBankControlId forced = true) →
  (∀ ty, m_type definition = typeName ty → ty = trigger) →
  let r := importControl location definition forceControlId s in
  r.1 = false
  ∧ JsMap.get (controls r.2) old = None
  ∧ dbControls r.2 !! old = None.
Proof.
  intros Hnd Hbound Hc Hvalid Hkind.
  pose proof (getControl_Some_id _ _ _ Hc) as Hold.
  destruct (deleteControl_gone old c s Hnd Hc) as (Hget & Hdb & _).
  unfold importControl. rewrite Hbound, (truthyId_Some _ Hold).
  set (s1 := deleteControl old s) in *.
  assert (Hfails : ∀ cid n,
            createClassForControl cid CategoryButton (inl definition) true n = (None, n)).
  { intros cid n.
    destruct (createClassForControl_cases cid CategoryButton (inl definition) true n)
      as [(ty & Hname & Hb & _ & _)|[_ ->]]; [|done].
    specialize (Hkind ty Hname). by destruct (Hb eq_refl). }
  destruct (truthyId forceControlId) as [forced|] eqn:Hforced.
  - rewrite (Hvalid forced eq_refl). cbn [negb]. cbv zeta. by rewrite Hfails.
  - cbv zeta. by rewrite Hfails.
Qed.

(** X18.  [importTrigger] never replaces a control: every control of the
    registry is still registered, unchanged, after it.  It succeeds
    exactly when the id is a trigger id that is not registered yet and
    the definition is a trigger, and then registers and persists a
    trigger under the id; it throws exactly when the id is a trigger id
    that is registered already.  Unless it succeeds, the registry and the
    persisted table are as before; the bindings always are. *)
Theorem importTrigger_result newId definition s :
  let r := importTrigger newId definition s in
  (∀ cid c, JsMap.get (controls s) cid = Some c →
            JsMap.get (controls r.2) cid = Some c)
  ∧ (r.1 = Ok true ↔
       validateTriggerControlId newId = true
       ∧ JsMap.get (controls s) newId = None
       ∧ m_type definition = "trigger")
  ∧ ((∃ msg, r.1 = Throw msg) ↔
       validateTriggerControlId newId = true
       ∧ is_Some (JsMap.get (controls s) newId))
  ∧ (r.1 = Ok true →
       ∃ c, JsMap.get (controls r.2) newId = Some c
            ∧ controlId c = newId ∧ controlType c = trigger
            ∧ dbControls r.2 !! newId = Some (toJSON c))
  ∧ (r.1 ≠ Ok true → controls r.2 = controls s ∧ dbControls r.2 = dbControls s)
  ∧ pages r.2 = pages s.
Proof.
  unfold importTrigger.
  destruct (validateTriggerControlId newId) eqn:Hvalid; cbn [negb].
  2:{ cbv zeta. cbn [fst snd]. split_and!; try done.
      - split; [done | by intros (? & _)].
      - split; [by intros (? & ?) | by intros (? & _)]. }
  destruct (JsMap.get (controls s) newId) as [existing|] eqn:Hget.
  - rewrite bool_decide_eq_true_2 by eauto. cbv zeta. cbn [fst snd].
    split_and!; try done.
    + split; [done | by intros (_ & ? & _)].
    + split; [eauto | intros _; eauto].
  - rewrite bool_decide_eq_false_2 by (by intros [? ?]). cbv zeta.
    destruct (createClassForControl_cases newId CategoryTrigger (inl definition) true
                (nanoidCount s)) as [(ty & Hname & _ & Ht & ->)|[Hnone ->]];
      cbn [fst snd controls pages dbControls].
    + specialize (Ht eq_refl). subst ty.
      destruct (newControl_id_type trigger newId (Some definition) true (nanoidCount s))
        as (Hid & Hty & _).
      split_and!; try done.
      * intros cid c Hc. rewrite JsMap_get_set_ne; [done|]. congruence.
      * split; [by intros [? ?] | by intros (_ & [? ?])].
      * intros _. eexists. split; [apply JsMap_get_set_eq|].
        unfold commitChange. rewrite Hid. split_and!; [done | done | apply lookup_insert_eq].
    + split_and!; try done.
      * split; [done|]. intros (_ & _ & Hty).
        by destruct (Hnone trigger Hty) as [[? _]|[_ ?]].
      * split; [by intros (? & ?) | by intros (_ & [? ?])].
Qed.
Lemma foldr_max_bounds (l : list Z) :
  0 ≤ foldr Z.max 0 l
  ∧ (∀ x, x ∈ l → x ≤ foldr Z.max 0 l)
  ∧ (foldr Z.max 0 l = 0 ∨ foldr Z.max 0 l ∈ l).
Proof.
  induction l as [|y l (IH0 & IHle & IHin)]; simpl.
  - split_and!; [lia | by intros ? ?%elem_of_nil | by left].
  - split_and!; [lia | |].
    + intros x [->|Hx]%elem_of_cons; [lia|]. specialize (IHle x Hx). lia.
    + destruct (Z.max_spec y (foldr Z.max 0 l)) as [[_ ->]|[_ ->]].
      * destruct IHin as [?|?]; [by left | right; by apply list_elem_of_further].
      * right. apply list_elem_of_here.
Qed.

(** X19.  [triggers:create] registers and persists a new, empty trigger
    under a new trigger id and leaves the other controls as they are.
    The sort order it gives the trigger is the largest sort order of the
    triggers in the registry, or 0 if none is positive: not less than any
    other trigger's, but not greater than the last one's either. *)
Theorem triggers_create_order s :
  let r := triggers_create s in
  let newId := CreateTriggerControlId (nanoid (nanoidCount s)) in
  r.1 = newId
  ∧ (∃ c, JsMap.get (controls r.2) newId = Some c
          ∧ controlId c = newId ∧ controlType c = trigger
          ∧ actions c = [] ∧ feedbacks c = []
          ∧ dbControls r.2 !! newId = Some (toJSON c)
          ∧ 0 ≤ sortOrder c
          ∧ (∀ e, e ∈ controls s → e.1 ≠ newId → controlType e.2 = trigger →
                  sortOrder e.2 ≤ sortOrder c)
          ∧ (sortOrder c = 0
             ∨ ∃ e, e ∈ controls s ∧ controlType e.2 = trigger
                    ∧ sortOrder e.2 = sortOrder c))
  ∧ (∀ cid, cid ≠ newId → JsMap.get (controls r.2) cid = JsMap.get (controls s) cid).
Proof.
  unfold triggers_create. cbn [newControl]. cbv zeta.
  set (newId := CreateTriggerControlId (nanoid (nanoidCount s))).
  set (fresh := mkControl newId trigger 0 [] []).
  set (ranks := map (λ e : string * Control, sortOrder e.2)
                  (getAllTriggers (withControls s (JsMap.set (controls s) newId fresh)))).
  destruct (foldr_max_bounds ranks) as (Hpos & Hle & Hin).
  cbn [fst snd controls dbControls]. split_and!; [done | |].
  - eexists. split; [apply JsMap_get_set_eq|].
    unfold optionsSetField_sortOrder, commitChange.
    cbn [controlId controlType actions feedbacks sortOrder].
    split_and!; [done | done | done | done | apply lookup_insert_eq | done | |].
    + intros e He Hne Hty. apply Hle. subst ranks.
      apply list_elem_of_fmap. exists e. split; [done|].
      unfold getAllTriggers. apply list_elem_of_filter. split; [done|].
      cbn [controls withControls]. by apply JsMap_set_keeps.
    + destruct Hin as [Hzero|Hin]; [by left|].
      subst ranks. apply list_elem_of_fmap in Hin as (e & Hrank & He).
      unfold getAllTriggers in He. apply list_elem_of_filter in He as [Hty He].
      cbn [controls withControls] in He.
      apply JsMap_set_elem in He as [->|He].
      * left. by rewrite Hrank.
      * right. by exists e.
  - intros cid Hne. by rewrite !JsMap_get_set_ne.
Qed.

(** X20.  [triggers:delete] never touches the bindings of locations.
    It answers true exactly when the id is a trigger id of a registered
    control, and changes nothing when it answers false.  For a trigger
    id that no location is bound to, it does what [deleteControl] does. *)
Theorem triggers_delete_result cid s :
  let r := triggers_delete cid s in
  pages r.2 = pages s
  ∧ (r.1 = true ↔ validateTriggerControlId cid = true ∧ is_Some (getControl s cid))
  ∧ (r.1 = false → r.2 = s)
  ∧ (validateTriggerControlId cid = true →
     (∀ location, getControlIdAt (pages s) location ≠ Some cid) →
     r.2 = deleteControl cid s).
Proof.
  unfold triggers_delete.
  destruct (validateTriggerControlId cid) eqn:Hvalid; cbn [negb]; cbv zeta.
  2:{ cbn [fst snd]. split_and!; [done | | done | done].
      split; [done | by intros [? _]]. }
  unfold deleteControl.
  destruct (getControl s cid) as [control|] eqn:Hc; cbn [fst snd pages].
  - split_and!; [done | | done |].
    + split; [eauto | done].
    + intros _ Hfree. apply getLocationOfControlId_None in Hfree. by rewrite Hfree.
  - split_and!; [done | | done |].
    + split; [done | by intros [_ [? ?]]].
    + intros _ Hfree. apply getLocationOfControlId_None in Hfree. by rewrite Hfree.
Qed.

(** X21.  [triggers:clone] of a registered trigger whose trees satisfy
    the data-model invariant registers, under a new trigger id, a trigger
    with the source's sort order and the source's trees but for the ids,
    which are all fresh draws of [nanoid].  The source stays registered
    as it was, and no location is bound. *)
Theorem triggers_clone_independent cid s fromControl :
  validateTriggerControlId cid = true →
  getControl s cid = Some fromControl →
  controlType fromControl = trigger →
  Forall wellFormed (actions fromControl) →
  Forall wellFormed (feedbacks fromControl) →
  let r := triggers_clone cid s in
  let newId := CreateTriggerControlId (nanoid (nanoidCount s)) in
  r.1 = Some newId
  ∧ (∃ c, JsMap.get (controls r.2) newId = Some c
          ∧ controlId c = newId ∧ controlType c = trigger
          ∧ sortOrder c = sortOrder fromControl
          ∧ map withoutIds (actions c) = map withoutIds (actions fromControl)
          ∧ map withoutIds (feedbacks c) = map withoutIds (feedbacks fromControl)
          ∧ ∃ count, treeIds c = nanoid <$> seq (S (nanoidCount s)) count)
  ∧ (newId ≠ cid → getControl r.2 cid = Some fromControl)
  ∧ pages r.2 = pages s.
Proof.
  intros Hvalid Hc Hty Ha Hf. unfold triggers_clone. rewrite Hvalid, Hc.
  cbn [negb]. cbv zeta.
  set (newId := CreateTriggerControlId (nanoid (nanoidCount s))).
  destruct (createClassForControl_cases newId CategoryTrigger (inl (toJSON fromControl))
              true (S (nanoidCount s))) as [(ty & Hname & _ & Ht & ->)|[Hnone _]].
  2:{ destruct (Hnone trigger) as [[? _]|[_ ?]]; [|done..].
      unfold toJSON. cbn [m_type]. by rewrite Hty. }
  specialize (Ht eq_refl). subst ty.
  destruct (newControl_clone trigger newId fromControl (S (nanoidCount s)) Ha Hf)
    as (Hid & Hty' & Hwa & Hwf & count & Hids).
  destruct (newControl_id_type trigger newId (Some (toJSON fromControl)) true
              (S (nanoidCount s))) as (_ & _ & Hsort). simpl in Hsort.
  cbn [fst snd controls pages]. split_and!; [done | | | done].
  - eexists. split; [apply JsMap_get_set_eq|]. split_and!; [done..|]. by exists count.
  - intros Hne. unfold getControl in *. cbn [controls].
    destruct (decide (cid = EmptyString)); [done|]. by rewrite JsMap_get_set_ne.
Qed.
(** *** Feedback values *)

Lemma last_filter_cons {A} (P : A → Prop) `{∀ x, Decision (P x)} (x : A) (l : list A) :
  last (filter P (x :: l))
  = match last (filter P l) with
    | Some y => Some y
    | None => if decide (P x) then Some x else None
    end.
Proof.
  rewrite filter_cons. destruct (decide (P x)); [|by destruct (last (filter P l))].
  destruct (filter P l) as [|y l'] eqn:Hf; [done|].
  change (last (x :: y :: l')) with (last (y :: l')).
  destruct (last (y :: l')) eqn:Hlast; [done|].
  by apply last_None in Hlast.
Qed.

Lemma objectEntries_perm {V} (object : list (string * V)) :
  objectEntries object ≡ₚ object.
Proof.
  unfold objectEntries. rewrite sort_perm.
  induction object as [|e object IH]; [done|].
  rewrite !filter_cons. destruct (arrayIndex e.1) as [n|] eqn:Hindex.
  - rewrite decide_True by eauto. rewrite decide_False by done.
    cbn [app]. by rewrite IH.
  - rewrite decide_False by (by intros [? ?]). rewrite decide_True by done.
    rewrite <- Permutation_middle. by rewrite IH.
Qed.

Lemma withoutProto_get values cid :
  withoutProto values → default ∅ (JsMap.get values cid) !! "__proto__" = None.
Proof.
  intros Hinv. destruct (JsMap.get values cid) as [m|] eqn:Hget; [|done].
  apply JsMap_get_Some in Hget. rewrite Forall_forall in Hinv.
  exact (Hinv _ Hget).
Qed.

Lemma withoutProto_set values cid m :
  withoutProto values → m !! "__proto__" = None → withoutProto (JsMap.set values cid m).
Proof.
  intros Hinv Hm. apply Forall_forall. intros e [->|He]%JsMap_set_elem; [done|].
  rewrite Forall_forall in Hinv. by apply Hinv.
Qed.

(** One round of the first loop. *)
Lemma collectFeedbackValue_spec values item :
  withoutProto values →
  match collectFeedbackValue values item with
  | Some values' =>
      ¬ unrepresented item
      ∧ withoutProto values'
      ∧ (NoDup values.*1 → NoDup values'.*1)
      ∧ JsMap.get values' (fv_controlId item)
        = Some (if decide (fv_id item = "__proto__")
                then default ∅ (JsMap.get values (fv_controlId item))
                else <[fv_id item := fv_value item]>
                       (default ∅ (JsMap.get values (fv_controlId item))))
      ∧ ∀ other, other ≠ fv_controlId item →
          JsMap.get values' other = JsMap.get values other
  | None => unrepresented item
  end.
Proof.
  intros Hinv. unfold collectFeedbackValue.
  destruct (decide (fv_controlId item ∈ inheritedNames)) as [Hin|Hin].
  { rewrite bool_decide_eq_true_2 by done. by left. }
  rewrite bool_decide_eq_false_2 by done. cbv zeta.
  set (values1 := match JsMap.get values (fv_controlId item) with
                  | Some _ => values
                  | None => JsMap.set values (fv_controlId item) ∅
                  end).
  assert (Hsame : default ∅ (JsMap.get values1 (fv_controlId item))
                  = default ∅ (JsMap.get values (fv_controlId item))).
  { subst values1. destruct (JsMap.get values (fv_controlId item)) eqn:Hget.
    - by rewrite Hget.
    - by rewrite JsMap_get_set_eq. }
  assert (Hother : ∀ other, other ≠ fv_controlId item →
                     JsMap.get values1 other = JsMap.get values other).
  { intros other Hne. subst values1.
    destruct (JsMap.get values (fv_controlId item)); [done|].
    by apply JsMap_get_set_ne. }
  assert (Hinv1 : withoutProto values1).
  { subst values1. destruct (JsMap.get values (fv_controlId item)); [done|].
    by apply withoutProto_set. }
  assert (Hnd1 : NoDup values.*1 → NoDup values1.*1).
  { intros Hnd. subst values1. destruct (JsMap.get values (fv_controlId item)); [done|].
    by apply JsMap_set_keys_NoDup. }
  rewrite Hsame. clearbody values1.
  pose proof (withoutProto_get values (fv_controlId item) Hinv) as Hnone.
  unfold assignProperty.
  destruct (decide (fv_id item = "__proto__")) as [Hp|Hp].
  - rewrite Hp, Hnone.
    destruct (fv_value item) eqn:Hvalue; [by right | | |].
    all: split_and!;
      [ by intros [?|[_ ?]]
      | by apply withoutProto_set
      | intros Hnd; by apply JsMap_set_keys_NoDup, Hnd1
      | apply JsMap_get_set_eq
      | intros other Hne; rewrite JsMap_get_set_ne by done; by apply Hother ].
  - split_and!.
    + by intros [?|[? _]].
    + apply withoutProto_set; [done|]. by rewrite lookup_insert_ne.
    + intros Hnd. by apply JsMap_set_keys_NoDup, Hnd1.
    + apply JsMap_get_set_eq.
    + intros other Hne. rewrite JsMap_get_set_ne by done. by apply Hother.
Qed.

(** What the first loop collects for a control id: nothing when no item
    names it, and otherwise, for each feedback id but [__proto__], the
    value of the last item with the two ids; it is not represented
    exactly when an item is not. *)
Lemma groupFeedbackValues_spec result values :
  withoutProto values →
  match groupFeedbackValues result values with
  | Some values' =>
      (∀ item, item ∈ result → ¬ unrepresented item)
      ∧ withoutProto values'
      ∧ (NoDup values.*1 → NoDup values'.*1)
      ∧ ∀ cid,
          match JsMap.get values' cid with
          | Some m =>
              ((∃ item, item ∈ result ∧ fv_controlId item = cid)
               ∨ is_Some (JsMap.get values cid))
              ∧ ∀ fid, fid ≠ "__proto__" →
                  m !! fid
                  = match last (filter (λ item, fv_controlId item = cid
                                                ∧ fv_id item = fid) result) with
                    | Some item => Some (fv_value item)
                    | None => default ∅ (JsMap.get values cid) !! fid
                    end
          | None =>
              JsMap.get values cid = None
              ∧ ∀ item, item ∈ result → fv_controlId item ≠ cid
          end
  | None => ∃ item, item ∈ result ∧ unrepresented item
  end.
Proof.
  revert values. induction result as [|item rest IH]; intros values Hinv.
  - cbn [groupFeedbackValues]. split_and!; [by intros ? ?%elem_of_nil | done | done |].
    intros cid. destruct (JsMap.get values cid) as [m|] eqn:Hget.
    + split; [right; eauto|]. intros fid _. by rewrite filter_nil.
    + split; [done | by intros ? ?%elem_of_nil].
  - cbn [groupFeedbackValues].
    pose proof (collectFeedbackValue_spec values item Hinv) as Hstep.
    destruct (collectFeedbackValue values item) as [values2|].
    2:{ exists item. split; [apply list_elem_of_here | done]. }
    destruct Hstep as (Hgood & Hinv2 & Hnd2 & Hget2 & Hother2).
    specialize (IH values2 Hinv2).
    destruct (groupFeedbackValues rest values2) as [values'|].
    2:{ destruct IH as (it & Hit & Hbad). exists it.
        split; [by apply list_elem_of_further | done]. }
    destruct IH as (Hrest & Hinv' & Hnd' & Hcids). split_and!.
    + intros it [->|Hit]%elem_of_cons; [done | by apply Hrest].
    + done.
    + intros Hnd. by apply Hnd', Hnd2.
    + intros cid. specialize (Hcids cid).
      destruct (JsMap.get values' cid) as [m|].
      * destruct Hcids as [Hwhy Hvalues]. split.
        { destruct Hwhy as [(it & Hit & Hcid)|Hsome].
          - left. exists it. split; [by apply list_elem_of_further | done].
          - destruct (decide (fv_controlId item = cid)) as [Heq|Hne].
            + left. exists item. split; [apply list_elem_of_here | done].
            + right. by rewrite <- Hother2. }
        intros fid Hfid. rewrite (Hvalues fid Hfid), last_filter_cons.
        destruct (last (filter _ rest)) as [it|]; [done|].
        destruct (decide (fv_controlId item = cid)) as [Heq|Hne].
        -- subst cid. rewrite Hget2. cbn [default from_option Datatypes.id].
           destruct (decide (fv_id item = "__proto__")) as [Hp|Hp].
           ++ rewrite decide_False; [done|]. intros [_ ?]. congruence.
           ++ destruct (decide (fv_id item = fid)) as [Heq|Hne].
              ** rewrite decide_True by done. subst fid. by rewrite lookup_insert_eq.
              ** rewrite decide_False by (by intros [_ ?]). by rewrite lookup_insert_ne.
        -- rewrite Hother2 by done. by rewrite decide_False by (by intros [? _]).
      * destruct Hcids as [Hnone Hrest']. 
        destruct (decide (fv_controlId item = cid)) as [Heq|Hne].
        { subst cid. by rewrite Hget2 in Hnone. }
        rewrite Hother2 in Hnone by done. split; [done|].
        intros it [->|Hit]%elem_of_cons; [done | by apply Hrest'].
Qed.

Lemma omap_keys_sublist {V W} (f : string * V → option (string * W)) (l : list (string * V)) :
  (∀ e r, f e = Some r → r.1 = e.1) → (omap f l).*1 `sublist_of` l.*1.
Proof.
  intros Hkey. induction l as [|e l IH]; csimpl; [done|].
  destruct (f e) as [r|] eqn:He; csimpl.
  - rewrite (Hkey e r He). by apply sublist_skip.
  - by apply sublist_cons.
Qed.


(** *** Deleting twice, and what a copy leaves in place *)

Lemma deleteControl_pages cid s location :
  getControlIdAt (pages s) location ≠ Some cid →
  getControlIdAt (pages (deleteControl cid s)) location
  = getControlIdAt (pages s) location.
Proof.
  intros Hne. unfold deleteControl.
  set (s1 := match getControl s cid with Some _ => _ | None => s end).
  assert (pages s1 = pages s) as Hp by (subst s1; by destruct (getControl s cid)).
  rewrite Hp. destruct (getLocationOfControlId (pages s) cid) as [found|] eqn:Hloc;
    [|by rewrite Hp].
  apply getLocationOfControlId_Some in Hloc. cbn [pages withPages withEffects].
  unfold getControlIdAt, setControlIdAt in *. rewrite lookup_delete_ne; [done|].
  intros <-. done.
Qed.

Lemma deleteControl_other cid s other :
  other ≠ cid → getControl (deleteControl cid s) other = getControl s other.
Proof.
  intros Hne. unfold deleteControl.
  set (s1 := match getControl s cid with Some _ => _ | None => s end).
  assert (getControl s1 other = getControl s other) as Hc.
  { subst s1. destruct (getControl s cid); [|done]. unfold getControl. cbn [controls].
    destruct (decide (other = EmptyString)); [done|]. by apply JsMap_delete_get_ne. }
  by destruct (getLocationOfControlId (pages s1) cid).
Qed.

(** X23.  [deleteControl] twice is [deleteControl] once, when the
    registry has one entry per id and at most one location is bound to
    the id. *)
Theorem deleteControl_twice cid s :
  NoDup (controls s).*1 →
  (∀ l1 l2, getControlIdAt (pages s) l1 = Some cid →
            getControlIdAt (pages s) l2 = Some cid → l1 = l2) →
  deleteControl cid (deleteControl cid s) = deleteControl cid s.
Proof.
  intros Hnd Honly.
  assert (Hgone : getControl (deleteControl cid s) cid = None).
  { destruct (getControl s cid) as [c|] eqn:Hc.
    - destruct (deleteControl_gone cid c s Hnd Hc) as (Hget & _).
      unfold getControl. by destruct (decide (cid = EmptyString)).
    - unfold deleteControl. rewrite Hc.
      by destruct (getLocationOfControlId (pages s) cid). }
  assert (Hfree : getLocationOfControlId (pages (deleteControl cid s)) cid = None).
  { apply getLocationOfControlId_None. intros location.
    unfold deleteControl.
    set (s1 := match getControl s cid with Some _ => _ | None => s end).
    assert (pages s1 = pages s) as Hp by (subst s1; by destruct (getControl s cid)).
    rewrite Hp. destruct (getLocationOfControlId (pages s) cid) as [found|] eqn:Hloc.
    - apply getLocationOfControlId_Some in Hloc. cbn [pages withPages withEffects].
      unfold getControlIdAt, setControlIdAt in *.
      destruct (decide (found = location)) as [->|Hne].
      + by rewrite lookup_delete_eq.
      + rewrite lookup_delete_ne by done. intros Hbound.
        by destruct Hne; apply Honly.
    - rewrite Hp. by apply getLocationOfControlId_None. }
  unfold deleteControl at 1. by rewrite Hgone, Hfree.
Qed.

(** X24.  [controls:copy] leaves the source in place: whether it
    succeeds or not, the source control is still registered, as it was,
    and still bound at the source location, when the destination is
    another location that is not bound to the same id and [nanoid] does
    not return the source's id. *)
Theorem copy_keeps_source fromLocation toLocation s fromControlId fromControl :
  fromLocation ≠ toLocation →
  getControlIdAt (pages s) fromLocation = Some fromControlId →
  getControl s fromControlId = Some fromControl →
  getControlIdAt (pages s) toLocation ≠ Some fromControlId →
  fromControlId ≠ CreateBankControlId (nanoid (nanoidCount s)) →
  let r := controls_copy fromLocation toLocation s in
  getControl r.2 fromControlId = Some fromControl
  ∧ getControlIdAt (pages r.2) fromLocation = Some fromControlId.
Proof.
  intros Hne Hbound Hc Hto Hfresh.
  pose proof (getControl_Some_id _ _ _ Hc) as Hid.
  unfold controls_copy. rewrite (sameLocation_false _ _ Hne).
  destruct (isPageValid (pageNumber toLocation)); cbn [negb]; [|done].
  rewrite Hbound, (truthyId_Some _ Hid), Hc. rewrite deleteControlAt_nanoidCount.
  set (s1 := deleteControlAt toLocation s).
  assert (Hs1 : getControl s1 fromControlId = Some fromControl
                ∧ getControlIdAt (pages s1) fromLocation = Some fromControlId).
  { subst s1. unfold deleteControlAt.
    destruct (truthyId (getControlIdAt (pages s) toLocation)) as [toId|] eqn:HtoId;
      [|done].
    assert (getControlIdAt (pages s) toLocation = Some toId) as Hbound'.
    { destruct (getControlIdAt (pages s) toLocation) as [x|]; [|done].
      simpl in HtoId. by destruct (decide (x = EmptyString)). }
    assert (fromControlId ≠ toId) by congruence.
    split; [by rewrite deleteControl_other|].
    rewrite deleteControl_pages; [done|]. rewrite Hbound. congruence. }
  destruct Hs1 as [Hc1 Hb1].
  destruct (createClassForControl _ CategoryButton _ true _) as [[newControl|] n'];
    cbn [fst snd].
  - unfold getControl in *. cbn [controls pages].
    destruct (decide (fromControlId = EmptyString)); [done|].
    rewrite JsMap_get_set_ne by done. split; [done|].
    unfold getControlIdAt, setControlIdAt in *. by rewrite lookup_insert_ne.
  - done.
Qed.
End ControllerMoreFacts.

(** ** The further properties, on the examples *)

Section MoreExamples.
Import Example MoreExample.
#[local] Existing Instances definitions host ids policy capabilities idScheme
  pageValidity internal.

Ltac evaluate := vm_compute; reflexivity.
Ltac decided := apply (bool_decide_unpack _); vm_compute; exact I.
Ltac listed := repeat first [apply list_elem_of_here | apply list_elem_of_further].

Lemma tree_wellFormed : wellFormed tree.
Proof. apply construct_wellFormed. Qed.

Lemma state_wellFormed :
  Forall (λ e : string * Control,
            controlId e.2 = e.1
            ∧ Forall wellFormed (actions e.2) ∧ Forall wellFormed (feedbacks e.2))
    (controls state).
Proof.
  repeat apply Forall_cons_2; [| | | |apply Forall_nil_2];
    (split_and!; [reflexivity | | apply Forall_nil_2]).
  - apply Forall_cons_2; [apply tree_wellFormed | apply Forall_nil_2].
  - apply Forall_nil_2.
  - apply Forall_nil_2.
  - apply Forall_nil_2.
Qed.

Lemma state_bound_once l : getControlIdAt (pages state) l = Some "bank:src" → l = here.
Proof.
  unfold getControlIdAt, state. cbn [pages].
  by intros [-> _]%lookup_singleton_Some.
Qed.

Lemma declares_actions : declaresGroup (data childless) "actions".
Proof.
  exists (mkActionDefinition ["condition"; "actions"]). split; [evaluate | listed].
Qed.

Lemma construct_asActionInstance_witness :
  wellFormed tree ∧ construct false (asActionInstance tree) 7 = (tree, 7%nat).
Proof.
  split; [apply tree_wellFormed|].
  apply (construct_asActionInstance tree 7 tree_wellFormed).
Defined.

Lemma getOrCreateActionGroup_again_witness :
  getOrCreateActionGroup childless "actions"
  = Ok (setChildGroup childless "actions" [], [])
  ∧ getOrCreateActionGroup (setChildGroup childless "actions" []) "actions"
    = Ok (setChildGroup childless "actions" [], []).
Proof.
  assert (getOrCreateActionGroup childless "actions"
          = Ok (setChildGroup childless "actions" [], [])) as Hfirst by evaluate.
  split; [exact Hfirst|].
  exact (getOrCreateActionGroup_again childless "actions" _ _ Hfirst).
Defined.

Lemma canAcceptChild_creates_group_witness :
  connectionId childless = "internal"
  ∧ JsMap.get (children childless) "actions" = None
  ∧ ∃ t', canAcceptChild "actions" enabledLeaf childless = Ok (t', true)
          ∧ children t' = [("actions", [])].
Proof.
  assert (connectionId childless = "internal") as Hint by evaluate.
  assert (JsMap.get (children childless) "actions" = None) as Hnone by evaluate.
  split; [exact Hint|]. split; [exact Hnone|].
  destruct (canAcceptChild_creates_group childless "actions" enabledLeaf
              Hint declares_actions Hnone) as (t' & Hok & _ & Hch).
  exists t'. split; [exact Hok | exact Hch].
Defined.

Lemma addChild_appends_witness :
  connectionId childless = "internal"
  ∧ ∃ t', addChild "actions" (leaf "x" "conn1" "play") 0 childless
          = Ok (t', (construct false (leaf "x" "conn1" "play") 0).1)
          ∧ JsMap.get (children t') "actions"
            = Some [(construct false (leaf "x" "conn1" "play") 0).1].
Proof.
  assert (connectionId childless = "internal") as Hint by evaluate.
  split; [exact Hint|].
  destruct (addChild_appends childless "actions" (leaf "x" "conn1" "play") 0
              Hint declares_actions) as (t' & Hok & _ & _ & Hget & _).
  exists t'. split; [exact Hok | exact Hget].
Defined.



Lemma findChildById_spec_witness :
  (∃ r, findChildById "a3" tree = Some r ∧ id (data r) = "a3" ∧ r ∈ getAllChildren tree)
  ∧ findChildById "zz" tree = None
  ∧ ∀ c, c ∈ getAllChildren tree → id (data c) ≠ "zz".
Proof.
  pose proof (findChildById_spec "a3" tree) as Hfound.
  pose proof (findChildById_spec "zz" tree) as Hnone.
  destruct (findChildById "a3" tree) as [r|] eqn:Ha; [|vm_compute in Ha; discriminate Ha].
  destruct (findChildById "zz" tree) as [r'|] eqn:Hz; [vm_compute in Hz; discriminate Hz|].
  split; [|split; [reflexivity | exact Hnone]].
  exists r. destruct Hfound as [Hid Hin]. split; [reflexivity|]. split; assumption.
Defined.

Lemma postProcessImport_calls_witness :
  (postProcessImport "bank:src" tree).2 = []
  ∧ (∃ r, findChildById "a3" (postProcessImport "bank:src" tree).1.1 = Some r
          ∧ options (data r) = {[ "time" := JStr "0" ]})
  ∧ (∃ r, findChildById "a2" (postProcessImport "bank:src" tree).1.1 = Some r
          ∧ Some (data r) = data <$> findChildById "a2" tree)
  ∧ ∃ r, findChildById "a2" tree = Some r
         ∧ (postProcessImport "bank:src" tree).1.2
           ≡ₚ [ActionUpdate "conn1" (asActionInstance r) "bank:src"].
Proof.
  destruct (postProcessImport_calls "bank:src" tree) as (Hbg & Htree & _ & Hcalls).
  split; [exact Hbg|]. rewrite Htree. split; [|split].
  - eexists. split; evaluate.
  - eexists. split; evaluate.
  - eexists. split; [evaluate|]. rewrite Hcalls. evaluate.
Defined.

Lemma verifyChildConnectionIds_prunes_witness :
  (verifyChildConnectionIds known tree).2 = true
  ∧ Forall (λ c, connectionId c ∈ known)
      (getAllChildren (verifyChildConnectionIds known tree).1)
  ∧ verifyChildConnectionIds known (verifyChildConnectionIds known tree).1
    = ((verifyChildConnectionIds known tree).1, false)
  ∧ (verifyChildConnectionIds known childless).1 = childless.
Proof.
  destruct (verifyChildConnectionIds_prunes known tree)
    as (_ & Hknown & _ & _ & _ & Hagain).
  destruct (verifyChildConnectionIds_prunes known childless) as (_ & _ & _ & Hsame & _).
  split; [evaluate|]. split; [exact Hknown|]. split; [exact Hagain|].
  apply Hsame. evaluate.
Defined.

Lemma createClassForControl_kind_witness :
  createClassForControl "bank:x" CategoryButton (inl storedTrigger) true 0 = (None, 0%nat)
  ∧ ∃ c, (createClassForControl "trigger:x" CategoryTrigger (inl storedTrigger) true 0).1
         = Some c
         ∧ controlId c = "trigger:x" ∧ controlType c = trigger.
Proof.
  pose proof (createClassForControl_kind "bank:x" CategoryButton (inl storedTrigger) true 0)
    as Hbutton.
  pose proof (createClassForControl_kind "trigger:x" CategoryTrigger (inl storedTrigger)
                true 0) as Htrigger.
  cbv zeta in Hbutton, Htrigger. split.
  - destruct (createClassForControl "bank:x" CategoryButton (inl storedTrigger) true 0)
      as [[c|] n] eqn:Hc; [vm_compute in Hc; discriminate Hc|].
    cbn [fst snd] in Hbutton. destruct Hbutton as [-> _]. reflexivity.
  - destruct (createClassForControl "trigger:x" CategoryTrigger (inl storedTrigger) true 0).1
      as [c|] eqn:Hc; [|vm_compute in Hc; discriminate Hc].
    destruct Htrigger as (Hid & _ & _ & Hty). exists c.
    split; [reflexivity|]. split; [exact Hid | exact (Hty eq_refl)].
Defined.

Lemma init_restores_witness :
  NoDup (controls state).*1
  ∧ init (map (λ e : string * Control, (e.1, Some (toJSON e.2))) (controls state))
      (withControls state [])
    = state.
Proof.
  assert (NoDup (controls state).*1) as Hnd by decided.
  split; [exact Hnd|].
  exact (init_restores (controls state) (withControls state []) Hnd state_wellFormed
           eq_refl).
Defined.

Lemma createButtonControl_keeps_witness :
  (createButtonControl here "pageup" state).1 = Some "bank:n0"
  ∧ JsMap.get (controls (createButtonControl here "pageup" state).2) "bank:src"
    = Some source
  ∧ pages (createButtonControl here "pageup" state).2 = <[here := "bank:n0"]> (pages state).
Proof.
  pose proof (createButtonControl_keeps here "pageup" state) as Hkeeps.
  cbv zeta in Hkeeps.
  destruct (createButtonControl here "pageup" state).1 as [newId|] eqn:Hnew;
    [|vm_compute in Hnew; discriminate Hnew].
  destruct Hkeeps as (-> & _ & _ & Hpages & Hothers).
  split; [evaluate|]. split; [|exact Hpages].
  rewrite Hothers; [evaluate | vm_compute; discriminate].
Defined.

Lemma controls_reset_clears_witness :
  NoDup (controls state).*1
  ∧ getControl state "bank:src" = Some source
  ∧ JsMap.get (controls (controls_reset here None state)) "bank:src" = None
  ∧ getControlIdAt (pages (controls_reset here None state)) here = None
  ∧ getControlIdAt (pages (controls_reset here (Some "pagenum") state)) here
    = Some "bank:n0".
Proof.
  assert (NoDup (controls state).*1) as Hnd by decided.
  assert (getControl state "bank:src" = Some source) as Hc by evaluate.
  assert (getControlIdAt (pages state) here = Some "bank:src") as Hbound by evaluate.
  assert ("bank:src" ≠ CreateBankControlId (nanoid (nanoidCount state))) as Hfresh
    by (vm_compute; discriminate).
  assert (∀ l, getControlIdAt (pages state) l = Some "bank:src" → l = here) as Honly
    by exact state_bound_once.
  destruct (controls_reset_clears here None state "bank:src" source
              Hnd Hbound Hc Honly Hfresh) as (Hgone & _ & _ & Hfree & _).
  destruct (controls_reset_clears here (Some "pagenum") state "bank:src" source
              Hnd Hbound Hc Honly Hfresh) as (_ & _ & _ & _ & Hnew).
  split; [exact Hnd|]. split; [exact Hc|]. split; [exact Hgone|].
  split; [exact (Hfree eq_refl)|].
  destruct (Hnew "pagenum" pagenum) as [Hat _]; [evaluate | evaluate | discriminate
                                                | evaluate |].
  exact Hat.
Defined.

Lemma importControl_result_witness :
  (importControl there storedButton None state).1 = true
  ∧ getControlIdAt (pages (importControl there storedButton None state).2) there
    = Some "bank:n0"
  ∧ importControl there storedButton (Some "trigger:t9") state = (false, state).
Proof.
  destruct (importControl_result there storedButton None state) as (Hiff & Hdone & _).
  destruct (importControl_result there storedButton (Some "trigger:t9") state)
    as (Hno & _ & Hsame).
  assert ((importControl there storedButton None state).1 = true) as Hyes.
  { apply Hiff. split; [intros forced Hforced; discriminate Hforced|].
    exists button. split; [evaluate | discriminate]. }
  split; [exact Hyes|]. split; [exact (proj1 (Hdone Hyes))|].
  assert ((importControl there storedButton (Some "trigger:t9") state).2 = state) as Hstate.
  { apply Hsame. exists "trigger:t9". split; evaluate. }
  destruct (importControl there storedButton (Some "trigger:t9") state) as [[] s'];
    cbn [fst snd] in *.
  - destruct Hno as [Hvalid _]. destruct (Hvalid eq_refl) as [Hforced _].
    specialize (Hforced "trigger:t9" eq_refl). vm_compute in Hforced.
    discriminate Hforced.
  - by rewrite Hstate.
Defined.

Lemma importControl_deletes_first_witness :
  getControl state "bank:src" = Some source
  ∧ (importControl here storedTrigger None state).1 = false
  ∧ JsMap.get (controls (importControl here storedTrigger None state).2) "bank:src" = None.
Proof.
  assert (getControl state "bank:src" = Some source) as Hc by evaluate.
  split; [exact Hc|].
  destruct (importControl_deletes_first here storedTrigger None state "bank:src" source)
    as (Hfalse & Hgone & _).
  - decided.
  - evaluate.
  - exact Hc.
  - intros forced Hforced. discriminate Hforced.
  - intros [] Hty; first [reflexivity | vm_compute in Hty; discriminate Hty].
  - split; [exact Hfalse | exact Hgone].
Defined.

Lemma importTrigger_result_witness :
  (∃ msg, (importTrigger "trigger:t1" storedTrigger state).1 = Throw msg)
  ∧ (importTrigger "trigger:t9" storedTrigger state).1 = Ok true
  ∧ JsMap.get (controls (importTrigger "trigger:t9" storedTrigger state).2) "bank:src"
    = Some source.
Proof.
  destruct (importTrigger_result "trigger:t1" storedTrigger state)
    as (_ & _ & Hthrows & _).
  destruct (importTrigger_result "trigger:t9" storedTrigger state)
    as (Hkeeps & Hok & _).
  split; [|split].
  - apply Hthrows. split; [evaluate|]. eexists. evaluate.
  - apply Hok. split_and!; evaluate.
  - apply Hkeeps. evaluate.
Defined.

Lemma triggers_create_order_witness :
  (triggers_create state).1 = "trigger:n0"
  ∧ ∃ c, JsMap.get (controls (triggers_create state).2) "trigger:n0" = Some c
         ∧ 2 ≤ sortOrder c.
Proof.
  destruct (triggers_create_order state) as (Hid & (c & Hget & _ & _ & _ & _ & _ & _ & Hle & _) & _).
  split; [exact Hid|]. exists c. split; [exact Hget|].
  apply (Hle ("trigger:t3", triggerWith "trigger:t3" 2));
    [unfold state; cbn [controls]; listed | vm_compute; discriminate | reflexivity].
Defined.

Lemma triggers_delete_result_witness :
  (triggers_delete "trigger:t1" state).1 = true
  ∧ (triggers_delete "trigger:t1" state).2 = deleteControl "trigger:t1" state
  ∧ triggers_delete "bank:src" state = (false, state).
Proof.
  destruct (triggers_delete_result "trigger:t1" state) as (_ & Hiff & _ & Hsame).
  destruct (triggers_delete_result "bank:src" state) as (_ & Hno & Hstate & _).
  split; [|split].
  - apply Hiff. split; [evaluate|]. eexists. evaluate.
  - apply Hsame; [evaluate|]. intros location Hbound.
    unfold getControlIdAt, state in Hbound. cbn [pages] in Hbound.
    apply lookup_singleton_Some in Hbound as [_ Hb]. discriminate Hb.
  - destruct (triggers_delete "bank:src" state) as [[] s'] eqn:Hr; cbn [fst snd] in *.
    + destruct Hno as [Hvalid _]. destruct (Hvalid eq_refl) as [Hid _].
      vm_compute in Hid. discriminate Hid.
    + by rewrite (Hstate eq_refl).
Defined.

Lemma nanoid_not_richTrigger k : nanoid k ∉ treeIds richTrigger.
Proof.
  change (treeIds richTrigger) with ["a1"; "a2"; "a3"; "a8"].
  change (nanoid k) with ("n" ++ pretty k)%string. generalize (pretty k).
  intros digits Hin. cbn [String.append] in Hin.
  repeat (apply elem_of_cons in Hin as [Hin|Hin]; [discriminate Hin|]).
  by apply elem_of_nil in Hin.
Qed.

Lemma triggers_clone_independent_witness :
  getControl triggerState "trigger:t5" = Some richTrigger
  ∧ Forall wellFormed (actions richTrigger)
  ∧ length (concat (map getAllChildren (actions richTrigger))) = 2%nat
  ∧ (triggers_clone "trigger:t5" triggerState).1 = Some "trigger:n0"
  ∧ ∃ c, JsMap.get (controls (triggers_clone "trigger:t5" triggerState).2) "trigger:n0"
         = Some c
         ∧ sortOrder c = 3
         ∧ map withoutIds (actions c) = map withoutIds [tree]
         ∧ map withoutIds (feedbacks c) = map withoutIds [enabledLeaf]
         ∧ (∃ count, treeIds c = nanoid <$> seq 1 count)
         ∧ (∀ i, i ∈ treeIds c → i ∉ treeIds richTrigger)
         ∧ getControl (triggers_clone "trigger:t5" triggerState).2 "trigger:t5"
           = Some richTrigger.
Proof.
  assert (getControl triggerState "trigger:t5" = Some richTrigger) as Hc by evaluate.
  assert (Forall wellFormed (actions richTrigger)) as Ha.
  { apply Forall_cons_2; [apply tree_wellFormed | apply Forall_nil_2]. }
  assert (Forall wellFormed (feedbacks richTrigger)) as Hf.
  { apply Forall_cons_2; [apply construct_wellFormed | apply Forall_nil_2]. }
  split; [exact Hc|]. split; [exact Ha|]. split; [evaluate|].
  destruct (triggers_clone_independent "trigger:t5" triggerState richTrigger)
    as (Hid & (c & Hget & _ & _ & Hsort & Hacts & Hfbs & count & Hids) & Hkept & _);
    [evaluate | exact Hc | reflexivity | exact Ha | exact Hf |].
  split; [exact Hid|]. exists c.
  split_and!; [exact Hget | exact Hsort | exact Hacts | exact Hfbs | | |].
  - exists count. exact Hids.
  - intros i Hi. rewrite Hids in Hi.
    apply list_elem_of_fmap in Hi as (k & -> & _). apply nanoid_not_richTrigger.
  - apply Hkept. vm_compute. discriminate.
Defined.


Lemma deleteControl_twice_witness :
  NoDup (controls state).*1
  ∧ deleteControl "bank:src" (deleteControl "bank:src" state)
    = deleteControl "bank:src" state.
Proof.
  assert (NoDup (controls state).*1) as Hnd by decided.
  split; [exact Hnd|].
  apply (deleteControl_twice "bank:src" state Hnd).
  intros l1 l2 Hl1%state_bound_once Hl2%state_bound_once. by subst.
Defined.

Lemma copy_keeps_source_witness :
  here ≠ there
  ∧ getControl (controls_copy here there state).2 "bank:src" = Some source
  ∧ getControlIdAt (pages (controls_copy here there state).2) here = Some "bank:src".
Proof.
  assert (here ≠ there) as Hne by (intros [=]).
  split; [exact Hne|].
  apply (copy_keeps_source here there state "bank:src" source Hne).
  - evaluate.
  - evaluate.
  - vm_compute. discriminate.
  - vm_compute. discriminate.
Defined.
End MoreExamples.
